(** * krakend-trace plugin: capture, tee-streaming, payload and delivery

    A shallow embedding of [krakend_trace_plugin.go] (the two copies of the
    plugin agree on everything modelled here; names follow the later copy,
    the one whose [streamAndCapture] compiles).  Go values are modelled as
    the code has them: [[]byte] as a slice header over a backing array in an
    explicit heap, Go strings as [string], [int] as [Z], [float64] as
    IEEE-754 binary64 ([spec_float] at precision 53), interfaces as classes,
    and the process-wide pools and logger as fields of an explicit state. *)

From Stdlib Require Import ZArith Lia List Ascii String SpecFloat.
From Stdlib.Strings Require Import Byte.
From stdpp Require Import base option list gmap strings.

Local Open Scope Z_scope.

(** ** Results of running Go code *)

(** A call returns, panics (a failed type assertion, a nil interface call,
    a slice bound out of range), or exhausts the loop budget of the model.
    Budgets are computed from the input; the theorems show they suffice. *)
Inductive outcome (A : Type) : Type :=
| Done (a : A)
| Panic (msg : string)
| Stuck.
Arguments Done {A} a.
Arguments Panic {A} msg.
Arguments Stuck {A}.

#[export] Instance outcome_ret : MRet outcome := @Done.
#[export] Instance outcome_bind : MBind outcome := fun A B f m =>
  match m with
  | Done a => f a
  | Panic msg => Panic msg
  | Stuck => Stuck
  end.

(** ** Byte sequences, errors, [io.Reader] and [io.Writer] *)

Abbreviation bytes := (list byte).

Inductive error : Type :=
| EOF
| ErrOther (msg : string).

(** [Read s n] is [s.Read(p)] with [len(p) = n]: the bytes stored in [p],
    the error returned, and the reader afterwards. *)
Class Reader (S : Type) := Read : S -> Z -> bytes * option error * S.

(** [Write w p] is [w.Write(p)]; the writers of this program accept every
    byte and return a nil error. *)
Class Writer (W : Type) := Write : W -> bytes -> W.

(** A source of bytes as the network delivers it: the chunks still to
    come, and the error reported once they are used up ([EOF] for a
    stream that ends normally). *)
Record stream := { chunks : list bytes; fin : error }.

Definition stream_Read (s : stream) (n : Z) : bytes * option error * stream :=
  match chunks s with
  | [] => ([], Some (fin s), s)
  | c :: rest =>
      let k := Z.to_nat n in
      (take k c, None,
       {| chunks := match drop k c with [] => rest | d => d :: rest end;
          fin := fin s |})
  end.

#[export] Instance stream_Reader : Reader stream := stream_Read.

(** [bytes.Reader]: a byte slice and the read offset. *)
Record bytesReader := { br_s : bytes; br_i : nat }.

Definition bytes_NewReader (b : bytes) : bytesReader := {| br_s := b; br_i := 0 |}.

Definition bytesReader_Read (r : bytesReader) (n : Z) : bytes * option error * bytesReader :=
  if (length (br_s r) <=? br_i r)%nat then ([], Some EOF, r)
  else
    let p := take (Z.to_nat n) (drop (br_i r) (br_s r)) in
    (p, None, {| br_s := br_s r; br_i := (br_i r + length p)%nat |}).

#[export] Instance bytesReader_Reader : Reader bytesReader := bytesReader_Read.

(** [io.LimitedReader]. *)
Record LimitedReader (S : Type) := { lr_R : S; lr_N : Z }.
Arguments lr_R {S} l.
Arguments lr_N {S} l.
Arguments Build_LimitedReader {S} lr_R lr_N.

Definition LimitedReader_Read {S} `{Reader S} (l : LimitedReader S) (n : Z)
  : bytes * option error * LimitedReader S :=
  if lr_N l <=? 0 then ([], Some EOF, l)
  else
    let n' := if lr_N l <? n then lr_N l else n in
    let '(p, err, r') := Read (lr_R l) n' in
    (p, err, {| lr_R := r'; lr_N := lr_N l - Z.of_nat (length p) |}).

#[export] Instance LimitedReader_Reader {S} `{Reader S} : Reader (LimitedReader S) :=
  LimitedReader_Read.

(** [io.TeeReader]: what is read from [tee_r] is written to [tee_w]. *)
Record teeReader (S W : Type) := { tee_r : S; tee_w : W }.
Arguments tee_r {S W} t.
Arguments tee_w {S W} t.
Arguments Build_teeReader {S W} tee_r tee_w.

Definition teeReader_Read {S W} `{Reader S} `{Writer W} (t : teeReader S W) (n : Z)
  : bytes * option error * teeReader S W :=
  let '(p, err, r') := Read (tee_r t) n in
  (p, err,
   {| tee_r := r';
      tee_w := if (0 <? length p)%nat then Write (tee_w t) p else tee_w t |}).

#[export] Instance teeReader_Reader {S W} `{Reader S} `{Writer W} : Reader (teeReader S W) :=
  teeReader_Read.

(** A bound on the [Read] calls it takes to drain a reader; the model's
    loops run on it (every [Read] with a positive size consumes a byte,
    drops an empty chunk, or reports an error). *)
Class Budget (S : Type) := budget : S -> nat.

#[export] Instance stream_Budget : Budget stream := fun s =>
  foldr (fun c n => (Datatypes.S (length c) + n)%nat) 0%nat (chunks s).
#[export] Instance bytesReader_Budget : Budget bytesReader := fun r =>
  (length (br_s r) - br_i r)%nat.
#[export] Instance LimitedReader_Budget {S} `{Budget S} : Budget (LimitedReader S) :=
  fun l => budget (lr_R l).
#[export] Instance teeReader_Budget {S W} `{Budget S} : Budget (teeReader S W) :=
  fun t => budget (tee_r t).

(** [io.Copy]'s loop: read into a 32 KiB buffer, write what was read,
    stop at the first error ([EOF] included).  The shortcuts through
    [WriterTo] and [ReaderFrom] relay the same bytes in the same order. *)
Definition copyBufSize : Z := 32 * 1024.

Fixpoint copyBuffer {W S} `{Writer W} `{Reader S} (fuel : nat) (dst : W) (src : S)
  : outcome (W * S) :=
  match fuel with
  | O => Stuck
  | Datatypes.S fuel' =>
      let '(p, er, src') := Read src copyBufSize in
      let dst' := if (0 <? length p)%nat then Write dst p else dst in
      match er with
      | Some _ => Done (dst', src')
      | None => copyBuffer fuel' dst' src'
      end
  end.

Definition io_Copy {W S} `{Writer W} `{Reader S} `{Budget S} (dst : W) (src : S)
  : outcome (W * S) :=
  copyBuffer (Datatypes.S (budget src)) dst src.

(** [io.ReadAll]'s loop: read until the first error, keep what was read
    (the error itself is dropped by the caller). *)
Definition readAllSize : Z := 512.

Fixpoint readAllLoop {S} `{Reader S} (fuel : nat) (acc : bytes) (src : S)
  : outcome (bytes * S) :=
  match fuel with
  | O => Stuck
  | Datatypes.S fuel' =>
      let '(p, er, src') := Read src readAllSize in
      match er with
      | Some _ => Done (acc ++ p, src')
      | None => readAllLoop fuel' (acc ++ p) src'
      end
  end.

Definition io_ReadAll {S} `{Reader S} `{Budget S} (src : S) : outcome (bytes * S) :=
  readAllLoop (Datatypes.S (budget src)) [] src.

(** ** Slices, backing arrays and the heap *)

(** A slice header: nil, or the backing array with a length and a
    capacity.  Every slice of this program starts at offset 0 of its
    array ([s[:0]], [s[:max]] and [append] only). *)
Inductive slice :=
| nil_slice
| Slice (arr : nat) (n : nat) (c : Z).

Definition len (s : slice) : nat :=
  match s with nil_slice => 0%nat | Slice _ n _ => n end.

Definition cap (s : slice) : Z :=
  match s with nil_slice => 0 | Slice _ _ c => c end.

Definition ptr (s : slice) : option nat :=
  match s with nil_slice => None | Slice a _ _ => Some a end.

(** The heap maps an array to the prefix of it written so far; the bytes
    of an array beyond that prefix are zero. *)
Record heap := { cells : gmap nat bytes; next : nat }.

Definition empty_heap : heap := {| cells := ∅; next := 0 |}.

Definition cell (h : heap) (a : nat) : bytes := default [] (cells h !! a).

(** The first [n] bytes of an array whose written prefix is [c]. *)
Definition array_prefix (n : nat) (c : bytes) : bytes :=
  take n (c ++ replicate (n - length c) x00).

(** The bytes a slice denotes in a heap. *)
Definition slice_bytes (h : heap) (s : slice) : bytes :=
  match s with
  | nil_slice => []
  | Slice a n _ => array_prefix n (cell h a)
  end.

(** [make([]byte, 0, c)]. *)
Definition make (h : heap) (c : Z) : heap * slice :=
  ({| cells := <[next h := []]> (cells h); next := Datatypes.S (next h) |},
   Slice (next h) 0 c).

(** [s[:0]]. *)
Definition reslice0 (s : slice) : slice :=
  match s with nil_slice => nil_slice | Slice a _ c => Slice a 0 c end.

(** [append(s, p...)]: in place when the capacity allows, into a fresh
    and larger array otherwise (the growth factor is the runtime's; only
    that the new capacity suffices matters here). *)
Definition append (h : heap) (s : slice) (p : bytes) : heap * slice :=
  let n := (len s + length p)%nat in
  if Z.of_nat n <=? cap s then
    match s with
    | Slice a k c =>
        ({| cells := <[a := array_prefix k (cell h a) ++ p ++ drop n (cell h a)]> (cells h);
            next := next h |},
         Slice a n c)
    | nil_slice => (h, s)
    end
  else
    ({| cells := <[next h := slice_bytes h s ++ p]> (cells h); next := Datatypes.S (next h) |},
     Slice (next h) n (Z.max (Z.of_nat n) (2 * cap s))).

(** [sliceWriter{&buf}]: the local variable [buf] it points to, and the
    heap its [append] works in. *)
Record sliceWriter := { sw_heap : heap; sw_buf : slice }.

Definition sliceWriter_Write (s : sliceWriter) (p : bytes) : sliceWriter :=
  let '(h, b) := append (sw_heap s) (sw_buf s) p in {| sw_heap := h; sw_buf := b |}.

#[export] Instance sliceWriter_Writer : Writer sliceWriter := sliceWriter_Write.

(** [http.ResponseWriter]: what the caller receives. *)
Record ResponseWriter := {
  rw_header : list (string * string);
  rw_status : option Z;
  rw_body : bytes
}.

Definition new_ResponseWriter : ResponseWriter :=
  {| rw_header := []; rw_status := None; rw_body := [] |}.

Definition Header_Add (w : ResponseWriter) (k v : string) : ResponseWriter :=
  {| rw_header := rw_header w ++ [(k, v)]; rw_status := rw_status w; rw_body := rw_body w |}.

Definition WriteHeader (w : ResponseWriter) (code : Z) : ResponseWriter :=
  {| rw_header := rw_header w;
     rw_status := Some (default code (rw_status w));
     rw_body := rw_body w |}.

Definition ResponseWriter_Write (w : ResponseWriter) (p : bytes) : ResponseWriter :=
  {| rw_header := rw_header w;
     rw_status := Some (default 200 (rw_status w));
     rw_body := rw_body w ++ p |}.

#[export] Instance ResponseWriter_Writer : Writer ResponseWriter := ResponseWriter_Write.

(** ** Process-wide state: heap, pools and the injected logger *)

Inductive level := LvDebug | LvInfo | LvWarning | LvError | LvCritical | LvFatal.

(** [net/url.URL], reduced to the parts the plugin reads: the scheme,
    host and path that [String] reassembles, and the raw query. *)
Record URL := { Scheme : string; Host : string; Path : string; RawQuery : string }.

Definition URL_String (u : URL) : string :=
  (if decide (Scheme u = "") then "" else Scheme u +:+ ":") +:+
  (if decide (Scheme u = "" /\ Host u = "") then "" else "//" +:+ Host u) +:+
  Path u +:+
  (if decide (RawQuery u = "") then "" else "?" +:+ RawQuery u).

(** The arguments of a log call. *)
Inductive logarg :=
| AStr (s : string)
| AInt (z : Z)
| ABool (b : bool)
| AURL (u : URL)
| ADuration (ns : Z).

Definition entry : Type := level * list logarg.

(** [st_heap] holds the backing arrays; [slicePool] and [bufPool] are the
    two [sync.Pool]s (a pooled [bytes.Buffer] is the bytes it still
    holds); [logger] is the package variable, [None] while it is nil and
    otherwise the calls the injected logger has received. *)
Record state := {
  st_heap : heap;
  slicePool : list slice;
  bufPool : list bytes;
  logger : option (list entry)
}.

Definition set_heap (h : heap) (st : state) : state :=
  {| st_heap := h; slicePool := slicePool st; bufPool := bufPool st; logger := logger st |}.
Definition set_slicePool (p : list slice) (st : state) : state :=
  {| st_heap := st_heap st; slicePool := p; bufPool := bufPool st; logger := logger st |}.
Definition set_bufPool (p : list bytes) (st : state) : state :=
  {| st_heap := st_heap st; slicePool := slicePool st; bufPool := p; logger := logger st |}.
Definition set_logger (l : option (list entry)) (st : state) : state :=
  {| st_heap := st_heap st; slicePool := slicePool st; bufPool := bufPool st; logger := l |}.

Definition init_state : state :=
  {| st_heap := empty_heap; slicePool := []; bufPool := []; logger := None |}.

Definition defTimeoutMS : Z := 2000.
Definition defMaxCaptureKB : Z := 256.
Definition tag : string := "[krakend-trace-plugin]".
Definition Millisecond : Z := 1000000.

Record cfg := { url : URL; timeout : Z; maxCapture : Z; verbose : bool }.

(** [sync.Pool]: [Get] hands out a pooled item when there is one (the
    most recently returned, as the per-P cache of the runtime does) and
    calls [New] otherwise; [Put] returns one. *)
Definition slicePool_Get (st : state) : state * slice :=
  match slicePool st with
  | s :: rest => (set_slicePool rest st, s)
  | [] => let '(h, s) := make (st_heap st) (defMaxCaptureKB * 1024) in (set_heap h st, s)
  end.

Definition slicePool_Put (s : slice) (st : state) : state :=
  set_slicePool (s :: slicePool st) st.

Definition bufPool_Get (st : state) : state * bytes :=
  match bufPool st with
  | b :: rest => (set_bufPool rest st, b)
  | [] => (st, [])
  end.

Definition bufPool_Put (b : bytes) (st : state) : state :=
  set_bufPool (b :: bufPool st) st.

(** *** Logger helpers *)

Definition nil_deref : string := "invalid memory address or nil pointer dereference".

(** A method call on the [logger] interface: a nil interface panics. *)
Definition logger_call (lv : level) (v : list logarg) (st : state) : outcome state :=
  match logger st with
  | None => Panic nil_deref
  | Some l => Done (set_logger (Some (l ++ [(lv, v)])) st)
  end.

Definition vdbg (c : cfg) (v : list logarg) (st : state) : outcome state :=
  if verbose c && bool_decide (logger st <> None)
  then logger_call LvDebug (AStr tag :: v) st
  else Done st.

Definition always (v : list logarg) (st : state) : outcome state :=
  if bool_decide (logger st <> None)
  then logger_call LvDebug (AStr tag :: v) st
  else Done st.

(** [RegisterLogger(v)]: [v] is [Some l] when the value the host passes
    implements [Logger]. *)
Definition RegisterLogger (v : option (list entry)) (st : state) : outcome state :=
  match v with
  | Some l => always [AStr "logger injected"] (set_logger (Some l) st)
  | None => Done st
  end.

(** ** The helpers: [captureBody] and [streamAndCapture] *)

(** The dynamic types a request body takes: the body the server handed
    in, and the [io.NopCloser(bytes.NewReader(all))] that replaces it. *)
Inductive ReadCloser :=
| NetBody (s : stream)
| NopCloser (r : bytesReader).

#[export] Instance ReadCloser_Reader : Reader ReadCloser := fun rc n =>
  match rc with
  | NetBody s => let '(p, e, s') := Read s n in (p, e, NetBody s')
  | NopCloser r => let '(p, e, r') := Read r n in (p, e, NopCloser r')
  end.

#[export] Instance ReadCloser_Budget : Budget ReadCloser := fun rc =>
  match rc with
  | NetBody s => budget s
  | NopCloser r => budget r
  end.

Definition out_of_range : string := "slice bounds out of range".

(** [captureBody(rc, max)].  [rc] is the pointer ([None] when nil) and
    what it points to ([Some None] for a nil body).  The result is what
    [*rc] holds afterwards, and the returned capture; [all] is a fresh
    array that nothing writes afterwards, so the capture is given by its
    bytes.  [Close] on the old body changes nothing that is read here. *)
Definition captureBody (rc : option (option ReadCloser)) (max : Z)
  : option (option ReadCloser) * outcome bytes :=
  match rc with
  | None | Some None => (rc, Done [])
  | Some (Some body) =>
      match io_ReadAll body with
      | Done (all, _) =>
          let rc' := Some (Some (NopCloser (bytes_NewReader all))) in
          if Z.of_nat (length all) >? max then
            if max <? 0 then (rc', Panic out_of_range)
            else (rc', Done (take (Z.to_nat max) all))
          else (rc', Done all)
      | Panic msg => (rc, Panic msg)
      | Stuck => (rc, Stuck)
      end
  end.

(** [streamAndCapture(dst, src, max)].  The deferred [slicePool.Put]
    has its argument [buf[:0]] evaluated after the copy and runs once the
    result [buf] is set, so the slice returned and the slice pooled share
    their array. *)
Definition streamAndCapture (st : state) (dst : ResponseWriter) (src : stream) (max : Z)
  : outcome (state * ResponseWriter * slice) :=
  if max <=? 0 then
    '(dst', _) ← io_Copy dst src;
    mret (st, dst', nil_slice)
  else
    let '(st1, got) := slicePool_Get st in
    let buf := reslice0 got in
    let lr := {| lr_R := src; lr_N := max |} in
    let tee := {| tee_r := lr; tee_w := {| sw_heap := st_heap st1; sw_buf := buf |} |} in
    '(dst', tee') ← io_Copy dst tee;
    let buf' := sw_buf (tee_w tee') in
    let st2 := set_heap (sw_heap (tee_w tee')) st1 in
    mret (slicePool_Put (reslice0 buf') st2, dst', buf').

(** ** Payload and delivery *)

Definition Buffer_Reset (b : bytes) : bytes := [].
Definition Buffer_WriteString (b : bytes) (s : string) : bytes := b ++ list_byte_of_string s.
Definition Buffer_Write (b : bytes) (p : bytes) : bytes := b ++ p.
Definition Buffer_String (b : bytes) : string := string_of_list_byte b.

(** The tracking POST as the delivery task issues it. *)
Record PostRequest := {
  post_url : string;
  post_header : list (string * string);
  post_body : string;
  post_deadline : Z
}.

(** The payload-building part of [trackingCoroutine], after the receive:
    [buf.Write(respBody)] reads the slice in the heap as it is then. *)
Definition build_payload (st : state) (urlObj : URL) (reqBody : bytes) (respBody : slice)
  : state * string :=
  let '(st1, buf) := bufPool_Get st in
  let buf := Buffer_Reset buf in
  let buf := Buffer_WriteString buf "{$responseBody}" in
  let buf := Buffer_Write buf (slice_bytes (st_heap st1) respBody) in
  let buf := Buffer_WriteString buf "{/responseBody},{$requestBody}" in
  let buf := Buffer_Write buf reqBody in
  let buf := Buffer_WriteString buf "{/requestBody},{$requestQuery}" in
  let buf := Buffer_WriteString buf (RawQuery urlObj) in
  let buf := Buffer_WriteString buf "{/requestQuery},{$requestUrl}" in
  let buf := Buffer_WriteString buf (URL_String urlObj) in
  let buf := Buffer_WriteString buf "{/requestUrl}" in
  let payload := Buffer_String buf in
  (bufPool_Put buf st1, payload).

(** The same part of [trackCoroutine], the delivery task of the earlier
    copy of the plugin, which writes every closing marker with its comma
    and every opening marker in a call of their own. *)
Definition build_payload_earlier (st : state) (urlObj : URL) (reqBody : bytes)
    (respBody : slice) : state * string :=
  let '(st1, buf) := bufPool_Get st in
  let buf := Buffer_Reset buf in
  let buf := Buffer_WriteString buf "{$responseBody}" in
  let buf := Buffer_Write buf (slice_bytes (st_heap st1) respBody) in
  let buf := Buffer_WriteString buf "{/responseBody}," in
  let buf := Buffer_WriteString buf "{$requestBody}" in
  let buf := Buffer_Write buf reqBody in
  let buf := Buffer_WriteString buf "{/requestBody}," in
  let buf := Buffer_WriteString buf "{$requestQuery}" in
  let buf := Buffer_WriteString buf (RawQuery urlObj) in
  let buf := Buffer_WriteString buf "{/requestQuery}," in
  let buf := Buffer_WriteString buf "{$requestUrl}" in
  let buf := Buffer_WriteString buf (URL_String urlObj) in
  let buf := Buffer_WriteString buf "{/requestUrl}" in
  let payload := Buffer_String buf in
  (bufPool_Put buf st1, payload).

(** [http.NewRequestWithContext(ctx, POST, c.url.String(), payload)]
    with its [Content-Type] set. *)
Definition new_post (c : cfg) (payload : string) : PostRequest :=
  {| post_url := URL_String (url c);
     post_header := [("Content-Type", "text/plain")];
     post_body := payload;
     post_deadline := timeout c |}.

(** ** Configuration and registration *)

(** [float64] values of the configuration block: IEEE-754 binary64. *)
Definition f64_of_Z (z : Z) : spec_float := binary_normalize 53 1024 z 0 false.
Definition f64_mul : spec_float -> spec_float -> spec_float := SFmul 53 1024.
Definition f64_gt (a b : spec_float) : bool := SFltb b a.
Definition f64_le (a b : spec_float) : bool := SFleb a b.
Definition f64_zero : spec_float := S754_zero false.

Definition min_int64 : Z := - 2 ^ 63.
Definition max_int64 : Z := 2 ^ 63 - 1.
Definition wrap64 (z : Z) : Z := (z + 2 ^ 63) mod 2 ^ 64 - 2 ^ 63.

(** The conversions [int(v)] and [time.Duration(v)]: truncation towards
    zero; what a value outside [int64] converts to is left to the
    implementation by the language, and is [min_int64] on amd64. *)
Definition f64_to_int64 (f : spec_float) : Z :=
  match f with
  | S754_zero _ => 0
  | S754_finite s m e =>
      let a := Z.shiftl (Z.pos m) e in
      let v := if s then - a else a in
      if (min_int64 <=? v) && (v <=? max_int64) then v else min_int64
  | _ => min_int64
  end.

(** The values of the plugin's block, and of [extra] itself. *)
Inductive scalar :=
| SString (s : string)
| SFloat (f : spec_float)
| SBool (b : bool)
| SOther.

Inductive value :=
| VBlock (m : gmap string scalar)
| VScalar (v : scalar).

(** What [registerClients] returns: the handler (the closure over [c])
    with a nil error, or a nil handler with the error. *)
Inductive registration :=
| Installed (c : cfg)
| ConfigError (msg : string).

Definition bad_assertion : string := "interface conversion: interface {} has another type".

Definition with_timeout (c : cfg) (t : Z) : cfg :=
  {| url := url c; timeout := t; maxCapture := maxCapture c; verbose := verbose c |}.
Definition with_maxCapture (c : cfg) (m : Z) : cfg :=
  {| url := url c; timeout := timeout c; maxCapture := m; verbose := verbose c |}.
Definition with_verbose (c : cfg) (b : bool) : cfg :=
  {| url := url c; timeout := timeout c; maxCapture := maxCapture c; verbose := b |}.

Section Registration.

(** [url.ParseRequestURI], from the Go library: the URL, or the text of
    the error. *)
Variable ParseRequestURI : string -> URL + string.

Definition default_cfg (target : URL) : cfg :=
  {| url := target;
     timeout := defTimeoutMS * Millisecond;
     maxCapture := defMaxCaptureKB * 1024;
     verbose := false |}.

(** The three optional keys, each read with a checked assertion. *)
Definition apply_options (block : gmap string scalar) (c : cfg) : cfg :=
  let c :=
    match block !! "timeout_ms" with
    | Some (SFloat v) =>
        if f64_gt v f64_zero then with_timeout c (wrap64 (f64_to_int64 v * Millisecond)) else c
    | _ => c
    end in
  let c :=
    match block !! "max_capture_kb" with
    | Some (SFloat v) =>
        if f64_gt v f64_zero
        then with_maxCapture c (f64_to_int64 (f64_mul v (f64_of_Z 1024)))
        else c
    | _ => c
    end in
  match block !! "verbose" with
  | Some (SBool v) => with_verbose c v
  | _ => c
  end.

Definition registerClients (r : string) (extra : gmap string value) (st : state)
  : outcome (state * registration) :=
  match extra !! r with
  | Some (VBlock block) =>
      match block !! "tracking_url" with
      | Some (SString raw) =>
          match ParseRequestURI raw with
          | inr err => Done (st, ConfigError (tag +:+ " invalid tracking_url: " +:+ err))
          | inl target =>
              let c := apply_options block (default_cfg target) in
              st' ← logger_call LvInfo
                      [AStr tag; AStr "config →"; AURL (url c);
                       AStr "timeout:"; ADuration (timeout c);
                       AStr "max_cap:"; AInt (maxCapture c);
                       AStr "verbose:"; ABool (verbose c)] st;
              mret (st', Installed c)
          end
      | _ => Panic bad_assertion
      end
  | _ => Panic bad_assertion
  end.

End Registration.

(** The symbol the host looks up, and [RegisterClients]: the host's
    [register] is called once, with the plugin's name and the factory
    [registerClients]. *)
Definition ClientRegisterer : string := "krakend-trace-plugin".

Definition RegisterClients {A : Type} (ParseRequestURI : string -> URL + string) (r : string)
    (register : string -> (gmap string value -> state -> outcome (state * registration)) -> A)
  : A :=
  register r (registerClients ParseRequestURI r).

(** ** The handler and its delivery task *)

Record Request := { req_URL : URL; req_Body : option ReadCloser }.

Record Response := {
  StatusCode : Z;
  resp_Header : list (string * list string);
  resp_Body : stream
}.

(** What surrounds one request: the upstream's answer to the forwarded
    request, the tracking endpoint's answer to the POST (an error text or
    none), and the time the handler measures. *)
Record env := {
  upstream : Request -> Response + string;
  deliver : PostRequest -> option string;
  elapsed : Z
}.

Definition StatusBadGateway : Z := 502.

Definition Header_Set (h : list (string * string)) (k v : string) : list (string * string) :=
  filter (fun kv => kv.1 <> k) h ++ [(k, v)].

Definition newline : string := String (Ascii.ascii_of_nat 10) EmptyString.

(** [http.Error]: plain-text headers, the status, then the message
    printed with [fmt.Fprintln]. *)
Definition http_Error (w : ResponseWriter) (msg : string) (code : Z) : ResponseWriter :=
  let h := filter (fun kv => kv.1 <> "Content-Length") (rw_header w) in
  let h := Header_Set h "Content-Type" "text/plain; charset=utf-8" in
  let h := Header_Set h "X-Content-Type-Options" "nosniff" in
  let w := {| rw_header := h; rw_status := rw_status w; rw_body := rw_body w |} in
  Write (WriteHeader w code) (list_byte_of_string (msg +:+ newline)).

Definition copy_headers (w : ResponseWriter) (h : list (string * list string)) : ResponseWriter :=
  foldl (fun w kvs => foldl (fun w v => Header_Add w kvs.1 v) w kvs.2) w h.

(** [respCh := make(chan []byte, 1)]. *)
Record chan := { ch_buf : list slice; ch_closed : bool }.

Definition make_chan : chan := {| ch_buf := []; ch_closed := false |}.

Inductive event :=
| EvSpawn
| EvSend (v : slice)
| EvClose
| EvRecv (v : slice)
| EvBuild (payload : string)
| EvPost (p : PostRequest)
| EvOther.

(** Where the handler stands; [HFailed] is the return after [http.Error],
    [HReturned] the return at the end of the body. *)
Inductive handler_pc :=
| HInit
| HSpawned (reqBody : bytes)
| HStreamed (status : Z) (respBody : slice)
| HSent (status : Z)
| HClosed (status : Z)
| HReturned
| HFailed
| HPanicked (msg : string).

(** Where the delivery task stands. *)
Inductive co_pc :=
| CoNone
| CoWaiting (reqBody : bytes)
| CoReceived (reqBody : bytes) (respBody : slice)
| CoBuilt (payload : string)
| CoPosted (payload : string) (err : option string)
| CoReturned.

Record system := {
  sys_st : state;
  sys_w : ResponseWriter;
  sys_req : Request;
  sys_hpc : handler_pc;
  sys_co : co_pc;
  sys_ch : chan;
  sys_posts : list PostRequest;
  sys_trace : list event
}.

Definition init_system (st : state) (w : ResponseWriter) (req : Request) : system :=
  {| sys_st := st; sys_w := w; sys_req := req; sys_hpc := HInit; sys_co := CoNone;
     sys_ch := make_chan; sys_posts := []; sys_trace := [] |}.

Definition upd_handler (s : system) (st : state) (w : ResponseWriter) (pc : handler_pc)
  : system :=
  {| sys_st := st; sys_w := w; sys_req := sys_req s; sys_hpc := pc; sys_co := sys_co s;
     sys_ch := sys_ch s; sys_posts := sys_posts s; sys_trace := sys_trace s |}.

Definition upd_chan (s : system) (ch : chan) (pc : handler_pc) (ev : event) : system :=
  {| sys_st := sys_st s; sys_w := sys_w s; sys_req := sys_req s; sys_hpc := pc;
     sys_co := sys_co s; sys_ch := ch; sys_posts := sys_posts s;
     sys_trace := sys_trace s ++ [ev] |}.

Definition upd_co (s : system) (st : state) (pc : co_pc) (evs : list event) : system :=
  {| sys_st := st; sys_w := sys_w s; sys_req := sys_req s; sys_hpc := sys_hpc s;
     sys_co := pc; sys_ch := sys_ch s; sys_posts := sys_posts s;
     sys_trace := sys_trace s ++ evs |}.

Definition panicked (s : system) (msg : string) : system :=
  upd_handler s (sys_st s) (sys_w s) (HPanicked msg).

(** One step of the handler closure returned by [registerClients]; [None]
    once it has returned or panicked. *)
Definition handler_step (c : cfg) (e : env) (s : system) : option system :=
  match sys_hpc s with
  | HInit =>
      let '(rc, r) := captureBody (Some (req_Body (sys_req s))) (maxCapture c) in
      let req := {| req_URL := req_URL (sys_req s); req_Body := default None rc |} in
      match r ≫= (fun reqBody =>
              st ← vdbg c [AStr "reqB:"; AInt (Z.of_nat (length reqBody))] (sys_st s);
              mret (reqBody, st)) with
      | Done (reqBody, st) =>
          Some {| sys_st := st; sys_w := sys_w s; sys_req := req;
                  sys_hpc := HSpawned reqBody; sys_co := CoWaiting reqBody;
                  sys_ch := make_chan; sys_posts := sys_posts s;
                  sys_trace := sys_trace s ++ [EvSpawn] |}
      | Panic msg =>
          Some {| sys_st := sys_st s; sys_w := sys_w s; sys_req := req;
                  sys_hpc := HPanicked msg; sys_co := sys_co s;
                  sys_ch := sys_ch s; sys_posts := sys_posts s;
                  sys_trace := sys_trace s |}
      | Stuck => None
      end
  | HSpawned _ =>
      match upstream e (sys_req s) with
      | inr err =>
          Some (upd_handler s (sys_st s) (http_Error (sys_w s) err StatusBadGateway) HFailed)
      | inl resp =>
          let w := WriteHeader (copy_headers (sys_w s) (resp_Header resp)) (StatusCode resp) in
          match streamAndCapture (sys_st s) w (resp_Body resp) (maxCapture c) with
          | Done (st, w', respBody) =>
              Some (upd_handler s st w' (HStreamed (StatusCode resp) respBody))
          | Panic msg => Some (panicked s msg)
          | Stuck => None
          end
      end
  | HStreamed status respBody =>
      if ch_closed (sys_ch s) then Some (panicked s "send on closed channel")
      else if (1 <=? length (ch_buf (sys_ch s)))%nat then None
      else Some (upd_chan s {| ch_buf := ch_buf (sys_ch s) ++ [respBody]; ch_closed := false |}
                   (HSent status) (EvSend respBody))
  | HSent status =>
      if ch_closed (sys_ch s) then Some (panicked s "close of closed channel")
      else Some (upd_chan s {| ch_buf := ch_buf (sys_ch s); ch_closed := true |}
                   (HClosed status) EvClose)
  | HClosed status =>
      match always [AStr tag; AStr (Path (req_URL (sys_req s))); AStr "status:"; AInt status;
                    AStr "elapsed:"; ADuration (elapsed e)] (sys_st s) with
      | Done st => Some (upd_handler s st (sys_w s) HReturned)
      | Panic msg => Some (panicked s msg)
      | Stuck => None
      end
  | HReturned | HFailed | HPanicked _ => None
  end.

(** One step of [trackingCoroutine]; [None] while it is blocked on the
    receive, and once it has returned. *)
Definition co_step (c : cfg) (e : env) (s : system) : option system :=
  match sys_co s with
  | CoNone | CoReturned => None
  | CoWaiting reqBody =>
      match ch_buf (sys_ch s) with
      | v :: rest =>
          Some {| sys_st := sys_st s; sys_w := sys_w s; sys_req := sys_req s;
                  sys_hpc := sys_hpc s; sys_co := CoReceived reqBody v;
                  sys_ch := {| ch_buf := rest; ch_closed := ch_closed (sys_ch s) |};
                  sys_posts := sys_posts s; sys_trace := sys_trace s ++ [EvRecv v] |}
      | [] =>
          if ch_closed (sys_ch s)
          then Some (upd_co s (sys_st s) (CoReceived reqBody nil_slice) [EvRecv nil_slice])
          else None
      end
  | CoReceived reqBody respBody =>
      let '(st, payload) := build_payload (sys_st s) (req_URL (sys_req s)) reqBody respBody in
      Some (upd_co s st (CoBuilt payload) [EvBuild payload])
  | CoBuilt payload =>
      let p := new_post c payload in
      Some {| sys_st := sys_st s; sys_w := sys_w s; sys_req := sys_req s;
              sys_hpc := sys_hpc s; sys_co := CoPosted payload (deliver e p);
              sys_ch := sys_ch s; sys_posts := sys_posts s ++ [p];
              sys_trace := sys_trace s ++ [EvPost p] |}
  | CoPosted payload err =>
      let v := match err with
               | Some msg => [AStr "POST failed:"; AStr msg]
               | None => [AStr "POST ok ("; AInt (Z.of_nat (String.length payload)); AStr "B)"]
               end in
      match vdbg c v (sys_st s) with
      | Done st => Some (upd_co s st CoReturned [])
      | _ => None
      end
  end.

(** Another request served by the same handler meanwhile: its
    [streamAndCapture] works on the same pools and heap. *)
Definition other_request (s : system) (st : state) : system :=
  upd_co s st (sys_co s) [EvOther].

Inductive step (c : cfg) (e : env) : system -> system -> Prop :=
| step_handler s s' : handler_step c e s = Some s' -> step c e s s'
| step_co s s' : co_step c e s = Some s' -> step c e s s'
| step_other s w src st w' b :
    streamAndCapture (sys_st s) w src (maxCapture c) = Done (st, w', b) ->
    step c e s (other_request s st).

(** The schedule that lets the handler run whenever it can. *)
Fixpoint run (c : cfg) (e : env) (fuel : nat) (s : system) : system :=
  match fuel with
  | O => s
  | Datatypes.S fuel' =>
      match handler_step c e s with
      | Some s' => run c e fuel' s'
      | None =>
          match co_step c e s with
          | Some s' => run c e fuel' s'
          | None => s
          end
      end
  end.

(** One request served alone, to the end of both tasks (ten steps). *)
Definition serve (c : cfg) (e : env) (st : state) (req : Request) : system :=
  run c e 10 (init_system st new_ResponseWriter req).

(** Schedules: who moves next, the handler, the delivery task, or another
    request relaying the given stream to its own caller. *)
Inductive move :=
| MHandler
| MCo
| MOther (w : ResponseWriter) (src : stream).

Fixpoint exec (c : cfg) (e : env) (ms : list move) (s : system) : option system :=
  match ms with
  | [] => Some s
  | MHandler :: ms' => handler_step c e s ≫= exec c e ms'
  | MCo :: ms' => co_step c e s ≫= exec c e ms'
  | MOther w src :: ms' =>
      match streamAndCapture (sys_st s) w src (maxCapture c) with
      | Done (st, _, _) => exec c e ms' (other_request s st)
      | _ => None
      end
  end.

(** ** What the readers hold, and the words of the specification *)

Definition stream_content (s : stream) : bytes := concat (chunks s).

Definition bytesReader_content (r : bytesReader) : bytes := drop (br_i r) (br_s r).

Definition ReadCloser_content (rc : ReadCloser) : bytes :=
  match rc with
  | NetBody s => stream_content s
  | NopCloser r => bytesReader_content r
  end.

Definition limited_content {S} (content : S -> bytes) (l : LimitedReader S) : bytes :=
  take (Z.to_nat (lr_N l)) (content (lr_R l)).

Definition tee_content {S W} (content : S -> bytes) (t : teeReader S W) : bytes :=
  content (tee_r t).

Definition sliceWriter_written (s : sliceWriter) : bytes :=
  slice_bytes (sw_heap s) (sw_buf s).

(** The first [min(length, max)] bytes of a body. *)
Definition clip (max : Z) (b : bytes) : bytes :=
  take (Z.to_nat (Z.min (Z.of_nat (length b)) max)) b.

(** A tagged segment: the content between an opening and a closing
    marker that carry the field's name. *)
Definition segment (name content : string) : string :=
  "{$" +:+ name +:+ "}" +:+ content +:+ "{/" +:+ name +:+ "}".

(** The four segments in their order, a comma between neighbours. *)
Definition payload_of (respBody reqBody : bytes) (rawQuery fullURL : string) : string :=
  segment "responseBody" (string_of_list_byte respBody) +:+ "," +:+
  segment "requestBody" (string_of_list_byte reqBody) +:+ "," +:+
  segment "requestQuery" rawQuery +:+ "," +:+
  segment "requestUrl" fullURL.

(** The events of the handoff and of what follows it, in trace order. *)
Definition is_handoff (ev : event) : bool :=
  match ev with
  | EvSend _ | EvRecv _ | EvBuild _ | EvPost _ => true
  | EvSpawn | EvClose | EvOther => false
  end.

Definition handoff_events (tr : list event) : list event := filter is_handoff tr.

(** What a forwarder reads from a request body; a nil body is no body. *)
Definition Body_content (b : option ReadCloser) : bytes :=
  match b with
  | Some body => ReadCloser_content body
  | None => []
  end.

(** The body a request carries after [captureBody], and the capture
    taken from it. *)
Definition forwarded_body (b : option ReadCloser) : option ReadCloser :=
  match b with
  | Some body => Some (NopCloser (bytes_NewReader (ReadCloser_content body)))
  | None => None
  end.

Definition body_capture (max : Z) (b : option ReadCloser) : bytes :=
  match b with
  | Some body => clip max (ReadCloser_content body)
  | None => []
  end.

(** The request as the upstream call sees it, and the two captures of a
    request served alone. *)
Definition forwarded (req : Request) : Request :=
  {| req_URL := req_URL req; req_Body := forwarded_body (req_Body req) |}.

Definition request_capture (c : cfg) (req : Request) : bytes :=
  body_capture (maxCapture c) (req_Body req).

Definition response_capture (c : cfg) (e : env) (req : Request) : bytes :=
  match upstream e (forwarded req) with
  | inl resp => clip (maxCapture c) (stream_content (resp_Body resp))
  | inr _ => []
  end.

(** A run in which no other request touched the pools. *)
Definition alone (tr : list event) : Prop := EvOther ∉ tr.

(** The payload of a request whose captured response bytes are [x]. *)
Definition payload_for (c : cfg) (req : Request) (x : bytes) : string :=
  payload_of x (request_capture c req) (RawQuery (req_URL req)) (URL_String (req_URL req)).

(** What the caller has received of the upstream body once the relay is
    over. *)
Definition relayed (c : cfg) (resp : Response) : bytes :=
  if 0 <? maxCapture c
  then clip (maxCapture c) (stream_content (resp_Body resp))
  else stream_content (resp_Body resp).

(** A stand-in for [url.ParseRequestURI] in evaluated examples: absolute
    paths and [scheme://host/path?query] are accepted and split, and
    anything else is refused with the library's message. *)
Fixpoint cut (c : Ascii.ascii) (s : string) : option (string * string) :=
  match s with
  | EmptyString => None
  | String x r =>
      if Ascii.eqb x c then Some (EmptyString, r)
      else match cut c r with
           | Some (a, b) => Some (String x a, b)
           | None => None
           end
  end.

Definition split_query (s : string) : string * string :=
  default (s, "") (cut "?"%char s).

Definition ParseRequestURI_lite (raw : string) : URL + string :=
  match raw with
  | String "/"%char _ =>
      let '(p, q) := split_query raw in
      inl {| Scheme := ""; Host := ""; Path := p; RawQuery := q |}
  | _ =>
      match cut ":"%char raw with
      | Some (String x sch, String "/"%char (String "/"%char rest)) =>
          let '(hp, q) := split_query rest in
          let '(h, p) := match cut "/"%char hp with
                         | Some (h, p) => (h, String "/"%char p)
                         | None => (hp, "")
                         end in
          inl {| Scheme := String x sch; Host := h; Path := p; RawQuery := q |}
      | _ => inr "invalid URI for request"
      end
  end.

(** ** Data of the evaluated examples *)

Definition plugin : string := "krakend-trace-plugin".

Definition tracking : URL :=
  {| Scheme := "http"; Host := "tracking.svc"; Path := "/api/tracking"; RawQuery := "" |}.

(** A registration with default limits, a request [POST /foo?x=1] with
    the body [ping], an upstream answering 200 with [pong] in two chunks,
    and a tracking endpoint that accepts the POST. *)
Definition demo_cfg : cfg :=
  {| url := tracking; timeout := defTimeoutMS * Millisecond;
     maxCapture := defMaxCaptureKB * 1024; verbose := false |}.

Definition demo_req : Request :=
  {| req_URL := {| Scheme := ""; Host := ""; Path := "/foo"; RawQuery := "x=1" |};
     req_Body := Some (NetBody {| chunks := [list_byte_of_string "ping"]; fin := EOF |}) |}.

Definition pong : Response :=
  {| StatusCode := 200; resp_Header := [("Content-Type", ["text/plain"])];
     resp_Body := {| chunks := [list_byte_of_string "po"; list_byte_of_string "ng"];
                     fin := EOF |} |}.

Definition demo_env : env :=
  {| upstream := fun _ => inl pong; deliver := fun _ => None; elapsed := 0 |}.

(** The same with an upstream call that fails. *)
Definition failing_env : env :=
  {| upstream := fun _ => inr "boom"; deliver := fun _ => None; elapsed := 0 |}.

(** A state in which the host has injected its logger. *)
Definition logged_state : state := set_logger (Some []) init_state.

(** A reader is lawful for [content] when every [Read] with a positive
    size returns a prefix of what is left, no longer than asked for, and
    makes progress towards the end. *)
Record ReaderLaws {S : Type} `{Reader S} `{Budget S} (content : S -> bytes) : Prop := {
  read_len : forall s n p e s',
    0 < n -> Read s n = (p, e, s') -> (length p <= Z.to_nat n)%nat;
  read_more : forall s n p s',
    0 < n -> Read s n = (p, None, s') ->
    content s = p ++ content s' /\ (budget s' < budget s)%nat;
  read_end : forall s n p e s',
    0 < n -> Read s n = (p, Some e, s') -> content s = p /\ content s' = []
}.

(** What [Write] leaves alone in a [ResponseWriter]: the headers, and a
    status once it is set. *)
Definition same_head (w w' : ResponseWriter) : Prop :=
  rw_header w' = rw_header w /\
  (forall k, rw_status w = Some k -> rw_status w' = Some k) /\
  (rw_status w = None -> rw_status w' = None \/ rw_status w' = Some 200).

(** ** The invariant of one request *)

Section Invariant.
Variables (c : cfg) (e : env) (w0 : ResponseWriter) (req0 : Request).

(** Before the send: the channel is as made, nothing of the handoff has
    happened, nothing was posted. *)
Definition pre_send (s : system) : Prop :=
  sys_ch s = make_chan /\ handoff_events (sys_trace s) = [] /\ sys_posts s = [].

(** After the send of [v]: where the delivery task stands determines the
    channel, the handoff events so far, and the posts. *)
Definition co_inv (s : system) (v : slice) : Prop :=
  let hand := handoff_events (sys_trace s) in
  let accurate x := alone (sys_trace s) -> x = response_capture c e req0 in
  match sys_co s with
  | CoNone => False
  | CoWaiting b =>
      b = request_capture c req0 /\ ch_buf (sys_ch s) = [v] /\
      hand = [EvSend v] /\ sys_posts s = [] /\
      accurate (slice_bytes (st_heap (sys_st s)) v)
  | CoReceived b v' =>
      v' = v /\ b = request_capture c req0 /\ ch_buf (sys_ch s) = [] /\
      hand = [EvSend v; EvRecv v] /\ sys_posts s = [] /\
      accurate (slice_bytes (st_heap (sys_st s)) v)
  | CoBuilt p =>
      ch_buf (sys_ch s) = [] /\ sys_posts s = [] /\
      exists x, p = payload_for c req0 x /\
        hand = [EvSend v; EvRecv v; EvBuild p] /\ accurate x
  | CoPosted p _ =>
      ch_buf (sys_ch s) = [] /\ sys_posts s = [new_post c p] /\
      exists x, p = payload_for c req0 x /\
        hand = [EvSend v; EvRecv v; EvBuild p; EvPost (new_post c p)] /\ accurate x
  | CoReturned =>
      ch_buf (sys_ch s) = [] /\
      exists p x, sys_posts s = [new_post c p] /\ p = payload_for c req0 x /\
        hand = [EvSend v; EvRecv v; EvBuild p; EvPost (new_post c p)] /\ accurate x
  end.

(** The response once the relay is over: the upstream answered, and the
    caller's body grew by what was relayed. *)
Definition relay_done (s : system) : Prop :=
  exists resp, upstream e (forwarded req0) = inl resp /\
    rw_body (sys_w s) = rw_body w0 ++ relayed c resp.

Definition inv (s : system) : Prop :=
  req_URL (sys_req s) = req_URL req0 /\
  match sys_hpc s with
  | HInit => sys_req s = req0 /\ sys_w s = w0 /\ sys_co s = CoNone /\ pre_send s
  | HPanicked msg => msg = out_of_range /\ sys_w s = w0 /\ sys_co s = CoNone /\ pre_send s
  | HSpawned b =>
      sys_req s = forwarded req0 /\ sys_w s = w0 /\
      sys_co s = CoWaiting (request_capture c req0) /\ pre_send s
  | HFailed =>
      (exists err, upstream e (forwarded req0) = inr err /\
                   sys_w s = http_Error w0 err StatusBadGateway) /\
      sys_co s = CoWaiting (request_capture c req0) /\ pre_send s
  | HStreamed _ v =>
      relay_done s /\
      sys_co s = CoWaiting (request_capture c req0) /\ pre_send s /\
      (alone (sys_trace s) ->
       slice_bytes (st_heap (sys_st s)) v = response_capture c e req0)
  | HSent _ => relay_done s /\ ch_closed (sys_ch s) = false /\ exists v, co_inv s v
  | HClosed _ | HReturned =>
      relay_done s /\ ch_closed (sys_ch s) = true /\ exists v, co_inv s v
  end.

(** The handoff seen from outside: the handoff events so far are an
    initial part of send, receive, build, post, for one slice [v] and the
    payload over some response bytes [x]; a post is made only as the
    fourth of them; and [x] is the capture of the response when the
    request ran alone. *)
Definition handoff_shape (s : system) : Prop :=
  exists v x,
    handoff_events (sys_trace s) `prefix_of`
      [EvSend v; EvRecv v; EvBuild (payload_for c req0 x);
       EvPost (new_post c (payload_for c req0 x))] /\
    sys_posts s `prefix_of` [new_post c (payload_for c req0 x)] /\
    (length (handoff_events (sys_trace s)) <= 3 -> sys_posts s = [])%nat /\
    (alone (sys_trace s) -> x = response_capture c e req0).

End Invariant.

(** Sources and configurations of the evaluated examples. *)
Definition abcdef : stream :=
  {| chunks := [list_byte_of_string "abc"; list_byte_of_string "def"]; fin := EOF |}.

Definition abcdef_1 : stream := {| chunks := [list_byte_of_string "abcdef"]; fin := EOF |}.

Definition four_A : Response :=
  {| StatusCode := 200; resp_Header := [];
     resp_Body := {| chunks := [list_byte_of_string "AAAA"]; fin := EOF |} |}.

Definition env_A : env :=
  {| upstream := fun _ => inl four_A; deliver := fun _ => None; elapsed := 0 |}.

Definition two_B : stream := {| chunks := [list_byte_of_string "BB"]; fin := EOF |}.

Definition two_XY : stream := {| chunks := [list_byte_of_string "XY"]; fin := EOF |}.

Definition minimal_extra : gmap string value :=
  {[ plugin := VBlock {[ "tracking_url" := SString "http://tracking.svc/api/tracking" ]} ]}.

Definition zero_kb_extra : gmap string value :=
  {[ plugin := VBlock {[ "tracking_url" := SString "http://tracking.svc/api/tracking";
                         "max_capture_kb" := SFloat f64_zero ]} ]}.

(** ** Words for the properties of the pools and of the request path *)

(** A buffer as [slicePool] holds it: an array, cut to length 0, of at
    least the capacity [New] allocates. *)
Definition pooled_ok (s : slice) : Prop :=
  exists a c, s = Slice a 0 c /\ defMaxCaptureKB * 1024 <= c.

Definition pool_ok (st : state) : Prop := Forall pooled_ok (slicePool st).


(** How one step of a request changes the process-wide state: not at
    all, by a log call, by a relay, or by building a payload. *)
Inductive st_move (c : cfg) : state -> state -> Prop :=
| mv_log st l : st_move c st (set_logger l st)
| mv_stream st w src st' w' b :
    streamAndCapture st w src (maxCapture c) = Done (st', w', b) -> st_move c st st'
| mv_build st u b v : st_move c st (build_payload st u b v).1.

(** The header lines [w.Header().Add] receives from the two nested loops
    over [resp.Header]: each value with its key, in the order of the
    loops. *)
Definition flat_headers (h : list (string * list string)) : list (string * string) :=
  h ≫= (fun kvs => (fun v => (kvs.1, v)) <$> kvs.2).

(** What the caller holds once an upstream answer has been relayed. *)
Definition upstream_reply (c : cfg) (w0 : ResponseWriter) (resp : Response) : ResponseWriter :=
  {| rw_header := rw_header w0 ++ flat_headers (resp_Header resp);
     rw_status := Some (default (StatusCode resp) (rw_status w0));
     rw_body := rw_body w0 ++ relayed c resp |}.

(** The two lines of the handler: the size of the request capture (when
    verbose), and the completion line, whose arguments start with the tag
    and get it once more from [always]. *)
Definition reqB_line (c : cfg) (req : Request) : entry :=
  (LvDebug, [AStr tag; AStr "reqB:"; AInt (Z.of_nat (length (request_capture c req)))]).

Definition completion_line (e : env) (req : Request) (status : Z) : entry :=
  (LvDebug, [AStr tag; AStr tag; AStr (Path (req_URL req)); AStr "status:"; AInt status;
             AStr "elapsed:"; ADuration (elapsed e)]).

(** The line [trackingCoroutine] writes (when verbose) once the POST has
    come back. *)
Definition post_line (e : env) (p : PostRequest) : entry :=
  (LvDebug,
   AStr tag ::
   match deliver e p with
   | Some msg => [AStr "POST failed:"; AStr msg]
   | None => [AStr "POST ok ("; AInt (Z.of_nat (String.length (post_body p))); AStr "B)"]
   end).

(** The handler is past [captureBody] and has not panicked. *)
Definition started (pc : handler_pc) : bool :=
  match pc with HInit | HPanicked _ => false | _ => true end.

(** The lines the handler has written where it stands, and the line of
    the delivery task once it has returned. *)
Definition handler_lines (c : cfg) (e : env) (req0 : Request) (pc : handler_pc) : list entry :=
  (if verbose c && started pc then [reqB_line c req0] else []) ++
  match pc with
  | HReturned =>
      match upstream e (forwarded req0) with
      | inl resp => [completion_line e req0 (StatusCode resp)]
      | inr _ => []
      end
  | _ => []
  end.

Definition delivery_lines (c : cfg) (e : env) (s : system) : list entry :=
  if verbose c then
    match sys_co s with
    | CoReturned => post_line e <$> sys_posts s
    | _ => []
    end
  else [].

(** The steps as they occur in the executions of a request [req0]: each
    with the state it leads to written out, the branches no execution
    takes left out. *)
Inductive transition (c : cfg) (e : env) (req0 : Request) : system -> system -> Prop :=
| t_capture s st1 :
    sys_hpc s = HInit ->
    vdbg c [AStr "reqB:"; AInt (Z.of_nat (length (request_capture c req0)))] (sys_st s)
      = Done st1 ->
    transition c e req0 s
      {| sys_st := st1; sys_w := sys_w s; sys_req := forwarded req0;
         sys_hpc := HSpawned (request_capture c req0);
         sys_co := CoWaiting (request_capture c req0);
         sys_ch := make_chan; sys_posts := sys_posts s;
         sys_trace := sys_trace s ++ [EvSpawn] |}
| t_capture_panic s :
    sys_hpc s = HInit -> maxCapture c < 0 -> req_Body req0 <> None ->
    transition c e req0 s
      {| sys_st := sys_st s; sys_w := sys_w s; sys_req := forwarded req0;
         sys_hpc := HPanicked out_of_range; sys_co := sys_co s;
         sys_ch := sys_ch s; sys_posts := sys_posts s; sys_trace := sys_trace s |}
| t_upstream_failed s b err :
    sys_hpc s = HSpawned b -> upstream e (forwarded req0) = inr err ->
    transition c e req0 s
      (upd_handler s (sys_st s) (http_Error (sys_w s) err StatusBadGateway) HFailed)
| t_relay s b resp st1 w1 buf :
    sys_hpc s = HSpawned b -> upstream e (forwarded req0) = inl resp ->
    streamAndCapture (sys_st s)
      (WriteHeader (copy_headers (sys_w s) (resp_Header resp)) (StatusCode resp))
      (resp_Body resp) (maxCapture c) = Done (st1, w1, buf) ->
    transition c e req0 s (upd_handler s st1 w1 (HStreamed (StatusCode resp) buf))
| t_send s k v :
    sys_hpc s = HStreamed k v -> sys_ch s = make_chan ->
    transition c e req0 s
      (upd_chan s {| ch_buf := [v]; ch_closed := false |} (HSent k) (EvSend v))
| t_close s k :
    sys_hpc s = HSent k -> ch_closed (sys_ch s) = false ->
    transition c e req0 s
      (upd_chan s {| ch_buf := ch_buf (sys_ch s); ch_closed := true |} (HClosed k) EvClose)
| t_return s k st1 :
    sys_hpc s = HClosed k ->
    always [AStr tag; AStr (Path (req_URL req0)); AStr "status:"; AInt k;
            AStr "elapsed:"; ADuration (elapsed e)] (sys_st s) = Done st1 ->
    transition c e req0 s (upd_handler s st1 (sys_w s) HReturned)
| t_receive s b v :
    sys_co s = CoWaiting b -> ch_buf (sys_ch s) = [v] ->
    transition c e req0 s
      {| sys_st := sys_st s; sys_w := sys_w s; sys_req := sys_req s;
         sys_hpc := sys_hpc s; sys_co := CoReceived b v;
         sys_ch := {| ch_buf := []; ch_closed := ch_closed (sys_ch s) |};
         sys_posts := sys_posts s; sys_trace := sys_trace s ++ [EvRecv v] |}
| t_build s b v :
    sys_co s = CoReceived b v ->
    transition c e req0 s
      (upd_co s (build_payload (sys_st s) (req_URL req0) b v).1
         (CoBuilt (build_payload (sys_st s) (req_URL req0) b v).2)
         [EvBuild (build_payload (sys_st s) (req_URL req0) b v).2])
| t_post s p :
    sys_co s = CoBuilt p ->
    transition c e req0 s
      {| sys_st := sys_st s; sys_w := sys_w s; sys_req := sys_req s;
         sys_hpc := sys_hpc s; sys_co := CoPosted p (deliver e (new_post c p));
         sys_ch := sys_ch s; sys_posts := sys_posts s ++ [new_post c p];
         sys_trace := sys_trace s ++ [EvPost (new_post c p)] |}
| t_posted s p err st1 :
    sys_co s = CoPosted p err ->
    vdbg c match err with
           | Some msg => [AStr "POST failed:"; AStr msg]
           | None => [AStr "POST ok ("; AInt (Z.of_nat (String.length p)); AStr "B)"]
           end (sys_st s) = Done st1 ->
    transition c e req0 s (upd_co s st1 CoReturned [])
| t_other s w src st1 w1 b :
    streamAndCapture (sys_st s) w src (maxCapture c) = Done (st1, w1, b) ->
    transition c e req0 s (other_request s st1).

(** ** What every execution of a request keeps, beyond the handoff *)

Section PathInvariant.
Variables (c : cfg) (e : env) (st0 : state) (w0 : ResponseWriter) (req0 : Request).

(** What the caller holds, by where the handler stands. *)
Definition reply_shape (s : system) : Prop :=
  match sys_hpc s with
  | HInit | HSpawned _ | HPanicked _ => sys_w s = w0
  | HFailed =>
      exists err, upstream e (forwarded req0) = inr err /\
        sys_w s = http_Error w0 err StatusBadGateway
  | HStreamed k _ | HSent k | HClosed k =>
      exists resp, upstream e (forwarded req0) = inl resp /\ k = StatusCode resp /\
        sys_w s = upstream_reply c w0 resp
  | HReturned =>
      exists resp, upstream e (forwarded req0) = inl resp /\
        sys_w s = upstream_reply c w0 resp
  end.

(** Why the handler can have panicked. *)
Definition panic_cause (s : system) : Prop :=
  forall msg, sys_hpc s = HPanicked msg -> maxCapture c < 0 /\ req_Body req0 <> None.

(** The error the delivery task holds is the tracking endpoint's answer
    to its POST. *)
Definition post_result (s : system) : Prop :=
  forall p err, sys_co s = CoPosted p err -> err = deliver e (new_post c p).

(** The log of a request that started with the entries [l]: the lines of
    the handler in their order, the line of the delivery task somewhere
    among them. *)
Definition log_shape (s : system) : Prop :=
  forall l, logger st0 = Some l ->
    exists before after,
      logger (sys_st s) = Some (l ++ before ++ delivery_lines c e s ++ after) /\
      before ++ after = handler_lines c e req0 (sys_hpc s).

Definition path_inv (s : system) : Prop :=
  reply_shape s /\ panic_cause s /\ post_result s /\ log_shape s.

(** With capture off ([maxCapture <= 0]): every slice in flight is nil,
    every payload has empty body segments, and the pool and the heap are
    those of the start. *)
Definition uncaptured : string :=
  payload_of [] [] (RawQuery (req_URL req0)) (URL_String (req_URL req0)).

Definition capture_off (s : system) : Prop :=
  (forall k v, sys_hpc s = HStreamed k v -> v = nil_slice) /\
  (forall v, v ∈ ch_buf (sys_ch s) -> v = nil_slice) /\
  (forall b v, sys_co s = CoReceived b v -> b = [] /\ v = nil_slice) /\
  (forall b, sys_co s = CoWaiting b -> b = []) /\
  (forall p, sys_co s = CoBuilt p -> p = uncaptured) /\
  (forall q, EvBuild q ∈ sys_trace s -> q = uncaptured) /\
  (forall p, p ∈ sys_posts s -> p = new_post c uncaptured) /\
  slicePool (sys_st s) = slicePool st0 /\ st_heap (sys_st s) = st_heap st0.

(** What interference by other requests cannot change: the length of
    every slice in flight is the length [n] of the response capture, and
    every payload is the request's payload over some [n] response bytes. *)
Definition sized_payload (n : nat) (p : string) : Prop :=
  exists x, p = payload_for c req0 x /\ length x = n.

Definition lengths_kept (s : system) : Prop :=
  let n := length (response_capture c e req0) in
  (forall k v, sys_hpc s = HStreamed k v -> len v = n) /\
  (forall v, v ∈ ch_buf (sys_ch s) -> len v = n) /\
  (forall b, sys_co s = CoWaiting b -> b = request_capture c req0) /\
  (forall b v, sys_co s = CoReceived b v -> b = request_capture c req0 /\ len v = n) /\
  (forall p, sys_co s = CoBuilt p -> sized_payload n p) /\
  (forall q, EvBuild q ∈ sys_trace s -> sized_payload n q) /\
  (forall p, p ∈ sys_posts s -> sized_payload n (post_body p)).

End PathInvariant.

(** An entry written through [vdbg] or [always]. *)
Definition tagged_debug (en : entry) : Prop :=
  en.1 = LvDebug /\ head en.2 = Some (AStr tag).

(** The marker that ends the response segment and opens the request
    segment. *)
Definition response_request_marker : bytes :=
  list_byte_of_string "{/responseBody},{$requestBody}".

(** An upstream body that holds the marker, as a capturing relay leaves
    it in the state and in the slice it returns. *)
Definition marker_body : stream :=
  {| chunks := [response_request_marker; list_byte_of_string "B"]; fin := EOF |}.

Definition marker_capture : state * slice :=
  match streamAndCapture init_state new_ResponseWriter marker_body 64 with
  | Done (st, _, buf) => (st, buf)
  | _ => (init_state, nil_slice)
  end.

(** ** The test plugin ([plugin/main.go]) *)

Module TestPlugin.

Definition ClientRegisterer : string := "test-plugin".

(** A request as the test plugin touches it: its header, nil or a map
    from names to values, and the rest of it. *)
Record Request := {
  Header : option (gmap string (list string));
  rest : URL * option ReadCloser
}.

Definition nil_map : string := "assignment to entry in nil map".

(** [h.Set(key, value)]: the values of [key] are replaced by the one
    value (the key [X-Test-Plugin] is in canonical form already). *)
Definition Header_Set (h : option (gmap string (list string))) (key value : string)
  : outcome (option (gmap string (list string))) :=
  match h with
  | Some m => Done (Some (<[key := [value]]> m))
  | None => Panic nil_map
  end.

(** The handler [client] returns.  [RoundTrip] is the transport: what it
    answers (a response or an error) is dropped, and [w] is never used.
    The result is the response writer, and the transport's answer for
    the record of what was dropped. *)
Definition handler {R : Type} (RoundTrip : Request -> R) (w : ResponseWriter) (req : Request)
  : outcome (ResponseWriter * R) :=
  h ← Header_Set (Header req) "X-Test-Plugin" "true";
  let req := {| Header := h; rest := rest req |} in
  let dropped := RoundTrip req in
  mret (w, dropped).

(** [client]: the configuration is not looked at, the handler is
    returned with a nil error. *)
Definition client {R : Type} (RoundTrip : Request -> R) (extra : gmap string value)
  : (ResponseWriter -> Request -> outcome (ResponseWriter * R)) + string :=
  inl (handler RoundTrip).

Definition RegisterClients {A R : Type} (RoundTrip : Request -> R) (r : string)
    (register : string ->
                (gmap string value ->
                 (ResponseWriter -> Request -> outcome (ResponseWriter * R)) + string) -> A)
  : A :=
  register r (client RoundTrip).

End TestPlugin.

(** * Properties *)

(** ** Readers that deliver a fixed content *)

Lemma stream_laws : ReaderLaws stream_content.
Proof.
  split; unfold Read, stream_Reader, stream_Read, stream_content, budget, stream_Budget.
  - intros [cs f] n p e s' Hn; simpl. destruct cs as [|c rest]; intros [= <- <- <-]; simpl.
    + lia.
    + rewrite length_take. lia.
  - intros [cs f] n p s' Hn; simpl. destruct cs as [|c rest]; [discriminate|].
    intros [= <- <-]; simpl.
    assert (Hk : (0 < Z.to_nat n)%nat) by lia.
    pose proof (take_drop (Z.to_nat n) c) as Htd.
    pose proof (length_drop c (Z.to_nat n)) as Hld.
    destruct (drop (Z.to_nat n) c) as [|d ds] eqn:Hd; simpl.
    + rewrite app_nil_r in Htd. rewrite Htd. split; [done | lia].
    + rewrite <- Htd at 1. rewrite <- app_assoc. split; [done|].
      simpl in Hld. lia.
  - intros [cs f] n p e s' Hn; simpl. destruct cs as [|c rest]; [|discriminate].
    intros [= <- <- <-]; simpl. done.
Qed.

Lemma bytesReader_laws : ReaderLaws bytesReader_content.
Proof.
  split; unfold Read, bytesReader_Reader, bytesReader_Read, bytesReader_content,
    budget, bytesReader_Budget.
  - intros [b i] n p e s' Hn; simpl. case_match; intros [= <- <- <-]; simpl.
    + lia.
    + rewrite length_take. lia.
  - intros [b i] n p s' Hn; simpl. case_match eqn:Hle; [discriminate|].
    intros [= <- <-]; simpl. apply Nat.leb_gt in Hle.
    rewrite length_take, length_drop. split.
    + rewrite <- (drop_drop b _ i).
      rewrite <- (take_drop (Z.to_nat n) (drop i b)) at 1. f_equal.
      destruct (Nat.min_spec (Z.to_nat n) (length b - i)) as [[? ->]|[? ->]]; [done|].
      rewrite !drop_ge; [done | | ]; rewrite ?length_drop; lia.
    + lia.
  - intros [b i] n p e s' Hn; simpl. case_match eqn:Hle; [|discriminate].
    intros [= <- <- <-]; simpl. apply Nat.leb_le in Hle.
    rewrite drop_ge by lia. done.
Qed.

Lemma ReadCloser_laws : ReaderLaws ReadCloser_content.
Proof.
  pose proof stream_laws as [L1 M1 E1]. pose proof bytesReader_laws as [L2 M2 E2].
  split; intros [s|r] n p; intros; unfold Read, ReadCloser_Reader in *;
    match goal with
    | H : context [Read ?x ?k] |- _ => destruct (Read x k) as [[p0 e0] s0] eqn:HR
    end; simplify_eq; simpl; eauto.
Qed.

Section Wrappers.
Context {S : Type} `{Reader S} `{Budget S} (content : S -> bytes).
Hypothesis laws : ReaderLaws content.

Lemma limited_laws : ReaderLaws (limited_content content).
Proof.
  destruct laws as [L M E].
  split; unfold Read, LimitedReader_Reader, LimitedReader_Read, limited_content,
    budget, LimitedReader_Budget.
  - intros [r N] n p e s' Hn; simpl.
    destruct (Z.leb_spec N 0); [intros [= <- <- <-]; simpl; lia|].
    destruct (Read r _) as [[p0 e0] r0] eqn:HR. intros [= <- <- <-].
    destruct (Z.ltb_spec N n); apply L in HR; lia.
  - intros [r N] n p s' Hn; simpl. destruct (Z.leb_spec N 0); [discriminate|].
    destruct (Read r _) as [[p0 e0] r0] eqn:HR. intros [= <- -> <-]; simpl.
    assert (Hlen : (length p0 <= Z.to_nat N)%nat)
      by (destruct (Z.ltb_spec N n); apply L in HR; lia).
    apply M in HR as [-> Hb]; [|destruct (Z.ltb_spec N n); lia].
    split; [|done].
    rewrite take_app, (take_ge p0) by done. do 2 f_equal. lia.
  - intros [r N] n p e s' Hn; simpl. destruct (Z.leb_spec N 0).
    { intros [= <- <- <-]; simpl. replace (Z.to_nat N) with 0%nat by lia. done. }
    destruct (Read r _) as [[p0 e0] r0] eqn:HR. intros [= <- -> <-]; simpl.
    assert (Hlen : (length p0 <= Z.to_nat N)%nat)
      by (destruct (Z.ltb_spec N n); apply L in HR; lia).
    apply E in HR as [-> ->]; [|destruct (Z.ltb_spec N n); lia].
    rewrite take_ge by done. by rewrite take_nil.
Qed.

Context {W : Type} `{Writer W}.

Lemma tee_laws : ReaderLaws (tee_content (W:=W) content).
Proof.
  destruct laws as [L M E].
  split; unfold Read, teeReader_Reader, teeReader_Read, tee_content, budget, teeReader_Budget;
    intros [r w] n p; intros; simpl in *;
    destruct (Read r n) as [[p0 e0] r0] eqn:HR; simplify_eq; simpl; eauto.
Qed.

(** What the tee has written so far, followed by what is still to be
    read, stays the same across a [Read]. *)
Lemma tee_Read_written (written : W -> bytes) (t t' : teeReader S W) n p e :
  (forall w q, written (Write w q) = written w ++ q) ->
  0 < n -> Read t n = (p, e, t') ->
  written (tee_w t') ++ content (tee_r t') = written (tee_w t) ++ content (tee_r t).
Proof.
  destruct laws as [L M E]. intros Hw Hn.
  unfold Read at 1, teeReader_Reader, teeReader_Read. destruct t as [r w]; simpl.
  destruct (Read r n) as [[p0 e0] r0] eqn:HR. intros [= <- <- <-]; simpl.
  assert (Hc : content r = p0 ++ content r0).
  { destruct e0; [apply E in HR as [-> ->]; [by rewrite app_nil_r|done]
                 |apply M in HR as [-> _]; done]. }
  rewrite Hc. destruct p0; simpl; [done|]. rewrite Hw. by rewrite <- app_assoc.
Qed.

End Wrappers.

(** ** The loops of [io.Copy] and [io.ReadAll] *)

Section Loops.
Context {S : Type} `{Reader S} `{Budget S} (content : S -> bytes).
Hypothesis laws : ReaderLaws content.

Lemma copyBufSize_pos : 0 < copyBufSize.
Proof. done. Qed.

Lemma readAllSize_pos : 0 < readAllSize.
Proof. done. Qed.

(** With a budget above the reader's, the copy loop returns: the writer
    has received the reader's whole content, the reader is drained, and
    whatever every [Write] (every [Read]) preserves holds of the writer
    (the reader) at the end. *)
Lemma copyBuffer_spec {W : Type} `{Writer W} (written : W -> bytes)
    (P : W -> Prop) (Q : S -> Prop) :
  (forall w q, written (Write w q) = written w ++ q) ->
  (forall w q, P w -> P (Write w q)) ->
  (forall s n p e s', 0 < n -> Read s n = (p, e, s') -> Q s -> Q s') ->
  forall fuel dst src,
    (budget src < fuel)%nat -> P dst -> Q src ->
    exists dst' src',
      copyBuffer fuel dst src = Done (dst', src') /\
      written dst' = written dst ++ content src /\
      content src' = [] /\ P dst' /\ Q src'.
Proof.
  destruct laws as [L M E]. intros Hw HP HQ.
  induction fuel as [|fuel IH]; intros dst src Hb Hp Hq; [lia|].
  simpl. destruct (Read src copyBufSize) as [[p e] src'] eqn:HR.
  set (dst1 := if (0 <? length p)%nat then Write dst p else dst).
  assert (Hwr : written dst1 = written dst ++ p).
  { subst dst1. destruct p; simpl; [by rewrite app_nil_r | apply Hw]. }
  assert (Hp1 : P dst1) by (subst dst1; destruct (0 <? length p)%nat; auto).
  pose proof (HQ _ _ _ _ _ copyBufSize_pos HR Hq) as Hq'.
  destruct e as [e|].
  - apply E in HR as [-> Hc]; [|done]. eauto 10.
  - apply M in HR as [-> Hlt]; [|done].
    destruct (IH dst1 src') as (dst' & src'' & -> & Hd & Hc & Hp' & Hq''); [lia|done|done|].
    exists dst', src''. rewrite Hd, Hwr, <- app_assoc. done.
Qed.

Lemma io_Copy_spec {W : Type} `{Writer W} (written : W -> bytes)
    (P : W -> Prop) (Q : S -> Prop) dst src :
  (forall w q, written (Write w q) = written w ++ q) ->
  (forall w q, P w -> P (Write w q)) ->
  (forall s n p e s', 0 < n -> Read s n = (p, e, s') -> Q s -> Q s') ->
  P dst -> Q src ->
  exists dst' src',
    io_Copy dst src = Done (dst', src') /\
    written dst' = written dst ++ content src /\
    content src' = [] /\ P dst' /\ Q src'.
Proof. intros Hw HP HQ Hp Hq. apply copyBuffer_spec; [done|done|done|lia|done|done]. Qed.

Lemma readAllLoop_spec fuel acc src :
  (budget src < fuel)%nat ->
  exists src', readAllLoop fuel acc src = Done (acc ++ content src, src') /\ content src' = [].
Proof.
  destruct laws as [L M E]. revert acc src.
  induction fuel as [|fuel IH]; intros acc src Hb; [lia|].
  simpl. destruct (Read src readAllSize) as [[p e] src'] eqn:HR. destruct e as [e|].
  - apply E in HR as [-> Hc]; [|done]. eauto.
  - apply M in HR as [-> Hlt]; [|done].
    destruct (IH (acc ++ p) src') as (src'' & -> & Hc); [lia|].
    exists src''. by rewrite <- app_assoc.
Qed.

Lemma io_ReadAll_spec src :
  exists src', io_ReadAll src = Done (content src, src') /\ content src' = [].
Proof. apply (readAllLoop_spec _ []). lia. Qed.

End Loops.

(** ** Slices in the heap *)

Lemma length_array_prefix n c : length (array_prefix n c) = n.
Proof. unfold array_prefix. rewrite length_take, length_app, length_replicate. lia. Qed.

Lemma array_prefix_0 c : array_prefix 0 c = [].
Proof. done. Qed.

Lemma array_prefix_app n a b : length a = n -> array_prefix n (a ++ b) = a.
Proof.
  intros <-. unfold array_prefix. rewrite <- app_assoc. apply take_app_length.
Qed.

Lemma cell_insert h a v nx :
  cell {| cells := <[a := v]> (cells h); next := nx |} a = v.
Proof. unfold cell; simpl. by rewrite lookup_insert_eq. Qed.

(** [append] extends what the slice denotes by the bytes appended. *)
Lemma append_bytes h s p :
  slice_bytes (append h s p).1 (append h s p).2 = slice_bytes h s ++ p.
Proof.
  unfold append. destruct (Z.of_nat (len s + length p) <=? cap s) eqn:Hfit.
  - destruct s as [|a k c]; simpl in *.
    + apply Z.leb_le in Hfit. destruct p; simpl in *; [done | lia].
    + rewrite cell_insert. rewrite app_assoc. apply array_prefix_app.
      rewrite length_app, length_array_prefix. done.
  - simpl. rewrite cell_insert.
    rewrite <- (app_nil_r (slice_bytes h s ++ p)) at 1. apply array_prefix_app.
    rewrite length_app. destruct s; simpl; [done|]. by rewrite length_array_prefix.
Qed.

Lemma sliceWriter_Write_written w q :
  sliceWriter_written (Write w q) = sliceWriter_written w ++ q.
Proof.
  unfold Write, sliceWriter_Writer, sliceWriter_Write, sliceWriter_written.
  pose proof (append_bytes (sw_heap w) (sw_buf w) q) as Ha.
  destruct (append (sw_heap w) (sw_buf w) q) as [h b]. exact Ha.
Qed.

Lemma ResponseWriter_Write_body (w : ResponseWriter) q :
  rw_body (Write w q) = rw_body w ++ q.
Proof. done. Qed.

Lemma slice_bytes_reslice0 h s : slice_bytes h (reslice0 s) = [].
Proof. by destruct s. Qed.

Lemma ptr_reslice0 s : ptr (reslice0 s) = ptr s.
Proof. by destruct s. Qed.

(** ** [streamAndCapture] and [captureBody] in closed form *)

Lemma same_head_refl w : same_head w w.
Proof. unfold same_head. auto. Qed.

Lemma same_head_Write w w' q : same_head w w' -> same_head w (Write w' q).
Proof.
  unfold same_head, Write, ResponseWriter_Writer, ResponseWriter_Write; simpl.
  intros (Hh & Hs & Hn). split; [done|]. split.
  - intros k Hk. by rewrite (Hs k Hk).
  - intros Hk. destruct (Hn Hk) as [-> | ->]; auto.
Qed.

(** With [max <= 0] the relay is a plain copy and nothing is captured. *)
Lemma streamAndCapture_passthrough st dst src max :
  max <= 0 ->
  exists dst',
    streamAndCapture st dst src max = Done (st, dst', nil_slice) /\
    rw_body dst' = rw_body dst ++ stream_content src /\
    same_head dst dst'.
Proof.
  intros Hmax. unfold streamAndCapture.
  destruct (Z.leb_spec max 0) as [_|?]; [|lia].
  destruct (io_Copy_spec stream_content stream_laws rw_body (same_head dst)
              (fun _ => True) dst src) as (dst' & src' & -> & Hb & _ & Hp & _);
    auto using same_head_refl, same_head_Write.
  exists dst'. done.
Qed.

(** With [max > 0] both the destination and the capture receive the
    first [max] bytes of the source, and the returned slice is the pooled
    one with its length. *)
Lemma streamAndCapture_capture st dst src max :
  0 < max ->
  exists st' dst' buf,
    streamAndCapture st dst src max = Done (st', dst', buf) /\
    rw_body dst' = rw_body dst ++ take (Z.to_nat max) (stream_content src) /\
    slice_bytes (st_heap st') buf = take (Z.to_nat max) (stream_content src) /\
    slicePool st' = reslice0 buf :: tail (slicePool st) /\
    bufPool st' = bufPool st /\ logger st' = logger st /\
    same_head dst dst'.
Proof.
  intros Hmax. unfold streamAndCapture.
  destruct (Z.leb_spec max 0) as [?|_]; [lia|].
  destruct (slicePool_Get st) as [st1 got] eqn:Hget.
  set (lr := {| lr_R := src; lr_N := max |}).
  set (tee := {| tee_r := lr; tee_w := {| sw_heap := st_heap st1; sw_buf := reslice0 got |} |}).
  pose proof (limited_laws _ stream_laws) as Hl.
  pose proof (tee_laws (W:=sliceWriter) _ Hl) as Ht.
  destruct (io_Copy_spec _ Ht rw_body (same_head dst)
              (fun t : teeReader (LimitedReader stream) sliceWriter =>
                 sliceWriter_written (tee_w t) ++ limited_content stream_content (tee_r t)
                 = take (Z.to_nat max) (stream_content src)) dst tee)
    as (dst' & tee' & -> & Hb & Hc & Hp & Hq).
  - done.
  - auto using same_head_Write.
  - intros s n p e s' Hn HR <-.
    apply (tee_Read_written _ Hl sliceWriter_written s s' n p e);
      auto using sliceWriter_Write_written.
  - apply same_head_refl.
  - subst tee lr; simpl. unfold sliceWriter_written; simpl.
    by rewrite slice_bytes_reslice0.
  - unfold tee_content in Hc. rewrite Hc, app_nil_r in Hq.
    exists (slicePool_Put (reslice0 (sw_buf (tee_w tee')))
              (set_heap (sw_heap (tee_w tee')) st1)), dst', (sw_buf (tee_w tee')).
    split; [done|]. split; [exact Hb|]. split; [exact Hq|].
    unfold slicePool_Get in Hget. destruct (slicePool st) as [|s0 rest] eqn:Hpool.
    + destruct (make (st_heap st) (defMaxCaptureKB * 1024)) as [h0 s0].
      injection Hget as <- <-. simpl. rewrite Hpool. done.
    + injection Hget as <- <-. simpl. done.
Qed.

(** [captureBody] on a body that is there. *)
Lemma captureBody_some body max :
  0 <= max ->
  captureBody (Some (Some body)) max =
    (Some (Some (NopCloser (bytes_NewReader (ReadCloser_content body)))),
     Done (take (Z.to_nat max) (ReadCloser_content body))).
Proof.
  intros Hmax. unfold captureBody.
  destruct (io_ReadAll_spec _ ReadCloser_laws body) as (body' & -> & _).
  destruct (Z.gtb_spec (Z.of_nat (length (ReadCloser_content body))) max).
  - destruct (Z.ltb_spec max 0); [lia|done].
  - rewrite take_ge by lia. done.
Qed.

Lemma clip_take max b : 0 <= max -> clip max b = take (Z.to_nat max) b.
Proof.
  intros Hmax. unfold clip. destruct (Z.min_spec (Z.of_nat (length b)) max) as [[? ->]|[? ->]].
  - rewrite Nat2Z.id. rewrite !take_ge by lia. done.
  - done.
Qed.

Lemma clip_length max b : length (clip max b) = Nat.min (length b) (Z.to_nat max).
Proof. unfold clip. rewrite length_take. lia. Qed.

Lemma clip_short max b : Z.of_nat (length b) <= max -> clip max b = b.
Proof. intros Hle. unfold clip. apply take_ge. lia. Qed.

(** ** Capture (C5) *)

(** C5: for every body and every capture limit [max > 0], the capture
    returned by [captureBody] (request side) and the bytes of the slice
    returned by [streamAndCapture] (response side) are the first
    [min(length, max)] bytes of the body; both calls return normally, so
    truncation raises no error; a body no longer than [max] is captured
    whole and unchanged. *)
Theorem capture_is_clipped_prefix (max : Z) (Hmax : 0 < max) :
  (forall body : ReadCloser,
     (captureBody (Some (Some body)) max).2 = Done (clip max (ReadCloser_content body))) /\
  (forall st dst src, exists st' dst' buf,
     streamAndCapture st dst src max = Done (st', dst', buf) /\
     slice_bytes (st_heap st') buf = clip max (stream_content src)) /\
  (forall b : bytes,
     length (clip max b) = Nat.min (length b) (Z.to_nat max) /\
     clip max b `prefix_of` b /\
     (Z.of_nat (length b) <= max -> clip max b = b)).
Proof.
  split; [|split].
  - intros body. rewrite captureBody_some by lia. simpl. by rewrite clip_take by lia.
  - intros st dst src.
    destruct (streamAndCapture_capture st dst src max Hmax)
      as (st' & dst' & buf & Hrun & _ & Hbytes & _).
    exists st', dst', buf. rewrite clip_take by lia. done.
  - intros b. split; [apply clip_length|]. split; [|apply clip_short].
    unfold clip. apply prefix_take.
Qed.

Lemma capture_is_clipped_prefix_witness :
  (captureBody (Some (Some (NetBody abcdef))) 4).2 = Done (list_byte_of_string "abcd") /\
  exists st' dst' buf,
    streamAndCapture init_state new_ResponseWriter abcdef 4 = Done (st', dst', buf) /\
    slice_bytes (st_heap st') buf = list_byte_of_string "abcd".
Proof.
  assert (H4 : 0 < 4) by lia.
  destruct (capture_is_clipped_prefix 4 H4) as (Hreq & Hresp & _).
  split.
  - exact (Hreq (NetBody abcdef)).
  - exact (Hresp init_state new_ResponseWriter abcdef).
Defined.

(** ** The replaced request body (C4) *)

(** C4: [captureBody] reads the body to its end and stores in its place
    a fresh reader over all the bytes read, whatever the capture limit,
    so what the forwarder reads from the new body is the entire original
    content and not the captured prefix; a nil pointer or a nil body
    gives an empty capture and no error, and the body stays absent, from
    which a forwarder reads nothing. *)
Theorem captureBody_replaces_stream (body : ReadCloser) (max : Z) :
  let all := ReadCloser_content body in
  let fresh := NopCloser (bytes_NewReader all) in
  (exists body', io_ReadAll body = Done (all, body') /\ ReadCloser_content body' = []) /\
  (captureBody (Some (Some body)) max).1 = Some (Some fresh) /\
  Body_content (Some fresh) = Body_content (Some body) /\
  (exists fresh', io_ReadAll fresh = Done (all, fresh')) /\
  captureBody None max = (None, Done []) /\
  captureBody (Some None) max = (Some None, Done []) /\
  Body_content None = [].
Proof.
  intros all fresh.
  destruct (io_ReadAll_spec _ ReadCloser_laws body) as (body' & Hall & Hend).
  split; [eauto|]. split.
  - unfold captureBody. rewrite Hall. fold all.
    destruct (Z.of_nat (length all) >? max); [destruct (max <? 0)|]; done.
  - split; [done|]. split; [|done].
    destruct (io_ReadAll_spec _ ReadCloser_laws fresh) as (fresh' & Hf & _). eauto.
Qed.

(** ** The payload (C6) *)

Lemma string_append_assoc (a b c : string) : (a +:+ b) +:+ c = a +:+ b +:+ c.
Proof.
  induction a as [|x a IH]; [done|].
  change (String x ((a +:+ b) +:+ c) = String x (a +:+ b +:+ c)). by rewrite IH.
Qed.

Lemma string_of_list_byte_app (a b : bytes) :
  string_of_list_byte (a ++ b) = string_of_list_byte a +:+ string_of_list_byte b.
Proof.
  unfold string_of_list_byte. induction a as [|x a IH]; [done|].
  change (String (ascii_of_byte x) (string_of_list_ascii (map ascii_of_byte (a ++ b))) =
          String (ascii_of_byte x)
            (string_of_list_ascii (map ascii_of_byte a) +:+
             string_of_list_ascii (map ascii_of_byte b))).
  by rewrite IH.
Qed.

Lemma Buffer_String_WriteString b s :
  Buffer_String (Buffer_WriteString b s) = Buffer_String b +:+ s.
Proof.
  unfold Buffer_String, Buffer_WriteString.
  by rewrite string_of_list_byte_app, string_of_list_byte_of_string.
Qed.

Lemma Buffer_String_Write b p :
  Buffer_String (Buffer_Write b p) = Buffer_String b +:+ string_of_list_byte p.
Proof. apply string_of_list_byte_app. Qed.

Lemma st_heap_bufPool_Get st : st_heap (bufPool_Get st).1 = st_heap st.
Proof. unfold bufPool_Get. by destruct (bufPool st). Qed.

(** The payload in closed form, whatever the pooled buffer held. *)
Lemma build_payload_format st u reqBody respBody :
  (build_payload st u reqBody respBody).2 =
    payload_of (slice_bytes (st_heap st) respBody) reqBody (RawQuery u) (URL_String u).
Proof.
  unfold build_payload. pose proof (st_heap_bufPool_Get st) as Hh.
  destruct (bufPool_Get st) as [st1 buf]. cbn [fst] in Hh. cbv zeta. cbn [snd]. rewrite Hh.
  repeat first [rewrite Buffer_String_WriteString | rewrite Buffer_String_Write].
  unfold payload_of, segment, Buffer_Reset, Buffer_String.
  rewrite !string_append_assoc. reflexivity.
Qed.

(** C6: for every captured request body, captured response body, raw
    query and full URL, the payload is the four tagged segments in the
    order response body, request body, raw query, full URL, each between
    markers that carry the field's name, a comma between neighbours, the
    captured bytes inserted as they are; the POST that carries it
    declares the content type [text/plain]. *)
Theorem payload_is_four_tagged_segments
    (st : state) (c : cfg) (u : URL) (reqBody : bytes) (respBody : slice) :
  let payload := (build_payload st u reqBody respBody).2 in
  let resp := string_of_list_byte (slice_bytes (st_heap st) respBody) in
  let req := string_of_list_byte reqBody in
  payload =
    "{$responseBody}" +:+ resp +:+ "{/responseBody}" +:+ "," +:+
    "{$requestBody}" +:+ req +:+ "{/requestBody}" +:+ "," +:+
    "{$requestQuery}" +:+ RawQuery u +:+ "{/requestQuery}" +:+ "," +:+
    "{$requestUrl}" +:+ URL_String u +:+ "{/requestUrl}" /\
  payload = payload_of (slice_bytes (st_heap st) respBody) reqBody (RawQuery u) (URL_String u) /\
  post_body (new_post c payload) = payload /\
  post_header (new_post c payload) = [("Content-Type", "text/plain")].
Proof.
  intros payload resp req. subst payload.
  rewrite build_payload_format. split; [|done].
  unfold payload_of, segment. fold resp req.
  rewrite !string_append_assoc. reflexivity.
Qed.

(** ** The relayed response (C1) *)

(** C1 fails on the code: with [max = 3] and the six-byte source
    [abcdef], the destination receives [abc] only.  [io.Copy] reads from
    the tee, the tee reads from the [LimitedReader], and that one reports
    [EOF] after [max] bytes; the capture itself has three bytes. *)
Theorem streamAndCapture_truncates_destination :
  exists st' dst' buf,
    streamAndCapture init_state new_ResponseWriter abcdef_1 3 = Done (st', dst', buf) /\
    rw_body dst' = list_byte_of_string "abc" /\
    rw_body dst' <> stream_content abcdef_1 /\
    slice_bytes (st_heap st') buf = list_byte_of_string "abc".
Proof.
  destruct (streamAndCapture_capture init_state new_ResponseWriter abcdef_1 3)
    as (st' & dst' & buf & Hrun & Hdst & Hbuf & _); [lia|].
  exists st', dst', buf. rewrite Hdst, Hbuf. done.
Qed.

(** Whatever the source and the state, the destination of a capturing
    relay receives the first [max] bytes and nothing after them. *)
Lemma streamAndCapture_destination st dst src max :
  0 < max ->
  exists st' dst' buf,
    streamAndCapture st dst src max = Done (st', dst', buf) /\
    rw_body dst' = rw_body dst ++ clip max (stream_content src).
Proof.
  intros Hmax.
  destruct (streamAndCapture_capture st dst src max Hmax)
    as (st' & dst' & buf & Hrun & Hdst & _).
  exists st', dst', buf. rewrite clip_take by lia. done.
Qed.

(** ** Logging never faults on the request path *)

Lemma set_logger_same st : set_logger (logger st) st = st.
Proof. by destruct st. Qed.

Lemma vdbg_Done c v st : exists l, vdbg c v st = Done (set_logger l st).
Proof.
  unfold vdbg, logger_call. destruct (verbose c); simpl.
  - destruct (logger st) as [l|] eqn:Hl; simpl; [eauto|].
    exists None. rewrite <- Hl. by rewrite set_logger_same.
  - exists (logger st). by rewrite set_logger_same.
Qed.

Lemma always_Done v st : exists l, always v st = Done (set_logger l st).
Proof.
  unfold always, logger_call. destruct (logger st) as [l|] eqn:Hl; simpl; [eauto|].
  exists None. rewrite <- Hl. by rewrite set_logger_same.
Qed.

Lemma vdbg_nil c v st : logger st = None -> vdbg c v st = Done st.
Proof. intros Hl. unfold vdbg. rewrite Hl. simpl. by rewrite andb_false_r. Qed.

Lemma always_nil v st : logger st = None -> always v st = Done st.
Proof. intros Hl. unfold always. by rewrite Hl. Qed.

(** ** The helpers return on every input *)

Lemma streamAndCapture_total st dst src max :
  exists st' dst' buf,
    streamAndCapture st dst src max = Done (st', dst', buf) /\
    slice_bytes (st_heap st') buf = clip max (stream_content src) /\
    logger st' = logger st /\ bufPool st' = bufPool st.
Proof.
  destruct (Z.lt_ge_cases 0 max) as [Hmax|Hmax].
  - destruct (streamAndCapture_capture st dst src max Hmax)
      as (st' & dst' & buf & Hrun & _ & Hbuf & _ & Hbp & Hl & _).
    exists st', dst', buf. rewrite clip_take by lia. done.
  - destruct (streamAndCapture_passthrough st dst src max Hmax) as (dst' & Hrun & _).
    exists st, dst', nil_slice. repeat split; [done|].
    unfold clip. replace (Z.to_nat _) with 0%nat by lia. done.
Qed.

(** [captureBody] on the handler's argument [&req.Body]: the body is
    replaced, and the capture is returned unless [max] is negative. *)
Lemma captureBody_req (b : option ReadCloser) max :
  captureBody (Some b) max = (Some (forwarded_body b), Done (body_capture max b)) \/
  captureBody (Some b) max = (Some (forwarded_body b), Panic out_of_range) /\ max < 0.
Proof.
  destruct b as [body|]; [|by left]. unfold captureBody.
  destruct (io_ReadAll_spec _ ReadCloser_laws body) as (body' & -> & _). simpl.
  destruct (Z.gtb_spec (Z.of_nat (length (ReadCloser_content body))) max).
  - destruct (Z.ltb_spec max 0); [by right|]. left. by rewrite clip_take.
  - left. by rewrite clip_short.
Qed.

Lemma handoff_events_snoc tr ev :
  handoff_events (tr ++ [ev]) = handoff_events tr ++ (if is_handoff ev then [ev] else []).
Proof.
  unfold handoff_events. rewrite filter_app. f_equal.
  destruct ev; done.
Qed.

(** ** One request: what every interleaving preserves *)

#[local] Arguments captureBody : simpl never.
#[local] Arguments streamAndCapture : simpl never.
#[local] Arguments vdbg : simpl never.
#[local] Arguments always : simpl never.
#[local] Arguments build_payload : simpl never.
#[local] Arguments http_Error : simpl never.
#[local] Arguments new_post : simpl never.
#[local] Arguments copy_headers : simpl never.
#[local] Arguments WriteHeader : simpl never.

Section OneRequest.
Variables (c : cfg) (e : env) (w0 : ResponseWriter) (req0 : Request).

Lemma inv_init st : inv c e w0 req0 (init_system st w0 req0).
Proof. unfold inv, pre_send; simpl. done. Qed.

Lemma alone_snoc tr ev : alone (tr ++ [ev]) -> alone tr.
Proof. unfold alone. set_solver. Qed.

Lemma rw_body_WriteHeader w k : rw_body (WriteHeader w k) = rw_body w.
Proof. done. Qed.

Lemma rw_body_Header_Add w k v : rw_body (Header_Add w k v) = rw_body w.
Proof. done. Qed.

Lemma rw_body_copy_headers w h : rw_body (copy_headers w h) = rw_body w.
Proof.
  unfold copy_headers. revert w. induction h as [|[k vs] h IH]; intros w; simpl; [done|].
  rewrite IH. clear IH. revert w. induction vs as [|v vs IH]; intros w; simpl; [done|].
  by rewrite IH.
Qed.

Lemma streamAndCapture_relay st dst src max :
  exists st' dst' buf,
    streamAndCapture st dst src max = Done (st', dst', buf) /\
    slice_bytes (st_heap st') buf = clip max (stream_content src) /\
    rw_body dst' =
      rw_body dst ++ (if 0 <? max then clip max (stream_content src) else stream_content src) /\
    logger st' = logger st.
Proof.
  destruct (Z.ltb_spec 0 max) as [Hmax|Hmax].
  - destruct (streamAndCapture_capture st dst src max Hmax)
      as (st' & dst' & buf & Hrun & Hd & Hbuf & _ & _ & Hl & _).
    exists st', dst', buf. rewrite clip_take by lia. done.
  - destruct (streamAndCapture_passthrough st dst src max Hmax) as (dst' & Hrun & Hd & _).
    exists st, dst', nil_slice. repeat split; [done| |done].
    unfold clip. replace (Z.to_nat _) with 0%nat by lia. done.
Qed.

Lemma inv_handler_step s s' : inv c e w0 req0 s -> handler_step c e s = Some s' -> inv c e w0 req0 s'.
Proof.
  destruct s as [st w req hpc co ch posts tr].
  unfold inv, handler_step, pre_send, relay_done; simpl. intros [Hu Hinv].
  destruct hpc as [|b|status v|status|status| | |msg]; [| | | | |done..].
  - (* captureBody, vdbg, make, go *)
    destruct Hinv as (-> & -> & -> & -> & Htr & ->).
    destruct (captureBody_req (req_Body req0) (maxCapture c)) as [-> | [-> _]]; simpl.
    + destruct (vdbg_Done c [AStr "reqB:";
          AInt (Z.of_nat (length (body_capture (maxCapture c) (req_Body req0))))] st)
        as (l & ->). simpl.
      intros [= <-]; simpl. rewrite handoff_events_snoc, Htr. done.
    + intros [= <-]; simpl. done.
  - (* the upstream call and the relay *)
    destruct Hinv as (-> & -> & -> & -> & Htr & ->).
    destruct (upstream e (forwarded req0)) as [resp|err] eqn:Hup.
    + destruct (streamAndCapture_relay st
                  (WriteHeader (copy_headers w0 (resp_Header resp)) (StatusCode resp))
                  (resp_Body resp) (maxCapture c))
        as (st' & dst' & buf & -> & Hbuf & Hbody & _).
      intros [= <-]; simpl. split; [done|]. split.
      * exists resp. split; [done|].
        rewrite Hbody, rw_body_WriteHeader, rw_body_copy_headers. done.
      * repeat split; try done. intros _. unfold response_capture. by rewrite Hup.
    + intros [= <-]; simpl. split; [done|]. split; [eauto|done].
  - (* the send *)
    destruct Hinv as (Hrel & -> & (-> & Htr & ->) & Hacc); simpl.
    intros [= <-]; simpl. split; [done|]. split; [done|]. split; [done|].
    exists v. unfold co_inv; simpl. rewrite handoff_events_snoc, Htr.
    repeat split; try done. intros Hal. apply Hacc. by apply alone_snoc in Hal.
  - (* the close *)
    destruct Hinv as (Hrel & -> & v & Hco); simpl.
    intros [= <-]; simpl. split; [done|]. split; [done|]. split; [done|].
    exists v. unfold co_inv in *; simpl in *. rewrite handoff_events_snoc; simpl.
    rewrite app_nil_r.
    destruct co; try done; repeat match goal with
      | H : _ /\ _ |- _ => destruct H
      | H : exists _, _ |- _ => destruct H
      end; repeat split; eauto 10 using alone_snoc.
  - (* the closing log line *)
    destruct Hinv as (Hrel & Hcl & v & Hco).
    match goal with |- context [always ?a st] => destruct (always_Done a st) as (l & ->) end.
    intros [= <-]; simpl. split; [done|]. split; [done|]. split; [done|].
    exists v. unfold co_inv in *; simpl in *. exact Hco.
Qed.

Lemma st_heap_build_payload st u b v : st_heap (build_payload st u b v).1 = st_heap st.
Proof.
  unfold build_payload. pose proof (st_heap_bufPool_Get st) as Hh.
  destruct (bufPool_Get st) as [st1 buf]. simpl in *. done.
Qed.

Lemma co_step_none_pre s :
  pre_send s -> (sys_co s = CoNone \/ exists b, sys_co s = CoWaiting b) -> co_step c e s = None.
Proof.
  intros (Hch & _) Hco. unfold co_step. destruct Hco as [-> | [b ->]]; [done|].
  rewrite Hch. done.
Qed.

Lemma co_inv_step s s' v :
  req_URL (sys_req s) = req_URL req0 ->
  co_inv c e req0 s v -> co_step c e s = Some s' ->
  co_inv c e req0 s' v /\ sys_hpc s' = sys_hpc s /\ sys_w s' = sys_w s /\
  sys_req s' = sys_req s /\ ch_closed (sys_ch s') = ch_closed (sys_ch s).
Proof.
  destruct s as [st w req hpc co ch posts tr].
  unfold co_inv, co_step; simpl. intros Hu Hco.
  destruct co as [|b|b v'|p|p err|]; try done.
  - destruct Hco as (-> & Hbuf & Htr & -> & Hacc). rewrite Hbuf.
    intros [= <-]; simpl. rewrite handoff_events_snoc, Htr. simpl.
    repeat split; try done. intros Hal. apply Hacc. by apply alone_snoc in Hal.
  - destruct Hco as (-> & -> & Hbuf & Htr & -> & Hacc).
    pose proof (build_payload_format st (req_URL req) (request_capture c req0) v) as Hp.
    pose proof (st_heap_build_payload st (req_URL req) (request_capture c req0) v) as Hh.
    destruct (build_payload st (req_URL req) (request_capture c req0) v) as [st' p].
    simpl in Hp, Hh. intros [= <-]; simpl. rewrite handoff_events_snoc, Htr. simpl.
    repeat split; try done.
    exists (slice_bytes (st_heap st) v). rewrite Hp, Hu. repeat split; try done.
    intros Hal. apply Hacc. by apply alone_snoc in Hal.
  - destruct Hco as (Hbuf & -> & x & -> & Htr & Hacc).
    intros [= <-]; simpl. rewrite handoff_events_snoc, Htr. simpl.
    repeat split; try done. exists x. repeat split; try done.
    intros Hal. apply Hacc. by apply alone_snoc in Hal.
  - destruct Hco as (Hbuf & -> & x & -> & Htr & Hacc).
    match goal with |- context [vdbg c ?a st] => destruct (vdbg_Done c a st) as (l & ->) end.
    intros [= <-]; simpl. rewrite app_nil_r.
    repeat split; try done. exists (payload_for c req0 x), x. done.
Qed.

Lemma inv_co_step s s' : inv c e w0 req0 s -> co_step c e s = Some s' -> inv c e w0 req0 s'.
Proof.
  intros [Hu Hinv] Hstep. unfold inv in *.
  destruct (sys_hpc s) eqn:Hpc.
  - destruct Hinv as (_ & _ & Hco & Hpre). rewrite co_step_none_pre in Hstep; eauto. done.
  - destruct Hinv as (_ & _ & Hco & Hpre). rewrite co_step_none_pre in Hstep; eauto. done.
  - destruct Hinv as (_ & Hco & Hpre & _). rewrite co_step_none_pre in Hstep; eauto. done.
  - destruct Hinv as (Hrel & Hcl & v & Hco).
    destruct (co_inv_step s s' v Hu Hco Hstep) as (Hco' & -> & Hw & -> & ->).
    rewrite Hpc. unfold relay_done in *. rewrite Hw. eauto.
  - destruct Hinv as (Hrel & Hcl & v & Hco).
    destruct (co_inv_step s s' v Hu Hco Hstep) as (Hco' & -> & Hw & -> & ->).
    rewrite Hpc. unfold relay_done in *. rewrite Hw. eauto.
  - destruct Hinv as (Hrel & Hcl & v & Hco).
    destruct (co_inv_step s s' v Hu Hco Hstep) as (Hco' & -> & Hw & -> & ->).
    rewrite Hpc. unfold relay_done in *. rewrite Hw. eauto.
  - destruct Hinv as (_ & Hco & Hpre). rewrite co_step_none_pre in Hstep; eauto. done.
  - destruct Hinv as (_ & _ & Hco & Hpre). rewrite co_step_none_pre in Hstep; eauto. done.
Qed.

Lemma not_alone_other tr : ~ alone (tr ++ [EvOther]).
Proof. unfold alone. set_solver. Qed.

Lemma inv_other s st : inv c e w0 req0 s -> inv c e w0 req0 (other_request s st).
Proof.
  destruct s as [st0 w req hpc co ch posts tr].
  unfold inv, other_request, upd_co, pre_send, relay_done, co_inv; simpl.
  rewrite handoff_events_snoc; simpl. rewrite app_nil_r.
  intros [Hu Hinv]. split; [done|].
  destruct hpc; try done; destruct co;
    repeat match goal with
    | H : _ /\ _ |- _ => destruct H
    | H : exists _, _ |- _ => destruct H
    | H : False |- _ => destruct H
    end; try discriminate;
    repeat match goal with
    | |- _ /\ _ => split
    | |- alone (_ ++ [EvOther]) -> _ => intros Hal; exfalso; by apply not_alone_other in Hal
    | |- exists _, _ => eexists
    end; eauto.
Qed.

Lemma inv_step s s' : inv c e w0 req0 s -> step c e s s' -> inv c e w0 req0 s'.
Proof.
  intros Hinv Hstep. destruct Hstep.
  - eapply inv_handler_step; eauto.
  - eapply inv_co_step; eauto.
  - by apply inv_other.
Qed.

Lemma inv_reachable st s : rtc (step c e) (init_system st w0 req0) s -> inv c e w0 req0 s.
Proof.
  intros Hr.
  eapply (rtc_ind_r (R:=step c e) (inv c e w0 req0)); [apply inv_init | | exact Hr].
  intros y z _ Hs Hy. eapply inv_step; eauto.
Qed.

End OneRequest.

(** Once the handler has returned from a successful upstream call, the
    caller has received what [streamAndCapture] relayed: the first
    [maxCapture] bytes of the upstream body when the limit is positive,
    all of it otherwise. *)
Lemma handler_relays c e st w0 req0 s :
  rtc (step c e) (init_system st w0 req0) s ->
  sys_hpc s = HReturned ->
  exists resp, upstream e (forwarded req0) = inl resp /\
    rw_body (sys_w s) = rw_body w0 ++ relayed c resp.
Proof.
  intros Hreach Hret. destruct (inv_reachable c e w0 req0 st s Hreach) as [_ Hinv].
  rewrite Hret in Hinv. by destruct Hinv as (Hrel & _).
Qed.

(** ** Runs and schedules are executions *)

Lemma run_reachable c e n s : rtc (step c e) s (run c e n s).
Proof.
  revert s. induction n as [|n IH]; intros s; simpl; [done|].
  destruct (handler_step c e s) as [s'|] eqn:Hh.
  - eapply rtc_l; [by apply step_handler|]. apply IH.
  - destruct (co_step c e s) as [s'|] eqn:Hc; [|done].
    eapply rtc_l; [by apply step_co|]. apply IH.
Qed.

Lemma exec_reachable c e ms s s' : exec c e ms s = Some s' -> rtc (step c e) s s'.
Proof.
  revert s. induction ms as [|m ms IH]; intros s; simpl.
  - intros [= <-]. done.
  - destruct m as [| |w src].
    + destruct (handler_step c e s) as [s1|] eqn:Hh; [|done]. simpl. intros Hx.
      eapply rtc_l; [by apply step_handler|]. by apply IH.
    + destruct (co_step c e s) as [s1|] eqn:Hc; [|done]. simpl. intros Hx.
      eapply rtc_l; [by apply step_co|]. by apply IH.
    + destruct (streamAndCapture (sys_st s) w src (maxCapture c))
        as [[[st w'] b]| |] eqn:Hsc; [|done..]. intros Hx.
      eapply rtc_l; [by eapply step_other|]. by apply IH.
Qed.

(** ** Handoff before encoding (C9) *)

Lemma filter_cons_inv {A} (P : A -> bool) (l : list A) a rest :
  filter P l = a :: rest ->
  exists l1 l2, l = l1 ++ a :: l2 /\ filter P l1 = [] /\ filter P l2 = rest.
Proof.
  induction l as [|x l IH]; [done|]. rewrite filter_cons.
  destruct (decide (P x)) as [Hx|Hx].
  - intros [= -> <-]. exists [], l. done.
  - intros Hf. destruct (IH Hf) as (l1 & l2 & -> & H1 & H2).
    exists (x :: l1), l2. rewrite filter_cons. by destruct (decide (P x)).
Qed.

(** What the invariant says of the handoff events, whatever the phase. *)
Lemma inv_handoff c e w0 req0 s : inv c e w0 req0 s -> handoff_shape c e req0 s.
Proof.
  intros [_ Hinv].
  assert (Hpre : pre_send s -> handoff_shape c e req0 s).
  { intros (_ & Htr & Hp). exists nil_slice, (response_capture c e req0).
    rewrite Htr, Hp. repeat split; try done; apply prefix_nil. }
  assert (Hco : forall v, co_inv c e req0 s v -> handoff_shape c e req0 s).
  { intros v. unfold co_inv, handoff_shape. destruct (sys_co s); [done|..].
    - intros (_ & _ & -> & -> & _). exists v, (response_capture c e req0).
      repeat split; try done; [by eexists | apply prefix_nil].
    - intros (_ & _ & _ & -> & -> & _). exists v, (response_capture c e req0).
      repeat split; try done; [by eexists | apply prefix_nil].
    - intros (_ & -> & x & -> & -> & Hacc). exists v, x.
      repeat split; try done; [by eexists | apply prefix_nil].
    - intros (_ & -> & x & -> & -> & Hacc). exists v, x.
      repeat split; try done. simpl. lia.
    - intros (_ & p & x & -> & -> & -> & Hacc). exists v, x.
      repeat split; try done. simpl. lia. }
  destruct (sys_hpc s);
    repeat match goal with
    | H : _ /\ _ |- _ => destruct H
    | H : exists _, _ |- _ => destruct H
    end; eauto.
Qed.

(** A payload-building event in a reachable trace comes after the
    receive, which comes after the send of the same slice, and the
    payload is the request's. *)
Lemma build_in_trace c e w0 req0 s q :
  inv c e w0 req0 s -> EvBuild q ∈ sys_trace s ->
  exists v x tr1 tr2 tr3 tr4,
    q = payload_for c req0 x /\
    sys_trace s = tr1 ++ EvSend v :: tr2 ++ EvRecv v :: tr3 ++ EvBuild q :: tr4 /\
    handoff_events (tr1 ++ tr2 ++ tr3) = [] /\
    (alone (sys_trace s) -> x = response_capture c e req0).
Proof.
  intros Hinv Hq. destruct (inv_handoff _ _ _ _ _ Hinv) as (v & x & [k Hk] & _ & _ & Hacc).
  assert (Hin : EvBuild q ∈ handoff_events (sys_trace s)).
  { unfold handoff_events. apply list_elem_of_filter. done. }
  assert (Hhand : exists rest, handoff_events (sys_trace s) =
            EvSend v :: EvRecv v :: EvBuild q :: rest /\ q = payload_for c req0 x).
  { destruct (handoff_events (sys_trace s)) as [|a [|b [|d rest]]]; simplify_eq/=.
    - by apply elem_of_nil in Hin.
    - apply list_elem_of_singleton in Hin. done.
    - apply elem_of_cons in Hin as [?|Hin]; [done|].
      apply list_elem_of_singleton in Hin. done.
    - apply elem_of_cons in Hin as [?|Hin]; [done|].
      apply elem_of_cons in Hin as [?|Hin]; [done|].
      apply elem_of_cons in Hin as [[= ->]|Hin]; [eauto|].
      destruct rest as [|r [|]]; simplify_eq/=.
      + by apply elem_of_nil in Hin.
      + apply list_elem_of_singleton in Hin. done. }
  destruct Hhand as (rest & Hhand & ->). unfold handoff_events in Hhand.
  apply filter_cons_inv in Hhand as (tr1 & r1 & Htr & H1 & Hhand).
  apply filter_cons_inv in Hhand as (tr2 & r2 & -> & H2 & Hhand).
  apply filter_cons_inv in Hhand as (tr3 & tr4 & -> & H3 & _).
  exists v, x, tr1, tr2, tr3, tr4. split; [done|]. split; [done|]. split; [|done].
  unfold handoff_events. by rewrite !filter_app, H1, H2, H3.
Qed.

(** In every execution of a request (the handler, its delivery task
    and other requests interleaved in any order), the handoff events
    occur in the order send, receive, build, post, each at most once and
    the receive taking the very slice that was sent; so every
    payload-building step comes strictly after the receive from the
    handoff channel, the payload is the request's four-segment payload,
    and, no other request having run in between, its response segment
    holds the captured response bytes. *)
Lemma encoding_follows_handoff c e st w0 req0 s
    (Hreach : rtc (step c e) (init_system st w0 req0) s) :
  exists v x,
    let p := payload_for c req0 x in
    handoff_events (sys_trace s) `prefix_of`
      [EvSend v; EvRecv v; EvBuild p; EvPost (new_post c p)] /\
    (alone (sys_trace s) -> x = response_capture c e req0) /\
    forall q, EvBuild q ∈ sys_trace s ->
      q = p /\
      exists tr1 tr2 tr3 tr4,
        sys_trace s = tr1 ++ EvSend v :: tr2 ++ EvRecv v :: tr3 ++ EvBuild q :: tr4 /\
        handoff_events (tr1 ++ tr2 ++ tr3) = [].
Proof.
  pose proof (inv_reachable c e w0 req0 st s Hreach) as Hinv.
  destruct (inv_handoff _ _ _ _ _ Hinv) as (v & x & Hpre & _ & _ & Hacc).
  exists v, x. simpl. split; [done|]. split; [done|]. intros q Hq.
  destruct (build_in_trace _ _ _ _ _ _ Hinv Hq)
    as (v' & x' & tr1 & tr2 & tr3 & tr4 & -> & Htr & Hquiet & _).
  assert (Hh : handoff_events (sys_trace s) =
    EvSend v' :: EvRecv v' :: EvBuild (payload_for c req0 x') :: handoff_events tr4).
  { rewrite Htr. unfold handoff_events in *.
    rewrite !filter_app in Hquiet.
    apply app_eq_nil in Hquiet as [H1 Hquiet]. apply app_eq_nil in Hquiet as [H2 H3].
    rewrite !filter_app, !filter_cons, !filter_app, !filter_cons, !filter_app, !filter_cons.
    rewrite H1, H2, H3. rewrite !decide_True by done. done. }
  destruct Hpre as [k Hk]. rewrite Hh in Hk.
  remember (payload_for c req0 x) as p eqn:Ep.
  remember (payload_for c req0 x') as p' eqn:Ep'.
  simpl in Hk. injection Hk as Hv _ Hp _. subst v' p'.
  split; [congruence|]. exists tr1, tr2, tr3, tr4. done.
Qed.

Example encoding_follows_handoff_demo :
  exists v x,
    let p := payload_for demo_cfg demo_req x in
    handoff_events (sys_trace (serve demo_cfg demo_env logged_state demo_req)) `prefix_of`
      [EvSend v; EvRecv v; EvBuild p; EvPost (new_post demo_cfg p)] /\
    (alone (sys_trace (serve demo_cfg demo_env logged_state demo_req)) ->
     x = response_capture demo_cfg demo_env demo_req) /\
    forall q, EvBuild q ∈ sys_trace (serve demo_cfg demo_env logged_state demo_req) ->
      q = p /\
      exists tr1 tr2 tr3 tr4,
        sys_trace (serve demo_cfg demo_env logged_state demo_req) =
          tr1 ++ EvSend v :: tr2 ++ EvRecv v :: tr3 ++ EvBuild q :: tr4 /\
        handoff_events (tr1 ++ tr2 ++ tr3) = [].
Proof.
  apply (encoding_follows_handoff demo_cfg demo_env logged_state new_ResponseWriter demo_req).
  apply run_reachable.
Defined.

(** The scenario of the specification: a ten-byte body sent to
    [/foo?x=1], [max_capture_kb = 1], an upstream answering 200 with
    five bytes.  The caller receives 200 and the five bytes, and the one
    POST carries the four segments with both bodies whole. *)
Example end_to_end_scenario :
  let c := {| url := tracking; timeout := defTimeoutMS * Millisecond;
              maxCapture := 1024; verbose := true |} in
  let req := {| req_URL := {| Scheme := ""; Host := ""; Path := "/foo"; RawQuery := "x=1" |};
                req_Body := Some (NetBody {| chunks := [list_byte_of_string "0123456789"];
                                             fin := EOF |}) |} in
  let e := {| upstream := fun _ =>
                inl {| StatusCode := 200; resp_Header := [];
                       resp_Body := {| chunks := [list_byte_of_string "hello"]; fin := EOF |} |};
              deliver := fun _ => None; elapsed := 0 |} in
  let s := serve c e logged_state req in
  sys_hpc s = HReturned /\ sys_co s = CoReturned /\
  rw_status (sys_w s) = Some 200 /\
  rw_body (sys_w s) = list_byte_of_string "hello" /\
  post_body <$> sys_posts s =
    ["{$responseBody}hello{/responseBody},{$requestBody}0123456789{/requestBody}," +:+
     "{$requestQuery}x=1{/requestQuery},{$requestUrl}/foo?x=1{/requestUrl}"] /\
  handoff_events (sys_trace s) =
    [EvSend (Slice 0 5 262144); EvRecv (Slice 0 5 262144);
     EvBuild (payload_for c req (list_byte_of_string "hello"));
     EvPost (new_post c (payload_for c req (list_byte_of_string "hello")))].
Proof. vm_compute. repeat split; reflexivity. Qed.

(** C9 fails on the code in its last part.  The handler relays [pong],
    sends the captured slice and closes the channel; another request
    relays [XY] through the same pool; the delivery task then receives
    the slice and builds the payload.  The handoff events are in order
    (send, receive of the same slice, build), and yet the payload's
    response segment is [XYng], not the captured [pong]: the slice
    handed off points into a buffer that was already back in the pool. *)
Theorem handoff_in_order_yet_payload_stale :
  let s0 := init_system logged_state new_ResponseWriter demo_req in
  let stale := payload_for demo_cfg demo_req (list_byte_of_string "XYng") in
  exists s v,
    exec demo_cfg demo_env
      [MHandler; MHandler; MHandler; MHandler; MOther new_ResponseWriter two_XY; MCo; MCo] s0
      = Some s /\
    rtc (step demo_cfg demo_env) s0 s /\
    handoff_events (sys_trace s) = [EvSend v; EvRecv v; EvBuild stale] /\
    sys_co s = CoBuilt stale /\
    response_capture demo_cfg demo_env demo_req = list_byte_of_string "pong" /\
    stale <> payload_for demo_cfg demo_req (response_capture demo_cfg demo_env demo_req).
Proof.
  cbv zeta. eexists _, _.
  split; [vm_compute; reflexivity|].
  split.
  { apply (exec_reachable _ _
      [MHandler; MHandler; MHandler; MHandler; MOther new_ResponseWriter two_XY; MCo; MCo]).
    vm_compute. reflexivity. }
  split; [vm_compute; reflexivity|].
  split; [vm_compute; reflexivity|].
  split; [vm_compute; reflexivity|].
  vm_compute. discriminate.
Qed.

(** ** A failing upstream call (C8) *)

Lemma inv_upstream_failed c e w0 req0 s msg :
  upstream e (forwarded req0) = inr msg -> inv c e w0 req0 s ->
  pre_send s /\
  (sys_co s = CoNone \/ exists b, sys_co s = CoWaiting b) /\
  (sys_hpc s = HFailed -> sys_w s = http_Error w0 msg StatusBadGateway).
Proof.
  intros Hup [_ Hinv]. unfold relay_done in Hinv. rewrite Hup in Hinv.
  destruct (sys_hpc s);
    repeat match goal with
    | H : _ /\ _ |- _ => destruct H
    | H : exists _, _ |- _ => destruct H
    end; try discriminate; simplify_eq;
    (split; [done | split; [eauto | intros ?; by simplify_eq]]).
Qed.

Lemma run_handler c e n s s' :
  handler_step c e s = Some s' -> run c e (Datatypes.S n) s = run c e n s'.
Proof. intros H. simpl. by rewrite H. Qed.


Lemma run_stop c e n s :
  handler_step c e s = None -> co_step c e s = None -> run c e n s = s.
Proof. intros Hh Hc. destruct n; simpl; [done|]. by rewrite Hh, Hc. Qed.

#[local] Arguments run : simpl never.

Lemma handler_step_init c e st w req0 :
  0 <= maxCapture c ->
  exists l,
    handler_step c e (init_system st w req0) =
      Some {| sys_st := set_logger l st; sys_w := w; sys_req := forwarded req0;
              sys_hpc := HSpawned (request_capture c req0);
              sys_co := CoWaiting (request_capture c req0);
              sys_ch := make_chan; sys_posts := []; sys_trace := [EvSpawn] |}.
Proof.
  intros Hmax. unfold handler_step, init_system. simpl.
  destruct (captureBody_req (req_Body req0) (maxCapture c)) as [-> | [_ ?]]; [|lia].
  simpl.
  match goal with |- context [vdbg c ?a st] => destruct (vdbg_Done c a st) as (l & ->) end.
  exists l. done.
Qed.

Lemma serve_failed c e st req0 msg :
  upstream e (forwarded req0) = inr msg -> 0 <= maxCapture c ->
  sys_hpc (serve c e st req0) = HFailed.
Proof.
  intros Hup Hmax. unfold serve.
  destruct (handler_step_init c e st new_ResponseWriter req0 Hmax) as (l & H1).
  rewrite (run_handler _ _ _ _ _ H1).
  erewrite run_handler; [|unfold handler_step; simpl; rewrite Hup; reflexivity].
  rewrite run_stop; done.
Qed.

(** C8, as the code has it: when the upstream call fails, the handler
    answers 502 with the error text followed by the line feed that
    [http.Error] prints after it; in every execution the channel stays
    as it was made (nothing sent, not closed), no handoff event occurs,
    the delivery task cannot move, and nothing is posted. *)
Theorem upstream_failure_answers_502 c e st req0 msg s
    (Hup : upstream e (forwarded req0) = inr msg)
    (Hreach : rtc (step c e) (init_system st new_ResponseWriter req0) s) :
  (sys_hpc s = HFailed ->
     rw_status (sys_w s) = Some StatusBadGateway /\
     rw_body (sys_w s) = list_byte_of_string (msg +:+ newline)) /\
  sys_ch s = make_chan /\
  handoff_events (sys_trace s) = [] /\
  sys_posts s = [] /\
  co_step c e s = None /\
  (0 <= maxCapture c -> sys_hpc (serve c e st req0) = HFailed).
Proof.
  pose proof (inv_reachable c e new_ResponseWriter req0 st s Hreach) as Hinv.
  destruct (inv_upstream_failed _ _ _ _ _ _ Hup Hinv) as (Hpre & Hco & Hw).
  split; [|split; [apply Hpre|split; [apply Hpre|split; [apply Hpre|split]]]].
  - intros Hf. rewrite (Hw Hf). done.
  - by apply co_step_none_pre.
  - intros Hmax. by apply (serve_failed c e st req0 msg).
Qed.

Lemma upstream_failure_answers_502_witness :
  let s := serve demo_cfg failing_env logged_state demo_req in
  (sys_hpc s = HFailed ->
     rw_status (sys_w s) = Some StatusBadGateway /\
     rw_body (sys_w s) = list_byte_of_string ("boom" +:+ newline)) /\
  sys_ch s = make_chan /\
  handoff_events (sys_trace s) = [] /\
  sys_posts s = [] /\
  co_step demo_cfg failing_env s = None /\
  (0 <= maxCapture demo_cfg ->
   sys_hpc (serve demo_cfg failing_env logged_state demo_req) = HFailed).
Proof.
  apply (upstream_failure_answers_502 demo_cfg failing_env logged_state demo_req "boom").
  - reflexivity.
  - apply run_reachable.
Defined.

(** C8 as stated fails: the body is not the error text alone.  With the
    upstream error [boom] the handler returns after [http.Error], the
    status is 502, and the body is [boom] followed by a line feed. *)
Lemma gateway_error_body_has_newline :
  let s := serve demo_cfg failing_env logged_state demo_req in
  sys_hpc s = HFailed /\
  rw_status (sys_w s) = Some 502 /\
  rw_body (sys_w s) = list_byte_of_string "boom" ++ [x0a] /\
  rw_body (sys_w s) <> list_byte_of_string "boom".
Proof. vm_compute. repeat split; discriminate. Qed.

(** ** The pooled capture buffer (C2) *)

(** Whatever the source and the state, when a capturing relay returns
    the pool's first item is the returned slice cut to length 0: the
    buffer is back in the pool before the caller has read a byte of it. *)
Lemma streamAndCapture_aliases_pool st dst src max :
  0 < max ->
  exists st' dst' buf q,
    streamAndCapture st dst src max = Done (st', dst', buf) /\
    head (slicePool st') = Some q /\ ptr q = ptr buf.
Proof.
  intros Hmax.
  destruct (streamAndCapture_capture st dst src max Hmax)
    as (st' & dst' & buf & Hrun & _ & _ & Hpool & _).
  exists st', dst', buf, (reslice0 buf). rewrite Hpool. split; [done|].
  split; [done|]. apply ptr_reslice0.
Qed.

(** C2 fails on the code.  The handler relays the upstream body [AAAA];
    when [streamAndCapture] returns, the slice it returns and the slice
    at the head of the pool share their array, so the buffer is released
    before anything was copied out of it.  The handler then sends the
    slice; another request relays [BB] through the same pool; the
    delivery task receives the slice and builds its payload, whose
    response segment reads [BBAA]. *)
Theorem pooled_capture_is_overwritten :
  let s0 := init_system logged_state new_ResponseWriter demo_req in
  exists s2 v q s7,
    exec demo_cfg env_A [MHandler; MHandler] s0 = Some s2 /\
    sys_hpc s2 = HStreamed 200 v /\
    slice_bytes (st_heap (sys_st s2)) v = list_byte_of_string "AAAA" /\
    head (slicePool (sys_st s2)) = Some q /\ ptr q = ptr v /\ ptr v <> None /\
    exec demo_cfg env_A [MHandler; MOther new_ResponseWriter two_B; MCo; MCo; MCo] s2
      = Some s7 /\
    rtc (step demo_cfg env_A) s0 s7 /\
    post_body <$> sys_posts s7 =
      [payload_for demo_cfg demo_req (list_byte_of_string "BBAA")] /\
    response_capture demo_cfg env_A demo_req = list_byte_of_string "AAAA".
Proof.
  cbv zeta. eexists _, _, _, _.
  split; [vm_compute; reflexivity|].
  split; [reflexivity|].
  split; [vm_compute; reflexivity|].
  split; [vm_compute; reflexivity|].
  split; [reflexivity|]. split; [discriminate|].
  split; [vm_compute; reflexivity|].
  split.
  { apply (exec_reachable _ _
      [MHandler; MHandler; MHandler; MOther new_ResponseWriter two_B; MCo; MCo; MCo]).
    vm_compute. reflexivity. }
  split; vm_compute; reflexivity.
Qed.

(** ** Registration (C7, C3) *)

Lemma f64_le_zero_not_gt v : f64_le v f64_zero = true -> f64_gt v f64_zero = false.
Proof. destruct v as [s|s| |s m e]; try destruct s; done. Qed.

Section RegistrationFacts.
Variable ParseRequestURI : string -> URL + string.

(** A malformed [tracking_url] is refused with the wrapped error, and
    neither a handler nor a log line results. *)
Lemma registerClients_malformed r extra block raw err st :
  extra !! r = Some (VBlock block) ->
  block !! "tracking_url" = Some (SString raw) ->
  ParseRequestURI raw = inr err ->
  registerClients ParseRequestURI r extra st =
    Done (st, ConfigError (tag +:+ " invalid tracking_url: " +:+ err)).
Proof. intros Hb Hu Hp. unfold registerClients. by rewrite Hb, Hu, Hp. Qed.

(** A missing [tracking_url] (or one that is not a string) makes the
    unchecked assertion panic. *)
Lemma registerClients_missing r extra block st :
  extra !! r = Some (VBlock block) ->
  block !! "tracking_url" = None ->
  registerClients ParseRequestURI r extra st = Panic bad_assertion.
Proof. intros Hb Hu. unfold registerClients. by rewrite Hb, Hu. Qed.

(** With a logger injected, a well-formed [tracking_url] installs the
    handler for the defaults as changed by the options. *)
Lemma registerClients_valid r extra block raw target st l :
  extra !! r = Some (VBlock block) ->
  block !! "tracking_url" = Some (SString raw) ->
  ParseRequestURI raw = inl target ->
  logger st = Some l ->
  exists st' args,
    registerClients ParseRequestURI r extra st =
      Done (st', Installed (apply_options block (default_cfg target))) /\
    logger st' = Some (l ++ [(LvInfo, args)]).
Proof.
  intros Hb Hu Hp Hl. unfold registerClients, logger_call. rewrite Hb, Hu, Hp, Hl.
  simpl. eauto.
Qed.

(** Without one, the unconditional [logger.Info] panics. *)
Lemma registerClients_nil_logger r extra block raw target st :
  extra !! r = Some (VBlock block) ->
  block !! "tracking_url" = Some (SString raw) ->
  ParseRequestURI raw = inl target ->
  logger st = None ->
  registerClients ParseRequestURI r extra st = Panic nil_deref.
Proof.
  intros Hb Hu Hp Hl. unfold registerClients, logger_call. by rewrite Hb, Hu, Hp, Hl.
Qed.

End RegistrationFacts.

(** The block of a minimal configuration leaves the defaults alone. *)
Lemma apply_options_minimal raw c :
  apply_options {[ "tracking_url" := SString raw ]} c = c.
Proof. done. Qed.

Lemma default_cfg_values target :
  timeout (default_cfg target) = 2000 * Millisecond /\
  maxCapture (default_cfg target) = 256 * 1024 /\
  verbose (default_cfg target) = false /\
  url (default_cfg target) = target.
Proof. done. Qed.

(** Values of [timeout_ms] and [max_capture_kb] that are [<= 0] leave
    the timeout and the capture limit as they were. *)
Lemma apply_options_nonpositive block c :
  (forall v, block !! "timeout_ms" = Some (SFloat v) -> f64_le v f64_zero = true) ->
  (forall v, block !! "max_capture_kb" = Some (SFloat v) -> f64_le v f64_zero = true) ->
  timeout (apply_options block c) = timeout c /\
  maxCapture (apply_options block c) = maxCapture c.
Proof.
  intros Ht Hm. unfold apply_options.
  destruct (block !! "timeout_ms") as [[?|v|?|]|] eqn:Et;
    destruct (block !! "max_capture_kb") as [[?|v'|?|]|] eqn:Em;
    destruct (block !! "verbose") as [[?|?|?|]|] eqn:Ev;
    rewrite ?(f64_le_zero_not_gt _ (Ht _ eq_refl)), ?(f64_le_zero_not_gt _ (Hm _ eq_refl));
    done.
Qed.

Lemma apply_options_max_nonpositive block c v :
  block !! "max_capture_kb" = Some (SFloat v) -> f64_le v f64_zero = true ->
  maxCapture (apply_options block c) = maxCapture c.
Proof.
  intros Hm Hle. unfold apply_options. rewrite Hm, (f64_le_zero_not_gt _ Hle).
  destruct (block !! "timeout_ms") as [[?|v'|?|]|]; [|destruct (f64_gt v' f64_zero)|..];
    destruct (block !! "verbose") as [[?|?|?|]|]; done.
Qed.

(** C7 fails on the code where the key is missing: the unchecked
    assertion [block["tracking_url"].(string)] panics, whatever the
    parser and the state, where the claim has a configuration error
    returned; and with no logger injected a valid minimal configuration
    panics too, on the unconditional [logger.Info]. *)
Theorem registration_without_tracking_url_panics :
  (forall parse st,
     registerClients parse plugin {[ plugin := VBlock ∅ ]} st = Panic bad_assertion) /\
  registerClients ParseRequestURI_lite plugin minimal_extra init_state = Panic nil_deref.
Proof. split; [intros parse st|]; reflexivity. Qed.

(** What holds of C7: a malformed URL is a configuration error, and with
    a logger injected the minimal configuration installs the handler
    with the documented defaults. *)
Lemma registration_minimal_defaults :
  registerClients ParseRequestURI_lite plugin
    {[ plugin := VBlock {[ "tracking_url" := SString "tracking.svc" ]} ]} logged_state
  = Done (logged_state,
          ConfigError "[krakend-trace-plugin] invalid tracking_url: invalid URI for request") /\
  exists st',
    registerClients ParseRequestURI_lite plugin minimal_extra logged_state =
      Done (st', Installed {| url := tracking; timeout := 2000 * Millisecond;
                              maxCapture := 256 * 1024; verbose := false |}).
Proof. split; [reflexivity|]. eexists. reflexivity. Qed.

(** C3 as stated fails: with [max_capture_kb = 0] the registration keeps
    the default limit, and the payload of a request with body [ping]
    answered by [pong] carries both bodies in its segments. *)
Lemma zero_kb_does_not_disable_capture :
  exists st' c,
    registerClients ParseRequestURI_lite plugin zero_kb_extra logged_state
      = Done (st', Installed c) /\
    maxCapture c = 262144 /\
    post_body <$> sys_posts (serve c demo_env st' demo_req) =
      ["{$responseBody}pong{/responseBody},{$requestBody}ping{/requestBody}," +:+
       "{$requestQuery}x=1{/requestQuery},{$requestUrl}/foo?x=1{/requestUrl}"].
Proof.
  eexists _, _. split; [reflexivity|]. split; [reflexivity|]. vm_compute. reflexivity.
Qed.

(** C3, as the code has it: a [max_capture_kb] that is [<= 0] is ignored
    at registration, the capture limit stays at the default of 256 KiB,
    and capture stays on: in every execution of a request in which no
    other request ran, a payload that is built carries in its response
    and request segments the first [min(length, 262144)] bytes of the
    upstream body and of the request body. *)
Theorem nonpositive_max_capture_kb_is_ignored
    (parse : string -> URL + string) (r : string) (extra : gmap string value)
    (block : gmap string scalar) (raw : string) (target : URL) (v : spec_float)
    (st : state) (l : list entry)
    (Hblock : extra !! r = Some (VBlock block))
    (Hurl : block !! "tracking_url" = Some (SString raw))
    (Hparse : parse raw = inl target)
    (Hkb : block !! "max_capture_kb" = Some (SFloat v))
    (Hle : f64_le v f64_zero = true)
    (Hlog : logger st = Some l) :
  exists st' c,
    registerClients parse r extra st = Done (st', Installed c) /\
    maxCapture c = defMaxCaptureKB * 1024 /\
    forall e stq w0 req s q,
      rtc (step c e) (init_system stq w0 req) s ->
      alone (sys_trace s) ->
      EvBuild q ∈ sys_trace s ->
      q = payload_of (response_capture c e req) (request_capture c req)
            (RawQuery (req_URL req)) (URL_String (req_URL req)) /\
      request_capture c req = body_capture 262144 (req_Body req) /\
      response_capture c e req =
        match upstream e (forwarded req) with
        | inl resp => clip 262144 (stream_content (resp_Body resp))
        | inr _ => []
        end.
Proof.
  destruct (registerClients_valid parse r extra block raw target st l Hblock Hurl Hparse Hlog)
    as (st' & args & Hreg & _).
  exists st', (apply_options block (default_cfg target)).
  pose proof (apply_options_max_nonpositive block (default_cfg target) v Hkb Hle) as Hmax.
  split; [done|]. split; [done|].
  intros e stq w0 req s q Hreach Hal Hq.
  pose proof (inv_reachable _ e w0 req stq s Hreach) as Hinv.
  destruct (build_in_trace _ _ _ _ _ _ Hinv Hq) as (v' & x & _ & _ & _ & _ & -> & _ & _ & Hacc).
  rewrite (Hacc Hal). unfold payload_for, request_capture, response_capture.
  rewrite Hmax. done.
Qed.

Lemma nonpositive_max_capture_kb_is_ignored_witness :
  exists st' c,
    registerClients ParseRequestURI_lite plugin zero_kb_extra logged_state
      = Done (st', Installed c) /\
    maxCapture c = defMaxCaptureKB * 1024 /\
    forall e stq w0 req s q,
      rtc (step c e) (init_system stq w0 req) s ->
      alone (sys_trace s) ->
      EvBuild q ∈ sys_trace s ->
      q = payload_of (response_capture c e req) (request_capture c req)
            (RawQuery (req_URL req)) (URL_String (req_URL req)) /\
      request_capture c req = body_capture 262144 (req_Body req) /\
      response_capture c e req =
        match upstream e (forwarded req) with
        | inl resp => clip 262144 (stream_content (resp_Body resp))
        | inr _ => []
        end.
Proof.
  apply (nonpositive_max_capture_kb_is_ignored ParseRequestURI_lite plugin zero_kb_extra
           {[ "tracking_url" := SString "http://tracking.svc/api/tracking";
              "max_capture_kb" := SFloat f64_zero ]}
           "http://tracking.svc/api/tracking" tracking f64_zero logged_state []);
    reflexivity.
Defined.

(** ** The nil logger (C10) *)

Lemma logger_build_payload st u b v : logger (build_payload st u b v).1 = logger st.
Proof. unfold build_payload, bufPool_Get. by destruct (bufPool st). Qed.

Lemma streamAndCapture_logger st w src max st' w' b :
  streamAndCapture st w src max = Done (st', w', b) -> logger st' = logger st.
Proof.
  destruct (streamAndCapture_relay st w src max) as (st1 & w1 & b1 & -> & _ & _ & Hl).
  by intros [= <- _ _].
Qed.

Lemma nil_deref_distinct :
  out_of_range <> nil_deref /\ "send on closed channel" <> nil_deref /\
  "close of closed channel" <> nil_deref.
Proof. done. Qed.

Ltac nil_logger_done :=
  simpl in *; split;
  [ solve [done | congruence]
  | first [ done
          | intros _ Heq; first [ discriminate Heq
                                | injection Heq as Heq; vm_compute in Heq; discriminate Heq ] ] ].

(** A step taken with the logger nil leaves it nil and raises no
    nil-dereference panic. *)
Lemma step_nil_logger c e s s' :
  logger (sys_st s) = None -> step c e s s' ->
  logger (sys_st s') = None /\
  (sys_hpc s <> HPanicked nil_deref -> sys_hpc s' <> HPanicked nil_deref).
Proof.
  intros Hl Hstep. destruct Hstep as [s s' Hh|s s' Hc|s w src st w' b Hsc].
  - destruct s as [st w req hpc co ch posts tr]. unfold handler_step in Hh. simpl in *.
    destruct hpc as [|b|status v|status|status| | |msg]; [| | | | |done..].
    + destruct (captureBody_req (req_Body req) (maxCapture c)) as [Hcb | [Hcb _]];
        rewrite Hcb in Hh; simpl in Hh.
      * rewrite vdbg_nil in Hh by done. simpl in Hh. injection Hh as <-. nil_logger_done.
      * injection Hh as <-. nil_logger_done.
    + destruct (upstream e req) as [resp|err]; [|injection Hh as <-; nil_logger_done].
      destruct (streamAndCapture st _ (resp_Body resp) (maxCapture c))
        as [[[st1 w1] b1]|msg|] eqn:Hsc; simpl in Hh; [| |done].
      * injection Hh as <-. apply streamAndCapture_logger in Hsc. nil_logger_done.
      * destruct (streamAndCapture_relay st
            (WriteHeader (copy_headers w (resp_Header resp)) (StatusCode resp))
            (resp_Body resp) (maxCapture c)) as (? & ? & ? & Hd & _). congruence.
    + destruct (ch_closed ch); simpl in Hh; [injection Hh as <-; nil_logger_done|].
      destruct (ch_buf ch); simpl in Hh; [|done]. injection Hh as <-. nil_logger_done.
    + destruct (ch_closed ch); simpl in Hh; injection Hh as <-; nil_logger_done.
    + rewrite always_nil in Hh by done. injection Hh as <-. nil_logger_done.
  - destruct s as [st w req hpc co ch posts tr]. unfold co_step in Hc. simpl in *.
    destruct co as [|b|b v|p|p err|]; try done.
    + destruct (ch_buf ch); [destruct (ch_closed ch); [|done]|];
        simpl in Hc; injection Hc as <-; nil_logger_done.
    + pose proof (logger_build_payload st (req_URL req) b v) as Hlb.
      destruct (build_payload st (req_URL req) b v) as [st1 p]. injection Hc as <-.
      nil_logger_done.
    + injection Hc as <-. nil_logger_done.
    + rewrite vdbg_nil in Hc by done. injection Hc as <-. nil_logger_done.
  - apply streamAndCapture_logger in Hsc. nil_logger_done.
Qed.

(** C10: with no logger injected, [vdbg] and [always] return without a
    trace and without touching the state, so no execution of a request
    (the handler, its delivery task, other requests) raises a
    nil-dereference panic or changes the logger; [registerClients], by
    contrast, calls [logger.Info] without the check: on a well-formed
    configuration it panics with the logger nil, and logs one info entry
    with a logger in place. *)
Theorem nil_logger_is_checked_on_request_path (st : state) (Hnil : logger st = None) :
  (forall c v, vdbg c v st = Done st) /\
  (forall v, always v st = Done st) /\
  (forall c e w req s,
     rtc (step c e) (init_system st w req) s ->
     logger (sys_st s) = None /\ sys_hpc s <> HPanicked nil_deref) /\
  (forall parse r extra block raw target,
     extra !! r = Some (VBlock block) ->
     block !! "tracking_url" = Some (SString raw) ->
     parse raw = inl target ->
     registerClients parse r extra st = Panic nil_deref /\
     forall l, exists st' args,
       registerClients parse r extra (set_logger (Some l) st) =
         Done (st', Installed (apply_options block (default_cfg target))) /\
       logger st' = Some (l ++ [(LvInfo, args)])).
Proof.
  split; [intros; by apply vdbg_nil|]. split; [intros; by apply always_nil|]. split.
  - intros c e w req s Hreach.
    eapply (rtc_ind_r (R:=step c e)
              (fun s => logger (sys_st s) = None /\ sys_hpc s <> HPanicked nil_deref));
      [| |exact Hreach].
    + done.
    + intros y z _ Hstep [Hl Hp]. destruct (step_nil_logger c e y z Hl Hstep). auto.
  - intros parse r extra block raw target Hb Hu Hp. split.
    + by eapply registerClients_nil_logger.
    + intros l. by eapply registerClients_valid.
Qed.

Lemma nil_logger_is_checked_on_request_path_witness :
  (forall c v, vdbg c v init_state = Done init_state) /\
  (forall v, always v init_state = Done init_state) /\
  (forall c e w req s,
     rtc (step c e) (init_system init_state w req) s ->
     logger (sys_st s) = None /\ sys_hpc s <> HPanicked nil_deref) /\
  (forall parse r extra block raw target,
     extra !! r = Some (VBlock block) ->
     block !! "tracking_url" = Some (SString raw) ->
     parse raw = inl target ->
     registerClients parse r extra init_state = Panic nil_deref /\
     forall l, exists st' args,
       registerClients parse r extra (set_logger (Some l) init_state) =
         Done (st', Installed (apply_options block (default_cfg target))) /\
       logger st' = Some (l ++ [(LvInfo, args)])).
Proof. apply (nil_logger_is_checked_on_request_path init_state). reflexivity. Defined.

(** * Further properties of the code *)

(** ** [sliceWriter.Write] *)

Lemma len_slice_bytes h s : length (slice_bytes h s) = len s.
Proof. destruct s; simpl; [done | apply length_array_prefix]. Qed.

(** X1: after any sequence of [Write] calls the slice the writer points
    to denotes the bytes it denoted before followed by every chunk
    written, in the order of the calls, none lost or repeated, whether
    the chunks fitted the capacity or made [append] move the slice to a
    larger array; its length is the number of those bytes. *)
Theorem sliceWriter_Write_sequence (w : sliceWriter) (ps : list bytes) :
  sliceWriter_written (foldl Write w ps) = sliceWriter_written w ++ concat ps /\
  len (sw_buf (foldl Write w ps)) = (len (sw_buf w) + length (concat ps))%nat.
Proof.
  assert (Hseq : forall ps w,
    sliceWriter_written (foldl Write w ps) = sliceWriter_written w ++ concat ps).
  { clear. induction ps as [|p ps IH]; intros w; simpl; [by rewrite app_nil_r|].
    rewrite IH, sliceWriter_Write_written, app_assoc. done. }
  split; [apply Hseq|].
  pose proof (f_equal length (Hseq ps w)) as Hlen.
  unfold sliceWriter_written in Hlen. rewrite length_app, !len_slice_bytes in Hlen. done.
Qed.

(** X2: a [Write] changes the array its resulting slice lives in and no
    other array of the heap.  When the bytes fit the capacity the slice
    stays in its array with its capacity and nothing is allocated; when
    they do not, the slice moves to one newly allocated array that has
    room for it, and the old array keeps its bytes. *)
Theorem sliceWriter_Write_frame (w : sliceWriter) (p : bytes) :
  let w' := Write w p in
  (forall a, ptr (sw_buf w') <> Some a -> cell (sw_heap w') a = cell (sw_heap w) a) /\
  (Z.of_nat (len (sw_buf w) + length p) <= cap (sw_buf w) ->
     ptr (sw_buf w') = ptr (sw_buf w) /\ cap (sw_buf w') = cap (sw_buf w) /\
     next (sw_heap w') = next (sw_heap w)) /\
  (cap (sw_buf w) < Z.of_nat (len (sw_buf w) + length p) ->
     ptr (sw_buf w') = Some (next (sw_heap w)) /\
     next (sw_heap w') = Datatypes.S (next (sw_heap w)) /\
     Z.of_nat (len (sw_buf w')) <= cap (sw_buf w') /\
     forall a, a <> next (sw_heap w) -> cell (sw_heap w') a = cell (sw_heap w) a).
Proof.
  destruct w as [h s]. unfold Write, sliceWriter_Writer, sliceWriter_Write, append. simpl.
  destruct (Z.leb_spec (Z.of_nat (len s + length p)) (cap s)) as [Hfit|Hgrow].
  - destruct s as [|a0 k c]; simpl in *.
    + split; [done|]. split; [done|]. intros Hgrow. lia.
    + split; [|split; [done|intros Hgrow; lia]].
      intros a Ha. unfold cell; simpl. rewrite lookup_insert_ne; [done|congruence].
  - simpl. split; [|split; [intros Hfit; lia|intros _]].
    + intros a Ha. unfold cell; simpl. rewrite lookup_insert_ne; [done|congruence].
    + split; [done|]. split; [done|]. split; [lia|].
      intros a Ha. unfold cell; simpl. by rewrite lookup_insert_ne.
Qed.

(** ** [streamAndCapture] with capture off *)

(** X3: with [max <= 0], [streamAndCapture] is a plain copy: the
    destination receives the whole source after what it held, its headers
    and an already written status stay, the result is the nil slice, and
    the state is the one before the call (nothing is taken from the pool
    and nothing is allocated). *)
Theorem streamAndCapture_nonpositive_is_plain_copy
    (st : state) (dst : ResponseWriter) (src : stream) (max : Z) (Hmax : max <= 0) :
  exists dst',
    streamAndCapture st dst src max = Done (st, dst', nil_slice) /\
    rw_body dst' = rw_body dst ++ stream_content src /\
    rw_header dst' = rw_header dst /\
    (forall k, rw_status dst = Some k -> rw_status dst' = Some k).
Proof.
  destruct (streamAndCapture_passthrough st dst src max Hmax) as (dst' & Hrun & Hb & Hh & Hs & _).
  exists dst'. done.
Qed.

Lemma streamAndCapture_nonpositive_is_plain_copy_witness :
  exists dst',
    streamAndCapture logged_state new_ResponseWriter abcdef 0
      = Done (logged_state, dst', nil_slice) /\
    rw_body dst' = rw_body new_ResponseWriter ++ stream_content abcdef /\
    rw_header dst' = rw_header new_ResponseWriter /\
    (forall k, rw_status new_ResponseWriter = Some k -> rw_status dst' = Some k).
Proof.
  apply (streamAndCapture_nonpositive_is_plain_copy logged_state new_ResponseWriter abcdef 0).
  lia.
Defined.

(** ** [captureBody] at its edges *)

(** X4: with a negative limit [captureBody] panics on every body that is
    there, an empty one included ([len(all) > max] holds and [all[:max]]
    is out of range), and it does so after it has replaced the body by a
    reader over all the bytes; a nil body still gives the empty capture. *)
Theorem captureBody_negative_limit (body : ReadCloser) (max : Z) (Hneg : max < 0) :
  captureBody (Some (Some body)) max =
    (Some (Some (NopCloser (bytes_NewReader (ReadCloser_content body)))), Panic out_of_range) /\
  captureBody (Some None) max = (Some None, Done []) /\
  captureBody None max = (None, Done []).
Proof.
  split; [|done]. unfold captureBody.
  destruct (io_ReadAll_spec _ ReadCloser_laws body) as (body' & -> & _).
  destruct (Z.gtb_spec (Z.of_nat (length (ReadCloser_content body))) max); [|lia].
  destruct (Z.ltb_spec max 0); [done|lia].
Qed.

Lemma captureBody_negative_limit_witness :
  captureBody (Some (Some (NetBody abcdef))) (-1) =
    (Some (Some (NopCloser (bytes_NewReader (ReadCloser_content (NetBody abcdef))))),
     Panic out_of_range) /\
  captureBody (Some None) (-1) = (Some None, Done []) /\
  captureBody None (-1) = (None, Done []).
Proof. apply (captureBody_negative_limit (NetBody abcdef) (-1)). lia. Defined.

(** X5: capturing is repeatable.  [captureBody] applied to the body it
    has left behind returns the same capture (or the same panic) and
    leaves the same body, for every body, nil ones included, and every
    limit. *)
Theorem captureBody_idempotent (rc : option (option ReadCloser)) (max : Z) :
  captureBody (captureBody rc max).1 max = captureBody rc max.
Proof.
  destruct rc as [[body|]|]; [|done..]. unfold captureBody at 2 3.
  destruct (io_ReadAll_spec _ ReadCloser_laws body) as (body' & -> & _).
  set (all := ReadCloser_content body).
  assert (Hagain : forall r : outcome bytes,
    captureBody (Some (Some (NopCloser (bytes_NewReader all))), r).1 max =
    captureBody (Some (Some (NopCloser (bytes_NewReader all)))) max) by done.
  assert (Hfresh : captureBody (Some (Some (NopCloser (bytes_NewReader all)))) max =
    (Some (Some (NopCloser (bytes_NewReader all))),
     if Z.of_nat (length all) >? max
     then if max <? 0 then Panic out_of_range else Done (take (Z.to_nat max) all)
     else Done all)).
  { unfold captureBody.
    destruct (io_ReadAll_spec _ ReadCloser_laws (NopCloser (bytes_NewReader all)))
      as (r' & -> & _).
    change (ReadCloser_content (NopCloser (bytes_NewReader all))) with (drop 0 all).
    rewrite drop_0.
    destruct (Z.of_nat (length all) >? max); [destruct (max <? 0)|]; done. }
  destruct (Z.of_nat (length all) >? max) eqn:Hgt; [destruct (max <? 0) eqn:Hlt|];
    rewrite Hagain, Hfresh; rewrite ?Hgt, ?Hlt; done.
Qed.

(** [io.ReadAll] leaves a network body at its end, where every further
    [Read] reports the error the stream ends with. *)
Lemma readAllLoop_stream_end fuel acc (s : stream) :
  (budget s < fuel)%nat ->
  exists s', readAllLoop fuel acc (NetBody s) = Done (acc ++ stream_content s, NetBody s') /\
    chunks s' = [] /\ fin s' = fin s.
Proof.
  pose proof stream_laws as [L M E]. revert acc s.
  induction fuel as [|fuel IH]; intros acc s Hb; [lia|].
  cbn [readAllLoop].
  change (Read (NetBody s) readAllSize)
    with (let '(p, e, s') := Read s readAllSize in (p, e, NetBody s')).
  destruct (Read s readAllSize) as [[p er] s1] eqn:HR.
  assert (Hfin : fin s1 = fin s /\ (er <> None -> chunks s1 = [])).
  { revert HR. unfold Read, stream_Reader, stream_Read.
    destruct (chunks s) as [|c rest] eqn:Hc; intros [= <- <- <-]; simpl; [by rewrite Hc|done]. }
  destruct Hfin as [Hfin Hend]. destruct er as [e|].
  - apply E in HR as [-> _]; [|done]. exists s1. split; [done|]. split; [by apply Hend|done].
  - apply M in HR as [-> Hlt]; [|done].
    destruct (IH (acc ++ p) s1) as (s' & Hrun & Hc & Hf); [lia|].
    exists s'. rewrite Hrun, <- app_assoc. split; [done|]. split; [done|congruence].
Qed.

(** X6: a read error of the body is swallowed.  For a body that breaks
    off with an error after delivering its chunks, [io.ReadAll] ends
    where every further [Read] reports that error, and yet [captureBody]
    returns normally with the clipped bytes received and puts in the
    body's place a reader over those bytes, which only ever reports
    [EOF]: the forwarded request carries the truncated body as if it had
    ended there. *)
Theorem captureBody_swallows_read_error
    (cs : list bytes) (msg : string) (max : Z) (Hmax : 0 <= max) :
  let broken := NetBody {| chunks := cs; fin := ErrOther msg |} in
  let fresh := bytes_NewReader (concat cs) in
  (exists body', io_ReadAll broken = Done (concat cs, body') /\
     forall n, (Read body' n).1.2 = Some (ErrOther msg)) /\
  captureBody (Some (Some broken)) max =
    (Some (Some (NopCloser fresh)), Done (clip max (concat cs))) /\
  (forall (r : bytesReader) n p e rc',
     Read (NopCloser r) n = (p, Some e, rc') -> e = EOF /\ exists r', rc' = NopCloser r').
Proof.
  intros broken fresh. split; [|split].
  - destruct (readAllLoop_stream_end (Datatypes.S (budget {| chunks := cs; fin := ErrOther msg |}))
                [] {| chunks := cs; fin := ErrOther msg |}) as (s' & Hrun & Hc & Hf); [lia|].
    exists (NetBody s'). split; [exact Hrun|].
    intros n. unfold Read, ReadCloser_Reader, Read, stream_Reader, stream_Read.
    rewrite Hc. simpl. by rewrite Hf.
  - unfold broken. rewrite captureBody_some by done. by rewrite clip_take.
  - intros r n p e rc'. unfold Read, ReadCloser_Reader, Read, bytesReader_Reader, bytesReader_Read.
    destruct (length (br_s r) <=? br_i r)%nat; intros [= <- <- <-]; eauto.
Qed.

Lemma captureBody_swallows_read_error_witness :
  let cs := [list_byte_of_string "abc"; list_byte_of_string "def"] in
  let broken := NetBody {| chunks := cs; fin := ErrOther "connection reset" |} in
  let fresh := bytes_NewReader (concat cs) in
  (exists body', io_ReadAll broken = Done (concat cs, body') /\
     forall n, (Read body' n).1.2 = Some (ErrOther "connection reset")) /\
  captureBody (Some (Some broken)) 4 =
    (Some (Some (NopCloser fresh)), Done (clip 4 (concat cs))) /\
  (forall (r : bytesReader) n p e rc',
     Read (NopCloser r) n = (p, Some e, rc') -> e = EOF /\ exists r', rc' = NopCloser r').
Proof.
  apply (captureBody_swallows_read_error
           [list_byte_of_string "abc"; list_byte_of_string "def"] "connection reset" 4).
  lia.
Defined.

(** ** The capture buffers of [slicePool] *)

Lemma append_fits h a k c p :
  Z.of_nat (k + length p) <= c ->
  append h (Slice a k c) p =
    ({| cells := <[a := array_prefix k (cell h a) ++ p ++ drop (k + length p) (cell h a)]>
                   (cells h);
        next := next h |},
     Slice a (k + length p) c).
Proof.
  intros Hfit. unfold append. simpl.
  destruct (Z.leb_spec (Z.of_nat (k + length p)) c); [done|lia].
Qed.

(** One [Read] of the tee over the limited source, for the state of the
    capture buffer: what the buffer holds and what the limit still allows
    never exceed together what they were. *)
Lemma tee_Read_in_place (a : nat) (c : Z) (nx : nat) (h0 : heap)
    (t t' : teeReader (LimitedReader stream) sliceWriter) n p e :
  0 < n -> Read t n = (p, e, t') ->
  (exists k, sw_buf (tee_w t) = Slice a k c /\ Z.of_nat k + lr_N (tee_r t) <= c /\
     next (sw_heap (tee_w t)) = nx /\
     forall a', a' <> a -> cell (sw_heap (tee_w t)) a' = cell h0 a') ->
  exists k, sw_buf (tee_w t') = Slice a k c /\ Z.of_nat k + lr_N (tee_r t') <= c /\
     next (sw_heap (tee_w t')) = nx /\
     forall a', a' <> a -> cell (sw_heap (tee_w t')) a' = cell h0 a'.
Proof.
  pose proof stream_laws as [L _ _].
  intros Hn HR (k & Hbuf & Hroom & Hnx & Hframe).
  destruct t as [[r N] [h b]]. simpl in *. subst b.
  revert HR. unfold Read at 1, teeReader_Reader, teeReader_Read. simpl.
  unfold Read at 1, LimitedReader_Reader, LimitedReader_Read. simpl.
  destruct (Z.leb_spec N 0) as [HN|HN].
  { intros [= <- <- <-]. simpl. eauto. }
  destruct (Read r (if N <? n then N else n)) as [[p0 e0] r0] eqn:HR0.
  assert (Hlen : Z.of_nat (length p0) <= N).
  { apply L in HR0; destruct (Z.ltb_spec N n); lia. }
  intros [= <- <- <-]. simpl.
  destruct (Nat.ltb_spec 0 (length p0)) as [Hp|Hp].
  - unfold Write, sliceWriter_Writer, sliceWriter_Write. simpl.
    rewrite append_fits by lia. simpl.
    exists (k + length p0)%nat. split; [done|]. split; [lia|]. split; [done|].
    intros a' Ha. unfold cell at 1. simpl. rewrite lookup_insert_ne by done. by apply Hframe.
  - simpl. exists k. split; [done|]. split; [lia|]. done.
Qed.



Lemma pooled_ok_grow a k c p h :
  defMaxCaptureKB * 1024 <= c ->
  exists a' k' c',
    (append h (Slice a k c) p).2 = Slice a' k' c' /\ defMaxCaptureKB * 1024 <= c'.
Proof.
  intros Hc. unfold append. simpl.
  destruct (Z.leb_spec (Z.of_nat (k + length p)) c); simpl; eexists _, _, _; split; try done.
  unfold defMaxCaptureKB in *. lia.
Qed.

(** A relay leaves the pool's buffers as [pool_ok] wants them. *)
Lemma streamAndCapture_pool_ok st dst src max st' dst' buf :
  pool_ok st -> streamAndCapture st dst src max = Done (st', dst', buf) -> pool_ok st'.
Proof.
  intros Hok. unfold streamAndCapture. destruct (Z.leb_spec max 0) as [Hmax|Hmax].
  { destruct (io_Copy dst src) as [[d r]| |]; simpl; [|done..]. by intros [= <- _ _]. }
  destruct (slicePool_Get st) as [st1 got] eqn:Hget.
  assert (Hgot : pool_ok st1 /\
            exists a c, reslice0 got = Slice a 0 c /\ defMaxCaptureKB * 1024 <= c).
  { unfold slicePool_Get, pool_ok in *. destruct (slicePool st) as [|s0 rest] eqn:Hpool.
    - simpl in Hget. injection Hget as <- <-. simpl. rewrite Hpool. split; [done|].
      eexists _, _. split; [done|lia].
    - injection Hget as <- <-. simpl. apply Forall_cons in Hok as [(a & c & -> & Hc) Hrest].
      split; [done|]. simpl. eauto. }
  destruct Hgot as (Hok1 & a0 & c0 & Hres & Hc0). rewrite Hres.
  set (tee := {| tee_r := {| lr_R := src; lr_N := max |};
                 tee_w := {| sw_heap := st_heap st1; sw_buf := Slice a0 0 c0 |} |}).
  pose proof (limited_laws _ stream_laws) as Hl.
  pose proof (tee_laws (W:=sliceWriter) _ Hl) as Ht.
  destruct (io_Copy_spec _ Ht rw_body (fun _ => True)
              (fun t : teeReader (LimitedReader stream) sliceWriter =>
                 exists a k c, sw_buf (tee_w t) = Slice a k c /\ defMaxCaptureKB * 1024 <= c)
              dst tee)
    as (d' & tee' & Hrun & _ & _ & _ & (a & k & c & Hbuf & Hc)).
  - done.
  - done.
  - intros [r w] n p e [r' w'] Hn. unfold Read at 1, teeReader_Reader, teeReader_Read. simpl.
    destruct (Read r n) as [[p0 e0] r0]. intros [= <- <- <- <-] (a & k & c & Hbuf & Hc).
    destruct (0 <? length p0)%nat; [|eauto].
    unfold Write, sliceWriter_Writer, sliceWriter_Write. rewrite Hbuf.
    destruct (pooled_ok_grow a k c p0 (sw_heap w) Hc) as (a' & k' & c' & Happ & Hc').
    destruct (append (sw_heap w) (Slice a k c) p0) as [h1 b1]. simpl in *. eauto.
  - done.
  - subst tee. simpl. eauto.
  - fold tee. rewrite Hrun. simpl. intros [= <- _ _]. rewrite Hbuf.
    unfold pool_ok in *. simpl. apply Forall_cons. split; [|done]. eexists _, _. done.
Qed.

Lemma build_payload_slicePool st u b v : slicePool (build_payload st u b v).1 = slicePool st.
Proof. unfold build_payload, bufPool_Get. by destruct (bufPool st). Qed.

(** Every step of a request moves the state in one of the three ways. *)
Lemma step_st_move c e s s' :
  step c e s s' -> sys_st s' = sys_st s \/ st_move c (sys_st s) (sys_st s').
Proof.
  intros Hstep. destruct Hstep as [s s' Hh|s s' Hc|s w src st w' b Hsc].
  - destruct s as [st w req hpc co ch posts tr]. unfold handler_step in Hh. simpl in *.
    destruct hpc as [|b|status v|status|status| | |msg]; [| | | | |done..].
    + destruct (captureBody_req (req_Body req) (maxCapture c)) as [Hcb | [Hcb _]];
        rewrite Hcb in Hh; simpl in Hh.
      * match type of Hh with context [vdbg c ?a st] =>
          destruct (vdbg_Done c a st) as (l & Hv) end.
        rewrite Hv in Hh. simpl in Hh. injection Hh as <-. simpl. right. constructor.
      * injection Hh as <-. by left.
    + destruct (upstream e req) as [resp|err]; [|injection Hh as <-; by left].
      destruct (streamAndCapture st _ (resp_Body resp) (maxCapture c))
        as [[[st1 w1] b1]|msg|] eqn:Hsc; simpl in Hh; [| |done]; injection Hh as <-; simpl.
      * right. by econstructor 2.
      * by left.
    + destruct (ch_closed ch); simpl in Hh; [injection Hh as <-; by left|].
      destruct (ch_buf ch); simpl in Hh; [|done]. injection Hh as <-. by left.
    + destruct (ch_closed ch); simpl in Hh; injection Hh as <-; by left.
    + match type of Hh with context [always ?a st] =>
        destruct (always_Done a st) as (l & Hv) end.
      rewrite Hv in Hh. injection Hh as <-. simpl. right. constructor.
  - destruct s as [st w req hpc co ch posts tr]. unfold co_step in Hc. simpl in *.
    destruct co as [|b|b v|p|p err|]; try done.
    + destruct (ch_buf ch); [destruct (ch_closed ch); [|done]|];
        simpl in Hc; injection Hc as <-; by left.
    + destruct (build_payload st (req_URL req) b v) as [st1 p] eqn:Hbp.
      injection Hc as <-. simpl. right.
      replace st1 with (build_payload st (req_URL req) b v).1 by by rewrite Hbp.
      constructor.
    + injection Hc as <-. by left.
    + match type of Hc with context [vdbg c ?a st] =>
        destruct (vdbg_Done c a st) as (l & Hv) end.
      rewrite Hv in Hc. injection Hc as <-. simpl. right. constructor.
  - simpl. right. by econstructor 2.
Qed.

(** X8: the pool never holds a buffer smaller than the one [New]
    allocates.  From a state whose pooled buffers are arrays cut to
    length 0 with a capacity of at least 256 KiB (the empty pool of a
    fresh process is one), every state any execution of a request reaches
    (the handler, its delivery task and other requests interleaved) is
    such a state again, whatever the capture limit and the bodies. *)
Theorem slicePool_buffers_stay_large c e st w0 req0 s
    (Hok : pool_ok st) (Hreach : rtc (step c e) (init_system st w0 req0) s) :
  pool_ok (sys_st s).
Proof.
  apply (rtc_ind_r (R:=step c e) (fun s => pool_ok (sys_st s)) (init_system st w0 req0));
    [exact Hok| |exact Hreach].
  intros y z _ Hstep Hy. destruct (step_st_move c e y z Hstep) as [-> | Hmv]; [done|].
  destruct Hmv as [st0 l|st0 w src st1 w1 b Hsc|st0 u b v].
  - exact Hy.
  - by eapply streamAndCapture_pool_ok.
  - unfold pool_ok. by rewrite build_payload_slicePool.
Qed.

Lemma slicePool_buffers_stay_large_witness :
  pool_ok (sys_st (serve demo_cfg demo_env logged_state demo_req)).
Proof.
  apply (slicePool_buffers_stay_large demo_cfg demo_env logged_state new_ResponseWriter demo_req).
  - apply Forall_nil_2.
  - apply run_reachable.
Defined.

(** ** The steps of a request, and induction over its executions *)

Lemma inv_co_cases c e w0 req0 s :
  inv c e w0 req0 s ->
  (pre_send s /\ (sys_co s = CoNone \/ exists b, sys_co s = CoWaiting b)) \/
  (exists v, co_inv c e req0 s v).
Proof.
  intros [_ Hinv]. destruct (sys_hpc s);
    repeat match goal with
    | H : _ /\ _ |- _ => destruct H
    | H : exists _, _ |- _ => destruct H
    end; eauto 10.
Qed.

(** Under the invariant, a step is one of the transitions. *)
Lemma step_transition c e w0 req0 y z :
  inv c e w0 req0 y -> step c e y z -> transition c e req0 y z.
Proof.
  intros Hinv Hstep. pose proof Hinv as [Hu Hpc_inv].
  destruct Hstep as [y z Hh|y z Hc|y w src st w' b Hsc].
  - unfold handler_step in Hh.
    destruct (sys_hpc y) as [|b|k v|k|k| | |msg] eqn:Hpc; [| | | | |done..].
    + destruct Hpc_inv as (Hreq & _). rewrite Hreq in Hh.
      destruct (captureBody_req (req_Body req0) (maxCapture c)) as [Hcb|[Hcb Hneg]];
        rewrite Hcb in Hh; simpl in Hh.
      * match type of Hh with context [vdbg c ?a (sys_st y)] =>
          destruct (vdbg_Done c a (sys_st y)) as (l & Hv) end.
        rewrite Hv in Hh. simpl in Hh. injection Hh as <-.
        exact (t_capture c e req0 y _ Hpc Hv).
      * injection Hh as <-. apply (t_capture_panic c e req0 y Hpc Hneg).
        intros Hnone. rewrite Hnone in Hcb. unfold captureBody in Hcb. discriminate.
    + destruct Hpc_inv as (Hreq & _). rewrite Hreq in Hh.
      destruct (upstream e (forwarded req0)) as [resp|err] eqn:Hup.
      * destruct (streamAndCapture_relay (sys_st y)
            (WriteHeader (copy_headers (sys_w y) (resp_Header resp)) (StatusCode resp))
            (resp_Body resp) (maxCapture c)) as (st1 & w1 & buf & Hsc & _).
        rewrite Hsc in Hh. injection Hh as <-.
        exact (t_relay c e req0 y b resp st1 w1 buf Hpc Hup Hsc).
      * injection Hh as <-. exact (t_upstream_failed c e req0 y b err Hpc Hup).
    + destruct Hpc_inv as (_ & _ & (Hch & _) & _). rewrite Hch in Hh. simpl in Hh.
      injection Hh as <-. exact (t_send c e req0 y k v Hpc Hch).
    + destruct Hpc_inv as (_ & Hcl & _). rewrite Hcl in Hh.
      injection Hh as <-. exact (t_close c e req0 y k Hpc Hcl).
    + rewrite Hu in Hh.
      match type of Hh with context [always ?a (sys_st y)] =>
        destruct (always_Done a (sys_st y)) as (l & Hv) end.
      rewrite Hv in Hh. injection Hh as <-. exact (t_return c e req0 y k _ Hpc Hv).
  - unfold co_step in Hc.
    destruct (sys_co y) as [|b|b v|p|p err|] eqn:Hco; [done| | | | |done].
    + destruct (inv_co_cases _ _ _ _ _ Hinv) as [[(Hch & _) _]|[v Hv]].
      { rewrite Hch in Hc. done. }
      unfold co_inv in Hv. rewrite Hco in Hv. destruct Hv as (_ & Hbuf & _).
      rewrite Hbuf in Hc. injection Hc as <-. exact (t_receive c e req0 y b v Hco Hbuf).
    + rewrite Hu in Hc. pose proof (t_build c e req0 y b v Hco) as Ht.
      destruct (build_payload (sys_st y) (req_URL req0) b v) as [st1 p].
      injection Hc as <-. exact Ht.
    + injection Hc as <-. exact (t_post c e req0 y p Hco).
    + match type of Hc with context [vdbg c ?a (sys_st y)] =>
        destruct (vdbg_Done c a (sys_st y)) as (l & Hv) end.
      rewrite Hv in Hc. injection Hc as <-. exact (t_posted c e req0 y p err _ Hco Hv).
  - exact (t_other c e req0 y w src st w' b Hsc).
Qed.

(** Induction over the executions of a request: a property of the start
    that every transition from a state of the invariant preserves holds
    of every state reached. *)
Lemma reachable_ind c e st w0 req0 (P : system -> Prop) :
  P (init_system st w0 req0) ->
  (forall y z, inv c e w0 req0 y -> P y -> transition c e req0 y z -> P z) ->
  forall s, rtc (step c e) (init_system st w0 req0) s -> P s.
Proof.
  intros H0 Hstep s Hr.
  cut (inv c e w0 req0 s /\ P s); [tauto|].
  apply (rtc_ind_r (R:=step c e) (fun s => inv c e w0 req0 s /\ P s) (init_system st w0 req0));
    [split; [apply inv_init|done]| |done].
  intros y z _ Hs [Hinv Hp]. split; [by eapply inv_step|].
  eapply Hstep; eauto. by eapply step_transition.
Qed.

(** ** The caller's response, the panics and the log of a request *)

Lemma copy_headers_head w h :
  rw_header (copy_headers w h) = rw_header w ++ flat_headers h /\
  rw_status (copy_headers w h) = rw_status w.
Proof.
  unfold copy_headers, flat_headers. revert w.
  induction h as [|[k vs] h IH]; intros w; simpl; [by rewrite app_nil_r|].
  destruct (IH (foldl (fun w v => Header_Add w k v) w vs)) as [-> ->]. clear IH.
  assert (Hin : forall w,
    rw_header (foldl (fun w v => Header_Add w k v) w vs) =
      rw_header w ++ ((fun v => (k, v)) <$> vs) /\
    rw_status (foldl (fun w v => Header_Add w k v) w vs) = rw_status w).
  { induction vs as [|v vs IH]; intros w1; simpl; [by rewrite app_nil_r|].
    destruct (IH (Header_Add w1 k v)) as [-> ->]. simpl. by rewrite <- app_assoc. }
  destruct (Hin w) as [-> ->]. by rewrite <- app_assoc.
Qed.

(** The relay of an upstream answer ends with the caller holding
    [upstream_reply]. *)
Lemma streamAndCapture_reply c st w0 resp :
  exists st' buf,
    streamAndCapture st (WriteHeader (copy_headers w0 (resp_Header resp)) (StatusCode resp))
      (resp_Body resp) (maxCapture c) = Done (st', upstream_reply c w0 resp, buf) /\
    slice_bytes (st_heap st') buf = clip (maxCapture c) (stream_content (resp_Body resp)) /\
    logger st' = logger st.
Proof.
  set (dst := WriteHeader (copy_headers w0 (resp_Header resp)) (StatusCode resp)).
  assert (Hreply : forall dst', same_head dst dst' ->
    rw_body dst' = rw_body dst ++ relayed c resp -> dst' = upstream_reply c w0 resp).
  { intros [h s b] (Hh & Hs & _) Hb. simpl in *. unfold upstream_reply.
    destruct (copy_headers_head w0 (resp_Header resp)) as [Hch Hcs].
    subst dst. unfold WriteHeader in *. simpl in *.
    rewrite Hh, Hch, Hb, (Hs _ eq_refl), Hcs, rw_body_copy_headers. done. }
  unfold relayed in Hreply.
  destruct (Z.ltb_spec 0 (maxCapture c)) as [Hmax|Hmax].
  - destruct (streamAndCapture_capture st dst (resp_Body resp) (maxCapture c) Hmax)
      as (st' & dst' & buf & Hrun & Hd & Hbuf & _ & _ & Hl & Hhead).
    exists st', buf. rewrite Hrun, (Hreply dst' Hhead); [|by rewrite Hd, clip_take by lia].
    rewrite clip_take by lia. done.
  - destruct (streamAndCapture_passthrough st dst (resp_Body resp) (maxCapture c) Hmax)
      as (dst' & Hrun & Hd & Hhead).
    exists st, nil_slice. rewrite Hrun, (Hreply dst' Hhead Hd).
    split; [done|]. split; [|done].
    unfold clip. replace (Z.to_nat _) with 0%nat by lia. done.
Qed.

Lemma vdbg_logger c v st st1 L :
  vdbg c v st = Done st1 -> logger st = Some L ->
  logger st1 = Some (if verbose c then L ++ [(LvDebug, AStr tag :: v)] else L).
Proof.
  unfold vdbg, logger_call. intros Hv HL. rewrite HL in Hv.
  destruct (verbose c); simpl in Hv; injection Hv as <-; done.
Qed.

Lemma always_logger v st st1 L :
  always v st = Done st1 -> logger st = Some L ->
  logger st1 = Some (L ++ [(LvDebug, AStr tag :: v)]).
Proof.
  unfold always, logger_call. intros Hv HL. rewrite HL in Hv.
  simpl in Hv. injection Hv as <-. done.
Qed.

Section PathFacts.
Variables (c : cfg) (e : env) (st0 : state) (w0 : ResponseWriter) (req0 : Request).

Lemma reply_shape_step y z :
  reply_shape c e w0 req0 y -> transition c e req0 y z -> reply_shape c e w0 req0 z.
Proof.
  unfold reply_shape. intros Hy Ht.
  destruct Ht as [s st1 Hpc Hv|s Hpc Hneg Hb|s b err Hpc Hup|s b resp st1 w1 buf Hpc Hup Hsc
                 |s k v Hpc Hch|s k Hpc Hcl|s k st1 Hpc Hv|s b v Hco Hbuf|s b v Hco|s p Hco
                 |s p err st1 Hco Hv|s w src st1 w1 b Hsc];
    simpl; try rewrite Hpc in Hy; try exact Hy.
  - exists err. by rewrite Hy.
  - exists resp. split; [done|]. split; [done|]. rewrite Hy in Hsc.
    destruct (streamAndCapture_reply c (sys_st s) w0 resp) as (st' & buf' & Hrun & _).
    congruence.
  - destruct Hy as (resp & Hup & _ & Hw). eauto.
Qed.

Lemma panic_cause_step y z :
  panic_cause c req0 y -> transition c e req0 y z -> panic_cause c req0 z.
Proof.
  unfold panic_cause. intros Hy Ht.
  destruct Ht; simpl; try exact Hy; try (intros msg Hmsg; discriminate).
  intros msg _. done.
Qed.

Lemma post_result_step y z :
  post_result c e y -> transition c e req0 y z -> post_result c e z.
Proof.
  unfold post_result. intros Hy Ht.
  destruct Ht; simpl; try exact Hy; try (intros p0 err0 Hp; discriminate).
  intros p0 err0 [= <- <-]. done.
Qed.

End PathFacts.

Section LogFacts.
Variables (c : cfg) (e : env) (st0 : state) (w0 : ResponseWriter) (req0 : Request).

Lemma handler_lines_same pc pc' :
  started pc = started pc' -> pc <> HReturned -> pc' <> HReturned ->
  handler_lines c e req0 pc = handler_lines c e req0 pc'.
Proof.
  intros Hs H1 H2. unfold handler_lines. rewrite Hs. f_equal.
  destruct pc, pc'; done.
Qed.

Lemma log_shape_step y z :
  inv c e w0 req0 y -> reply_shape c e w0 req0 y -> post_result c e y ->
  log_shape c e st0 req0 y -> transition c e req0 y z -> log_shape c e st0 req0 z.
Proof.
  intros Hinv Hreply Hpost Hlog Ht l Hl.
  destruct (Hlog l Hl) as (before & after & Hlg & Hlines). clear Hlog.
  destruct Ht as [s st1 Hpc Hv|s Hpc Hneg Hb|s b err Hpc Hup|s b resp st1 w1 buf Hpc Hup Hsc
                 |s k v Hpc Hch|s k Hpc Hcl|s k st1 Hpc Hv|s b v Hco Hbuf|s b v Hco|s p Hco
                 |s p err st1 Hco Hv|s w src st1 w1 b Hsc].
  - (* captureBody and the first line *)
    destruct Hinv as [_ Hi]. rewrite Hpc in Hi. destruct Hi as (_ & _ & Hco & _).
    rewrite Hpc in Hlines. unfold handler_lines in Hlines. simpl in Hlines.
    rewrite andb_false_r in Hlines. simpl in Hlines.
    apply app_eq_nil in Hlines as [-> ->].
    unfold delivery_lines in *. rewrite Hco in Hlg. simpl.
    assert (HL : logger (sys_st s) = Some l).
    { rewrite Hlg. destruct (verbose c); simpl; by rewrite ?app_nil_r. }
    rewrite (vdbg_logger _ _ _ _ _ Hv HL). unfold handler_lines. simpl.
    destruct (verbose c); simpl.
    + exists [reqB_line c req0], []. done.
    + exists [], []. by rewrite app_nil_r.
  - (* the panic of captureBody *)
    exists before, after. split; [exact Hlg|].
    rewrite Hlines, Hpc. by apply handler_lines_same.
  - (* the upstream call failed *)
    exists before, after. split; [exact Hlg|].
    rewrite Hlines, Hpc. by apply handler_lines_same.
  - (* the relay *)
    exists before, after. split.
    + simpl. rewrite (streamAndCapture_logger _ _ _ _ _ _ _ Hsc). exact Hlg.
    + rewrite Hlines, Hpc. by apply handler_lines_same.
  - exists before, after. split; [exact Hlg|].
    rewrite Hlines, Hpc. by apply handler_lines_same.
  - exists before, after. split; [exact Hlg|].
    rewrite Hlines, Hpc. by apply handler_lines_same.
  - (* the completion line *)
    unfold reply_shape in Hreply. rewrite Hpc in Hreply.
    destruct Hreply as (resp & Hup & -> & _).
    exists before, (after ++ [completion_line e req0 (StatusCode resp)]). split.
    + simpl. rewrite (always_logger _ _ _ _ Hv Hlg).
      unfold delivery_lines. simpl. by rewrite <- !app_assoc.
    + rewrite app_assoc, Hlines, Hpc. unfold handler_lines. simpl. rewrite Hup.
      by rewrite app_nil_r.
  - (* the receive *)
    exists before, after. split; [|exact Hlines].
    revert Hlg. unfold delivery_lines. simpl. rewrite Hco. done.
  - (* the payload *)
    exists before, after. split; [|exact Hlines].
    revert Hlg. unfold delivery_lines. simpl. rewrite Hco, logger_build_payload. done.
  - (* the POST *)
    exists before, after. split; [|exact Hlines].
    revert Hlg. unfold delivery_lines. simpl. rewrite Hco. done.
  - (* the line of the delivery task *)
    assert (Hposts : sys_posts s = [new_post c p]).
    { destruct (inv_co_cases _ _ _ _ _ Hinv) as [[_ [Hn|[b Hn]]]|[v Hv']];
        [congruence|congruence|].
      unfold co_inv in Hv'. rewrite Hco in Hv'. by destruct Hv' as (_ & Hp & _). }
    pose proof (Hpost p err Hco) as ->.
    revert Hlg. unfold delivery_lines. simpl. rewrite Hco, Hposts. intros Hlg.
    assert (HL : logger (sys_st s) = Some (l ++ before ++ after)).
    { rewrite Hlg. by destruct (verbose c). }
    rewrite (vdbg_logger _ _ _ _ _ Hv HL).
    exists (before ++ after), []. split; [|by rewrite app_nil_r].
    destruct (verbose c); simpl; rewrite ?app_nil_r; [|done].
    unfold post_line, new_post. simpl. by rewrite <- !app_assoc.
  - (* another request *)
    exists before, after. split; [|exact Hlines].
    simpl. rewrite (streamAndCapture_logger _ _ _ _ _ _ _ Hsc). exact Hlg.
Qed.

Lemma path_inv_reachable s :
  rtc (step c e) (init_system st0 w0 req0) s -> path_inv c e st0 w0 req0 s.
Proof.
  apply reachable_ind.
  - unfold path_inv, reply_shape, panic_cause, post_result, log_shape. simpl.
    split; [done|]. split; [done|]. split; [done|].
    intros l Hl. exists [], []. unfold delivery_lines, handler_lines. simpl.
    rewrite andb_false_r. destruct (verbose c); simpl; by rewrite Hl, app_nil_r.
  - intros y z Hinv (Hr & Hp & Hpr & Hl) Ht.
    split; [by eapply reply_shape_step|]. split; [by eapply panic_cause_step|].
    split; [by eapply post_result_step|]. by eapply log_shape_step.
Qed.

End LogFacts.

Lemma vdbg_eq c v st :
  vdbg c v st =
    Done (if verbose c
          then match logger st with
               | Some l => set_logger (Some (l ++ [(LvDebug, AStr tag :: v)])) st
               | None => st
               end
          else st).
Proof. unfold vdbg, logger_call. destruct (verbose c), (logger st); done. Qed.

Lemma always_eq v st :
  always v st =
    Done match logger st with
         | Some l => set_logger (Some (l ++ [(LvDebug, AStr tag :: v)])) st
         | None => st
         end.
Proof. unfold always, logger_call. destruct (logger st); done. Qed.

(** Where the handler has not returned or panicked it has a next step. *)
Lemma handler_progress c e st w0 req0 s :
  rtc (step c e) (init_system st w0 req0) s ->
  match sys_hpc s with
  | HReturned | HFailed | HPanicked _ => handler_step c e s = None
  | _ => exists s', handler_step c e s = Some s'
  end.
Proof.
  intros Hreach. destruct (inv_reachable c e w0 req0 st s Hreach) as [Hu Hinv].
  unfold handler_step. destruct (sys_hpc s) as [|b|k v|k|k| | |msg]; [| | | | |done..].
  - destruct Hinv as (Hreq & _). rewrite Hreq.
    destruct (captureBody_req (req_Body req0) (maxCapture c)) as [-> | [-> _]]; simpl; [|eauto].
    rewrite vdbg_eq. simpl. eauto.
  - destruct (upstream e (sys_req s)) as [resp|err]; [|eauto].
    destruct (streamAndCapture_relay (sys_st s)
        (WriteHeader (copy_headers (sys_w s) (resp_Header resp)) (StatusCode resp))
        (resp_Body resp) (maxCapture c)) as (st1 & w1 & buf & -> & _).
    eauto.
  - destruct Hinv as (_ & _ & (-> & _) & _). simpl. eauto.
  - destruct (ch_closed (sys_ch s)); eauto.
  - rewrite always_eq. eauto.
Qed.

(** X9: the handler never waits.  In every state an execution of a
    request reaches, whatever the delivery task has or has not done and
    whatever other requests did in between, the handler can take its next
    step until it has returned or panicked: the send finds the channel
    empty and open, the close finds it open, and neither the tracking
    endpoint nor the delivery task is waited for. *)
Theorem handler_never_blocks c e st w0 req0 s
    (Hreach : rtc (step c e) (init_system st w0 req0) s) :
  match sys_hpc s with
  | HReturned | HFailed | HPanicked _ => handler_step c e s = None
  | _ => exists s', handler_step c e s = Some s'
  end.
Proof. exact (handler_progress c e st w0 req0 s Hreach). Qed.

Lemma handler_never_blocks_witness :
  match sys_hpc (run demo_cfg demo_env 3
                   (init_system logged_state new_ResponseWriter demo_req)) with
  | HReturned | HFailed | HPanicked _ =>
      handler_step demo_cfg demo_env
        (run demo_cfg demo_env 3 (init_system logged_state new_ResponseWriter demo_req)) = None
  | _ => exists s',
      handler_step demo_cfg demo_env
        (run demo_cfg demo_env 3 (init_system logged_state new_ResponseWriter demo_req)) = Some s'
  end.
Proof.
  apply (handler_never_blocks demo_cfg demo_env logged_state new_ResponseWriter demo_req).
  apply run_reachable.
Defined.



(** X11: what the caller holds, in every execution.  Until the upstream
    has answered, the handler has written nothing; once the relay is over
    the caller holds the upstream's header lines after its own (each value
    with its key, in the order of the loops), the upstream's status, and
    the relayed body, and nothing the delivery task, the tracking
    endpoint, the pools or other requests do changes it afterwards; after
    a failed upstream call it holds the answer of [http.Error]. *)
Theorem caller_receives_upstream_reply c e st w0 req0 s
    (Hreach : rtc (step c e) (init_system st w0 req0) s) :
  match sys_hpc s with
  | HInit | HSpawned _ | HPanicked _ => sys_w s = w0
  | HFailed =>
      exists err, upstream e (forwarded req0) = inr err /\
        sys_w s = http_Error w0 err StatusBadGateway
  | _ =>
      exists resp, upstream e (forwarded req0) = inl resp /\
        rw_header (sys_w s) = rw_header w0 ++ flat_headers (resp_Header resp) /\
        rw_status (sys_w s) = Some (default (StatusCode resp) (rw_status w0)) /\
        rw_body (sys_w s) = rw_body w0 ++ relayed c resp
  end.
Proof.
  destruct (path_inv_reachable c e st w0 req0 s Hreach) as (Hreply & _).
  unfold reply_shape in Hreply.
  destruct (sys_hpc s); try exact Hreply.
  1-3: destruct Hreply as (resp & Hup & _ & ->); exists resp; done.
  destruct Hreply as (resp & Hup & ->). exists resp. done.
Qed.

Lemma caller_receives_upstream_reply_witness :
  match sys_hpc (serve demo_cfg demo_env logged_state demo_req) with
  | HInit | HSpawned _ | HPanicked _ =>
      sys_w (serve demo_cfg demo_env logged_state demo_req) = new_ResponseWriter
  | HFailed =>
      exists err, upstream demo_env (forwarded demo_req) = inr err /\
        sys_w (serve demo_cfg demo_env logged_state demo_req)
          = http_Error new_ResponseWriter err StatusBadGateway
  | _ =>
      exists resp, upstream demo_env (forwarded demo_req) = inl resp /\
        rw_header (sys_w (serve demo_cfg demo_env logged_state demo_req))
          = rw_header new_ResponseWriter ++ flat_headers (resp_Header resp) /\
        rw_status (sys_w (serve demo_cfg demo_env logged_state demo_req))
          = Some (default (StatusCode resp) (rw_status new_ResponseWriter)) /\
        rw_body (sys_w (serve demo_cfg demo_env logged_state demo_req))
          = rw_body new_ResponseWriter ++ relayed demo_cfg resp
  end.
Proof.
  apply (caller_receives_upstream_reply demo_cfg demo_env logged_state new_ResponseWriter
           demo_req).
  apply run_reachable.
Defined.

(** ** The tracking POST and the log, in every execution *)

(** X12: at most one tracking POST is made for a request, it goes to the
    configured tracking URL with the configured timeout as its deadline
    and [text/plain] as its content type, its body is the payload of the
    request (with the captured response bytes when no other request ran
    in between), and it is made only after the relay of the response to
    the caller is over; a POST the endpoint fails is not made again. *)
Theorem at_most_one_post_after_the_relay c e st w0 req0 s
    (Hreach : rtc (step c e) (init_system st w0 req0) s) :
  (length (sys_posts s) <= 1)%nat /\
  (forall p, p ∈ sys_posts s ->
     post_url p = URL_String (url c) /\ post_deadline p = timeout c /\
     post_header p = [("Content-Type", "text/plain")] /\
     exists x, post_body p = payload_for c req0 x /\
       (alone (sys_trace s) -> x = response_capture c e req0)) /\
  (sys_posts s <> [] ->
     exists resp, upstream e (forwarded req0) = inl resp /\
       rw_body (sys_w s) = rw_body w0 ++ relayed c resp).
Proof.
  pose proof (inv_reachable c e w0 req0 st s Hreach) as Hinv.
  destruct (inv_handoff _ _ _ _ _ Hinv) as (v & x & _ & Hposts & _ & Hacc).
  split; [|split].
  - apply prefix_length in Hposts. exact Hposts.
  - intros p Hp. destruct Hposts as [k Hk].
    destruct (sys_posts s) as [|p0 [|p1 rest]]; simplify_eq/=.
    + by apply elem_of_nil in Hp.
    + apply list_elem_of_singleton in Hp as ->. unfold new_post. simpl.
      split; [done|]. split; [done|]. split; [done|]. exists x. done.
  - intros Hne. destruct Hinv as [_ Hinv]. unfold pre_send in Hinv.
    destruct (sys_hpc s);
      repeat match goal with
      | H : _ /\ _ |- _ => destruct H
      end; try done.
Qed.

Lemma at_most_one_post_after_the_relay_witness :
  let s := serve demo_cfg demo_env logged_state demo_req in
  (length (sys_posts s) <= 1)%nat /\
  (forall p, p ∈ sys_posts s ->
     post_url p = URL_String (url demo_cfg) /\ post_deadline p = timeout demo_cfg /\
     post_header p = [("Content-Type", "text/plain")] /\
     exists x, post_body p = payload_for demo_cfg demo_req x /\
       (alone (sys_trace s) -> x = response_capture demo_cfg demo_env demo_req)) /\
  (sys_posts s <> [] ->
     exists resp, upstream demo_env (forwarded demo_req) = inl resp /\
       rw_body (sys_w s) = rw_body new_ResponseWriter ++ relayed demo_cfg resp).
Proof.
  apply (at_most_one_post_after_the_relay demo_cfg demo_env logged_state new_ResponseWriter
           demo_req).
  apply run_reachable.
Defined.

Lemma tagged_debug_handler_lines c e req0 pc : Forall tagged_debug (handler_lines c e req0 pc).
Proof.
  unfold handler_lines. apply Forall_app. split.
  - destruct (verbose c && started pc); [|done]. by repeat constructor.
  - destruct pc; try done. destruct (upstream e (forwarded req0)); [|done]. by repeat constructor.
Qed.

Lemma length_handler_lines c e req0 pc : (length (handler_lines c e req0 pc) <= 2)%nat.
Proof.
  unfold handler_lines. rewrite length_app.
  destruct (verbose c && started pc); destruct pc; simpl; try lia;
    destruct (upstream e (forwarded req0)); simpl; lia.
Qed.

(** X13: the log of a request.  With a logger injected, the entries a
    request adds to it in any execution are the handler's lines in their
    order (the size of the request capture when verbose, then the
    completion line once the handler has returned) with the delivery
    task's line (the POST's result, when verbose and once the task has
    returned) somewhere among them: at most three entries, all at debug
    level and starting with the tag.  With verbose off the only entry is
    the completion line, which carries the tag twice, and a request
    whose upstream call failed logs nothing. *)
Theorem request_log_lines c e st l w0 req0 s
    (Hlog : logger st = Some l)
    (Hreach : rtc (step c e) (init_system st w0 req0) s) :
  (exists before after,
     logger (sys_st s) = Some (l ++ before ++ delivery_lines c e s ++ after) /\
     before ++ after = handler_lines c e req0 (sys_hpc s)) /\
  (exists es, logger (sys_st s) = Some (l ++ es) /\
     Forall tagged_debug es /\ (length es <= 3)%nat) /\
  (verbose c = false ->
     logger (sys_st s) =
       Some (l ++ match sys_hpc s with
                  | HReturned =>
                      match upstream e (forwarded req0) with
                      | inl resp => [completion_line e req0 (StatusCode resp)]
                      | inr _ => []
                      end
                  | _ => []
                  end)).
Proof.
  destruct (path_inv_reachable c e st w0 req0 s Hreach) as (_ & _ & _ & Hshape).
  destruct (Hshape l Hlog) as (before & after & Hlg & Hlines).
  pose proof (inv_reachable c e w0 req0 st s Hreach) as Hinv.
  destruct (inv_handoff _ _ _ _ _ Hinv) as (v & x & _ & Hposts & _).
  apply prefix_length in Hposts. simpl in Hposts.
  split; [eauto|]. split.
  - exists (before ++ delivery_lines c e s ++ after). split; [done|].
    pose proof (tagged_debug_handler_lines c e req0 (sys_hpc s)) as Htag.
    pose proof (length_handler_lines c e req0 (sys_hpc s)) as Hlen.
    rewrite <- Hlines in Htag, Hlen. apply Forall_app in Htag as [Hb Ha].
    rewrite length_app in Hlen.
    assert (Hd : Forall tagged_debug (delivery_lines c e s) /\
                 (length (delivery_lines c e s) <= 1)%nat).
    { unfold delivery_lines. destruct (verbose c); [|split; [done|simpl; lia]].
      destruct (sys_co s); try (split; [done|simpl; lia]).
      rewrite length_fmap. split; [|done].
      apply Forall_fmap, Forall_forall. intros p _. unfold post_line. by split. }
    destruct Hd as [Hd Hdl]. split.
    + repeat (apply Forall_app; split); done.
    + rewrite !length_app. lia.
  - intros Hv. rewrite Hlg. unfold delivery_lines, handler_lines in *.
    rewrite Hv in *. simpl in *. rewrite Hlines. done.
Qed.

Lemma request_log_lines_witness :
  let c := with_verbose demo_cfg true in
  let s := serve c demo_env logged_state demo_req in
  (exists before after,
     logger (sys_st s) = Some ([] ++ before ++ delivery_lines c demo_env s ++ after) /\
     before ++ after = handler_lines c demo_env demo_req (sys_hpc s)) /\
  (exists es, logger (sys_st s) = Some ([] ++ es) /\
     Forall tagged_debug es /\ (length es <= 3)%nat) /\
  (verbose c = false ->
     logger (sys_st s) =
       Some ([] ++ match sys_hpc s with
                   | HReturned =>
                       match upstream demo_env (forwarded demo_req) with
                       | inl resp => [completion_line demo_env demo_req (StatusCode resp)]
                       | inr _ => []
                       end
                   | _ => []
                   end)).
Proof.
  apply (request_log_lines (with_verbose demo_cfg true) demo_env logged_state []
           new_ResponseWriter demo_req).
  - reflexivity.
  - apply run_reachable.
Defined.

(** ** A request served alone, from the first step to the last *)




(** ** Capture switched off *)

Lemma clip_nonpos max b : max <= 0 -> clip max b = [].
Proof. intros Hmax. unfold clip. replace (Z.to_nat _) with 0%nat by lia. done. Qed.

Section CaptureOff.
Variables (c : cfg) (e : env) (st0 : state) (w0 : ResponseWriter) (req0 : Request).
Hypothesis Hoff : maxCapture c <= 0.

Lemma request_capture_off : request_capture c req0 = [].
Proof.
  unfold request_capture, body_capture. destruct (req_Body req0); [|done].
  by apply clip_nonpos.
Qed.

Lemma streamAndCapture_off st w src st1 w1 b :
  streamAndCapture st w src (maxCapture c) = Done (st1, w1, b) -> st1 = st /\ b = nil_slice.
Proof.
  destruct (streamAndCapture_passthrough st w src (maxCapture c) Hoff) as (dst' & -> & _).
  by intros [= <- _ <-].
Qed.

Lemma capture_off_step y z :
  capture_off c st0 req0 y -> transition c e req0 y z -> capture_off c st0 req0 z.
Proof.
  unfold capture_off.
  intros (Hst & Hch & Hrecv & Hwait & Hbuilt & Htr & Hposts & Hpool & Hheap) Ht.
  destruct Ht as [s st1 Hpc Hv|s Hpc Hneg Hb|s b err Hpc Hup|s b resp st1 w1 buf Hpc Hup Hsc
                 |s k v Hpc Hch'|s k Hpc Hcl|s k st1 Hpc Hv|s b v Hco Hbuf|s b v Hco|s p Hco
                 |s p err st1 Hco Hv|s w src st1 w1 b Hsc]; simpl.
  - rewrite vdbg_eq in Hv. injection Hv as <-.
    split_and!; try done.
    + intros v Hin. by apply elem_of_nil in Hin.
    + intros b [= <-]. apply request_capture_off.
    + intros q Hq. apply elem_of_app in Hq as [Hq|Hq]; [by apply Htr|].
      apply list_elem_of_singleton in Hq. done.
    + destruct (verbose c), (logger (sys_st s)); done.
    + destruct (verbose c), (logger (sys_st s)); done.
  - split_and!; done.
  - split_and!; done.
  - apply streamAndCapture_off in Hsc as [-> ->]. split_and!; try done.
    by intros k v [= _ <-].
  - split_and!; try done.
    + intros v' Hin. apply list_elem_of_singleton in Hin as ->. by eapply Hst.
    + intros q Hq. apply elem_of_app in Hq as [Hq|Hq]; [by apply Htr|].
      apply list_elem_of_singleton in Hq. done.
  - split_and!; try done.
    intros q Hq. apply elem_of_app in Hq as [Hq|Hq]; [by apply Htr|].
    apply list_elem_of_singleton in Hq. done.
  - rewrite always_eq in Hv. injection Hv as <-.
    split_and!; try done; destruct (logger (sys_st s)); done.
  - split_and!; try done.
    + intros v' Hin. by apply elem_of_nil in Hin.
    + intros b' v' [= <- <-]. split; [by eapply Hwait|]. apply Hch. rewrite Hbuf. by left.
    + intros q Hq. apply elem_of_app in Hq as [Hq|Hq]; [by apply Htr|].
      apply list_elem_of_singleton in Hq. done.
  - destruct (Hrecv b v Hco) as [-> ->].
    assert (Hp : (build_payload (sys_st s) (req_URL req0) [] nil_slice).2 = uncaptured req0)
      by (rewrite build_payload_format; done).
    split_and!; try done.
    + by intros p [= <-].
    + intros q Hq. apply elem_of_app in Hq as [Hq|Hq]; [by apply Htr|].
      apply list_elem_of_singleton in Hq as [= ->]. done.
    + by rewrite build_payload_slicePool.
    + by rewrite st_heap_build_payload.
  - split_and!; try done.
    + intros q Hq. apply elem_of_app in Hq as [Hq|Hq]; [by apply Htr|].
      apply list_elem_of_singleton in Hq. done.
    + intros p' Hp'. apply elem_of_app in Hp' as [Hp'|Hp']; [by apply Hposts|].
      apply list_elem_of_singleton in Hp' as ->. by rewrite (Hbuilt p Hco).
  - rewrite vdbg_eq in Hv. injection Hv as <-. rewrite app_nil_r.
    split_and!; try done; destruct (verbose c), (logger (sys_st s)); done.
  - apply streamAndCapture_off in Hsc as [-> _]. split_and!; try done.
    intros q Hq. apply elem_of_app in Hq as [Hq|Hq]; [by apply Htr|].
    apply list_elem_of_singleton in Hq. done.
Qed.

Lemma capture_off_reachable s :
  rtc (step c e) (init_system st0 w0 req0) s -> capture_off c st0 req0 s.
Proof.
  apply reachable_ind.
  - unfold capture_off. simpl. split_and!; try done; intros ? Hin; by apply elem_of_nil in Hin.
  - intros y z _ Hy Ht. by eapply capture_off_step.
Qed.

End CaptureOff.

(** X15: capture switched off.  With a capture limit [<= 0] (a
    [max_capture_kb] below one byte gives 0), in every execution of a
    request, other requests interleaved or not: every payload built and
    every POST made carries empty response and request segments beside
    the query and the URL; once the handler has returned the caller has
    received the whole upstream body; and the pool and the heap are never
    touched. *)
Theorem nonpositive_limit_captures_nothing c e st w0 req0 s
    (Hoff : maxCapture c <= 0)
    (Hreach : rtc (step c e) (init_system st w0 req0) s) :
  let empty := payload_of [] [] (RawQuery (req_URL req0)) (URL_String (req_URL req0)) in
  (forall q, EvBuild q ∈ sys_trace s -> q = empty) /\
  (forall p, p ∈ sys_posts s -> post_body p = empty) /\
  (sys_hpc s = HReturned ->
     exists resp, upstream e (forwarded req0) = inl resp /\
       rw_body (sys_w s) = rw_body w0 ++ stream_content (resp_Body resp)) /\
  slicePool (sys_st s) = slicePool st /\ st_heap (sys_st s) = st_heap st.
Proof.
  intros empty.
  destruct (capture_off_reachable c e st w0 req0 Hoff s Hreach)
    as (_ & _ & _ & _ & _ & Htr & Hposts & Hpool & Hheap).
  split; [exact Htr|]. split; [|split; [|done]].
  - intros p Hp. by rewrite (Hposts p Hp).
  - intros Hret. destruct (handler_relays c e st w0 req0 s Hreach Hret) as (resp & Hup & Hb).
    exists resp. split; [done|]. rewrite Hb. unfold relayed.
    destruct (Z.ltb_spec 0 (maxCapture c)); [lia|done].
Qed.

Lemma nonpositive_limit_captures_nothing_witness :
  let c := with_maxCapture demo_cfg 0 in
  let s := serve c demo_env logged_state demo_req in
  let empty := payload_of [] [] (RawQuery (req_URL demo_req)) (URL_String (req_URL demo_req)) in
  (forall q, EvBuild q ∈ sys_trace s -> q = empty) /\
  (forall p, p ∈ sys_posts s -> post_body p = empty) /\
  (sys_hpc s = HReturned ->
     exists resp, upstream demo_env (forwarded demo_req) = inl resp /\
       rw_body (sys_w s) = rw_body new_ResponseWriter ++ stream_content (resp_Body resp)) /\
  slicePool (sys_st s) = slicePool logged_state /\ st_heap (sys_st s) = st_heap logged_state.
Proof.
  apply (nonpositive_limit_captures_nothing (with_maxCapture demo_cfg 0) demo_env logged_state
           new_ResponseWriter demo_req).
  - simpl. lia.
  - apply run_reachable.
Defined.

(** ** The numbers of the configuration *)

Lemma digits2_pos_size p : digits2_pos p = Pos.size p.
Proof. induction p; simpl; congruence. Qed.

(** The mantissa of a normal binary64 value has 53 binary digits. *)
Lemma normal_mantissa_bounds m :
  digits2_pos m = 53%positive -> 4503599627370496 <= Z.pos m < 9007199254740992.
Proof.
  rewrite digits2_pos_size. intros Hs.
  pose proof (Pos.size_gt m) as Hgt. pose proof (Pos.size_le m) as Hle.
  rewrite Hs in Hgt, Hle.
  assert (H1 : Z.pos m < 9007199254740992) by exact Hgt.
  assert (H2 : 9007199254740992 <= Z.pos (m~0)) by exact Hle.
  rewrite Pos2Z.inj_xO in H2. clear Hgt Hle. lia.
Qed.

(** Multiplying a normal value below [2^53] by 1024 is exact: it adds 10
    to the exponent. *)
Lemma f64_mul_1024 m e :
  digits2_pos m = 53%positive -> -1074 <= e <= 0 ->
  f64_mul (S754_finite false m e) (f64_of_Z 1024) = S754_finite false m (e + 10).
Proof.
  intros Hd He.
  change (f64_of_Z 1024) with (S754_finite false 4503599627370496 (-42)).
  unfold f64_mul, SFmul. cbn [xorb].
  rewrite Pos.mul_comm. cbv [Pos.mul].
  unfold binary_round_aux, shr_fexp.
  cbn [Zdigits2 digits2_pos]. rewrite Hd. cbv [Pos.succ].
  unfold fexp, emin.
  replace (Z.max (105 + (e + -42) - 53) (3 - 1024 - 53) - (e + -42)) with 52 by lia.
  cbn [shr SpecFloat.iter_pos shr_1 shr_record_of_loc shr_m shr_r shr_s loc_of_shr_record
       round_nearest_even orb].
  cbn [Zdigits2]. rewrite Hd.
  replace (Z.max (53 + (e + -42 + 52) - 53) (3 - 1024 - 53) - (e + -42 + 52)) with 0 by lia.
  cbn [shr shr_m].
  destruct (Z.leb_spec (e + -42 + 52) (1024 - 53)); [|lia].
  f_equal. lia.
Qed.

(** [m * 2^e], truncated, fits [int64] when [m] has at most 53 digits
    and [e <= 10]. *)
Lemma shiftl_bounds m e :
  0 <= m < 9007199254740992 -> e <= 10 -> 0 <= Z.shiftl m e < 9223372036854775808.
Proof.
  intros Hm He. destruct (Z.le_gt_cases 0 e) as [Hpos|Hneg].
  - rewrite Z.shiftl_mul_pow2 by done.
    assert (0 < 2 ^ e <= 2 ^ 10)
      by (split; [apply Z.pow_pos_nonneg; lia|apply Z.pow_le_mono_r; lia]).
    change (2 ^ 10) with 1024 in *. nia.
  - rewrite Z.shiftl_div_pow2 by lia.
    assert (0 < 2 ^ (- e)) by (apply Z.pow_pos_nonneg; lia).
    split; [apply Z.div_pos; lia|].
    apply Z.le_lt_trans with m; [|lia]. apply Z.div_le_upper_bound; [lia|]. nia.
Qed.

Lemma f64_to_int64_small m e :
  0 <= Z.shiftl (Z.pos m) e < 9223372036854775808 ->
  f64_to_int64 (S754_finite false m e) = Z.shiftl (Z.pos m) e.
Proof.
  intros Hr. unfold f64_to_int64, min_int64, max_int64. cbv zeta.
  change (- 2 ^ 63) with (-9223372036854775808).
  change (2 ^ 63 - 1) with 9223372036854775807.
  destruct (Z.leb_spec (-9223372036854775808) (Z.shiftl (Z.pos m) e)); [|lia].
  destruct (Z.leb_spec (Z.shiftl (Z.pos m) e) 9223372036854775807); [done|lia].
Qed.

Lemma wrap64_small z : - 9223372036854775808 <= z < 9223372036854775808 -> wrap64 z = z.
Proof.
  intros Hz. unfold wrap64. change (2 ^ 63) with 9223372036854775808.
  change (2 ^ 64) with 18446744073709551616. rewrite Z.mod_small by lia. lia.
Qed.

Lemma f64_gt_zero_finite m e : f64_gt (S754_finite false m e) f64_zero = true.
Proof. done. Qed.

Lemma apply_options_timeout block c :
  timeout (apply_options block c) =
    match block !! "timeout_ms" with
    | Some (SFloat v) =>
        if f64_gt v f64_zero then wrap64 (f64_to_int64 v * Millisecond) else timeout c
    | _ => timeout c
    end.
Proof.
  unfold apply_options.
  destruct (block !! "timeout_ms") as [[?|v|?|]|]; [|destruct (f64_gt v f64_zero)|..];
    (destruct (block !! "max_capture_kb") as [[?|v'|?|]|]; [|destruct (f64_gt v' f64_zero)|..]);
    destruct (block !! "verbose") as [[?|?|?|]|]; done.
Qed.

Lemma apply_options_maxCapture block c :
  maxCapture (apply_options block c) =
    match block !! "max_capture_kb" with
    | Some (SFloat v) =>
        if f64_gt v f64_zero then f64_to_int64 (f64_mul v (f64_of_Z 1024)) else maxCapture c
    | _ => maxCapture c
    end.
Proof.
  unfold apply_options.
  destruct (block !! "timeout_ms") as [[?|v|?|]|]; [|destruct (f64_gt v f64_zero)|..];
    (destruct (block !! "max_capture_kb") as [[?|v'|?|]|]; [|destruct (f64_gt v' f64_zero)|..]);
    destruct (block !! "verbose") as [[?|?|?|]|]; done.
Qed.

(** X16: [timeout_ms] is cut to whole milliseconds before it is scaled.
    For a positive value [m * 2^ex] of the key, the timeout installed is
    the value truncated towards zero, times one millisecond (as long as
    that fits [int64]); so a value below one millisecond installs the
    timeout 0, a deadline that has passed when the POST starts. *)
Theorem timeout_ms_is_truncated (block : gmap string scalar) (c : cfg) (m : positive) (ex : Z)
    (Hkey : block !! "timeout_ms" = Some (SFloat (S754_finite false m ex)))
    (Hrange : Z.shiftl (Z.pos m) ex * Millisecond <= max_int64) :
  timeout (apply_options block c) = Z.shiftl (Z.pos m) ex * Millisecond /\
  (Z.pos m < 2 ^ (- ex) -> timeout (apply_options block c) = 0).
Proof.
  assert (Hnn : 0 <= Z.shiftl (Z.pos m) ex) by (apply Z.shiftl_nonneg; lia).
  unfold max_int64, Millisecond in *. change (2 ^ 63 - 1) with 9223372036854775807 in Hrange.
  assert (Ht : timeout (apply_options block c) = Z.shiftl (Z.pos m) ex * 1000000).
  { rewrite apply_options_timeout, Hkey, f64_gt_zero_finite.
    rewrite f64_to_int64_small by lia. unfold Millisecond. apply wrap64_small. lia. }
  split; [exact Ht|]. intros Hsmall. rewrite Ht.
  destruct (Z.le_gt_cases 0 ex) as [Hpos|Hneg].
  - assert (2 ^ (- ex) <= 1); [|lia].
    destruct (Z.eq_dec ex 0) as [->|]; [done|]. rewrite Z.pow_neg_r by lia. lia.
  - rewrite Z.shiftl_div_pow2 by lia. rewrite Z.div_small by lia. done.
Qed.

Lemma timeout_ms_is_truncated_witness :
  let block : gmap string scalar :=
    {[ "timeout_ms" := SFloat (S754_finite false 6599268790411552 (-42)) ]} in
  timeout (apply_options block demo_cfg) = Z.shiftl 6599268790411552 (-42) * Millisecond /\
  (6599268790411552 < 2 ^ (- -42) -> timeout (apply_options block demo_cfg) = 0).
Proof.
  apply (timeout_ms_is_truncated
           {[ "timeout_ms" := SFloat (S754_finite false 6599268790411552 (-42)) ]}
           demo_cfg 6599268790411552 (-42)).
  - reflexivity.
  - vm_compute. discriminate.
Defined.

(** X17: [max_capture_kb] is scaled by 1024 and then cut to whole bytes.
    For a normal binary64 value [m * 2^ex] below [2^53] of the key (the
    mantissa has 53 digits), the product by 1024 is exact and the limit
    installed is [m * 2^(ex + 10)] truncated towards zero, never
    negative; so a fraction of a kilobyte counts, and a positive value
    below one byte ([ex <= -63]) installs the limit 0. *)
Theorem max_capture_kb_is_scaled_and_truncated
    (block : gmap string scalar) (c : cfg) (m : positive) (ex : Z)
    (Hkey : block !! "max_capture_kb" = Some (SFloat (S754_finite false m ex)))
    (Hnormal : digits2_pos m = 53%positive)
    (Hexp : -1074 <= ex <= 0) :
  maxCapture (apply_options block c) = Z.shiftl (Z.pos m) (ex + 10) /\
  0 <= maxCapture (apply_options block c) /\
  (ex <= -63 -> maxCapture (apply_options block c) = 0).
Proof.
  pose proof (normal_mantissa_bounds m Hnormal) as Hm.
  pose proof (shiftl_bounds (Z.pos m) (ex + 10)) as Hb.
  assert (Hc : maxCapture (apply_options block c) = Z.shiftl (Z.pos m) (ex + 10)).
  { rewrite apply_options_maxCapture, Hkey, f64_gt_zero_finite, f64_mul_1024 by done.
    apply f64_to_int64_small. apply Hb; lia. }
  rewrite Hc. split; [done|]. split; [apply Hb; lia|].
  intros Htiny. rewrite Z.shiftl_div_pow2 by lia. apply Z.div_small.
  split; [lia|]. apply Z.lt_le_trans with (2 ^ 53); [change (2 ^ 53) with 9007199254740992; lia|].
  apply Z.pow_le_mono_r; lia.
Qed.

Lemma max_capture_kb_is_scaled_and_truncated_witness :
  let block : gmap string scalar :=
    {[ "max_capture_kb" := SFloat (S754_finite false 4503599627370496 (-44)) ]} in
  maxCapture (apply_options block demo_cfg) = Z.shiftl 4503599627370496 (-44 + 10) /\
  0 <= maxCapture (apply_options block demo_cfg) /\
  (-44 <= -63 -> maxCapture (apply_options block demo_cfg) = 0).
Proof.
  apply (max_capture_kb_is_scaled_and_truncated
           {[ "max_capture_kb" := SFloat (S754_finite false 4503599627370496 (-44)) ]}
           demo_cfg 4503599627370496 (-44)).
  - reflexivity.
  - reflexivity.
  - lia.
Defined.

(** X18: an optional key whose value has another type than the code
    asserts (a string or a boolean for a number, a number for the flag)
    is passed over without an error: with none of the three keys holding
    a value of its type, the configuration stays as it was; and no option
    ever changes the tracking URL. *)
Theorem ill_typed_options_are_ignored (block : gmap string scalar) (c : cfg)
    (Ht : forall v, block !! "timeout_ms" <> Some (SFloat v))
    (Hm : forall v, block !! "max_capture_kb" <> Some (SFloat v))
    (Hv : forall b, block !! "verbose" <> Some (SBool b)) :
  apply_options block c = c /\
  forall block', url (apply_options block' c) = url c.
Proof.
  split.
  - unfold apply_options.
    destruct (block !! "timeout_ms") as [[s1|v1|b1|]|] eqn:Et; [|by destruct (Ht v1)|..];
      (destruct (block !! "max_capture_kb") as [[s2|v2|b2|]|] eqn:Em;
         [|by destruct (Hm v2)|..]);
      (destruct (block !! "verbose") as [[s3|v3|b3|]|] eqn:Ev; try by destruct (Hv b3));
      by destruct c.
  - intros block'. unfold apply_options.
    destruct (block' !! "timeout_ms") as [[?|v|?|]|]; [|destruct (f64_gt v f64_zero)|..];
      (destruct (block' !! "max_capture_kb") as [[?|v'|?|]|];
         [|destruct (f64_gt v' f64_zero)|..]);
      destruct (block' !! "verbose") as [[?|?|?|]|]; done.
Qed.

Lemma ill_typed_options_are_ignored_witness :
  let block : gmap string scalar :=
    {[ "timeout_ms" := SString "2000"; "max_capture_kb" := SBool true;
       "verbose" := SFloat (f64_of_Z 1) ]} in
  apply_options block demo_cfg = demo_cfg /\
  forall block', url (apply_options block' demo_cfg) = url demo_cfg.
Proof.
  apply (ill_typed_options_are_ignored
           {[ "timeout_ms" := SString "2000"; "max_capture_kb" := SBool true;
              "verbose" := SFloat (f64_of_Z 1) ]} demo_cfg).
  - intros v. vm_compute. discriminate.
  - intros v. vm_compute. discriminate.
  - intros b. vm_compute. discriminate.
Defined.

(** X19: the assertion panic of registration, exactly.  [registerClients]
    panics on a failed type assertion if and only if [extra] holds no
    object under the plugin's name or that object holds no string under
    [tracking_url]; this is decided before the URL is parsed and before
    the logger is touched, whatever the other keys hold. *)
Theorem registerClients_assertion_panic_iff
    (parse : string -> URL + string) (r : string) (extra : gmap string value) (st : state) :
  registerClients parse r extra st = Panic bad_assertion <->
  ~ exists block raw,
      extra !! r = Some (VBlock block) /\ block !! "tracking_url" = Some (SString raw).
Proof.
  unfold registerClients. split.
  - intros Hpanic (block & raw & Hb & Hu). rewrite Hb, Hu in Hpanic.
    destruct (parse raw) as [target|err]; [|done].
    unfold logger_call in Hpanic. destruct (logger st); [done|].
    simpl in Hpanic. injection Hpanic as Heq. vm_compute in Heq. discriminate.
  - intros Hno. destruct (extra !! r) as [[block|?]|] eqn:Hb; [|done..].
    destruct (block !! "tracking_url") as [[raw|?|?|]|] eqn:Hu; try done.
    destruct Hno. eauto.
Qed.

(** X20: the hooks in the order the host calls them.  [RegisterLogger]
    with a value that implements [Logger] installs it and writes the
    line [logger injected] to it; [RegisterClients] hands the host the
    plugin's name and the factory, and the factory, called afterwards on
    a block with a well-formed [tracking_url], installs the handler and
    writes the configuration line at info level, leaving the heap and
    the pools alone.  A value that is no [Logger] changes nothing, and
    with the logger still nil the same factory call panics. *)
Theorem RegisterLogger_then_RegisterClients
    (parse : string -> URL + string) (extra : gmap string value)
    (block : gmap string scalar) (raw : string) (target : URL) (st : state) (l : list entry)
    (Hb : extra !! ClientRegisterer = Some (VBlock block))
    (Hu : block !! "tracking_url" = Some (SString raw))
    (Hp : parse raw = inl target) :
  let injected := (LvDebug, [AStr tag; AStr "logger injected"]) in
  exists st1 st2 args,
    RegisterLogger (Some l) st = Done st1 /\
    logger st1 = Some (l ++ [injected]) /\
    RegisterClients parse ClientRegisterer (fun name factory => (name, factory extra st1)) =
      ("krakend-trace-plugin",
       Done (st2, Installed (apply_options block (default_cfg target)))) /\
    logger st2 = Some (l ++ [injected; (LvInfo, args)]) /\
    st_heap st2 = st_heap st /\ slicePool st2 = slicePool st /\ bufPool st2 = bufPool st /\
    RegisterLogger None st = Done st /\
    (logger st = None ->
     RegisterClients parse ClientRegisterer (fun _ factory => factory extra st)
       = Panic nil_deref).
Proof.
  intros injected. unfold RegisterLogger, RegisterClients, registerClients.
  rewrite always_eq, Hb, Hu, Hp. simpl.
  eexists _, _, _. split; [reflexivity|]. split; [reflexivity|].
  unfold logger_call. simpl. split; [reflexivity|]. simpl.
  rewrite <- app_assoc. split; [reflexivity|].
  repeat split. intros Hnil. by rewrite Hnil.
Qed.

Lemma RegisterLogger_then_RegisterClients_witness :
  let injected := (LvDebug, [AStr tag; AStr "logger injected"]) in
  exists st1 st2 args,
    RegisterLogger (Some []) init_state = Done st1 /\
    logger st1 = Some ([] ++ [injected]) /\
    RegisterClients ParseRequestURI_lite ClientRegisterer
      (fun name factory => (name, factory minimal_extra st1)) =
      ("krakend-trace-plugin",
       Done (st2, Installed (apply_options
                               {[ "tracking_url" := SString "http://tracking.svc/api/tracking" ]}
                               (default_cfg tracking)))) /\
    logger st2 = Some ([] ++ [injected; (LvInfo, args)]) /\
    st_heap st2 = st_heap init_state /\ slicePool st2 = slicePool init_state /\
    bufPool st2 = bufPool init_state /\
    RegisterLogger None init_state = Done init_state /\
    (logger init_state = None ->
     RegisterClients ParseRequestURI_lite ClientRegisterer
       (fun _ factory => factory minimal_extra init_state) = Panic nil_deref).
Proof.
  apply (RegisterLogger_then_RegisterClients ParseRequestURI_lite minimal_extra
           {[ "tracking_url" := SString "http://tracking.svc/api/tracking" ]}
           "http://tracking.svc/api/tracking" tracking init_state []); reflexivity.
Defined.

(** ** The payload as bytes *)

Lemma string_length_app (a b : string) :
  String.length (a +:+ b) = (String.length a + String.length b)%nat.
Proof.
  induction a as [|x a IH]; [done|].
  change (Datatypes.S (String.length (a +:+ b)) =
          Datatypes.S (String.length a + String.length b)).
  by rewrite IH.
Qed.

Lemma string_length_of_bytes (l : bytes) : String.length (string_of_list_byte l) = length l.
Proof.
  unfold string_of_list_byte. induction l as [|x l IH]; [done|]. simpl. by rewrite IH.
Qed.

(** X21: the captured bytes go into the payload unescaped, so the
    markers do not delimit: a response body that holds the marker between
    the response and the request segment, followed by [b], with the
    request body [d], gives the very payload of the response body before
    the marker with the request body [b], marker, [d]; the two pairs of
    bodies differ, the payloads do not. *)
Theorem payload_markers_are_not_escaped
    (st : state) (u : URL) (a b d : bytes) (v1 v2 : slice)
    (H1 : slice_bytes (st_heap st) v1 = a ++ response_request_marker ++ b)
    (H2 : slice_bytes (st_heap st) v2 = a) :
  (build_payload st u d v1).2 =
    (build_payload st u (b ++ response_request_marker ++ d) v2).2 /\
  slice_bytes (st_heap st) v1 <> slice_bytes (st_heap st) v2.
Proof.
  split.
  - rewrite !build_payload_format, H1, H2. unfold payload_of, segment, response_request_marker.
    rewrite !string_of_list_byte_app, !string_of_list_byte_of_string, !string_append_assoc.
    reflexivity.
  - rewrite H1, H2. intros Heq. apply (f_equal length) in Heq.
    rewrite !length_app in Heq. unfold response_request_marker in Heq. simpl in Heq. lia.
Qed.

Lemma payload_markers_are_not_escaped_witness :
  (build_payload marker_capture.1 (req_URL demo_req) (list_byte_of_string "D")
     marker_capture.2).2 =
    (build_payload marker_capture.1 (req_URL demo_req)
       (list_byte_of_string "B" ++ response_request_marker ++ list_byte_of_string "D")
       nil_slice).2 /\
  slice_bytes (st_heap marker_capture.1) marker_capture.2
    <> slice_bytes (st_heap marker_capture.1) nil_slice.
Proof.
  apply (payload_markers_are_not_escaped marker_capture.1 (req_URL demo_req)
           [] (list_byte_of_string "B") (list_byte_of_string "D")
           marker_capture.2 nil_slice).
  - vm_compute. reflexivity.
  - reflexivity.
Defined.

(** X22: the size of the payload.  Its length in bytes is 117 (the
    markers and the commas) plus the length of the slice received, the
    length of the request capture, and the lengths of the raw query and
    of the full URL, whatever the pooled buffer held and whatever bytes
    the slice denotes when the payload is built. *)
Theorem payload_length (st : state) (u : URL) (reqBody : bytes) (respBody : slice) :
  String.length (build_payload st u reqBody respBody).2 =
    (117 + len respBody + length reqBody +
     String.length (RawQuery u) + String.length (URL_String u))%nat.
Proof.
  rewrite build_payload_format. unfold payload_of, segment.
  rewrite !string_length_app, !string_length_of_bytes, len_slice_bytes. simpl. lia.
Qed.

(** ** The test plugin *)

(** X23: the handler of the test plugin.  On a request whose header is
    a map, the transport receives the request with [X-Test-Plugin] set to
    the one value [true] (values it had are replaced), every other header
    and the rest of the request as they were; whatever the transport
    answers, the response writer is returned as it was given, so the
    caller receives nothing of the answer; a nil header makes [Set]
    panic; and [client] returns this handler for every configuration. *)
Theorem test_plugin_forwards_and_drops_the_answer
    {R : Type} (RoundTrip : TestPlugin.Request -> R) (w : ResponseWriter)
    (req : TestPlugin.Request) (extra : gmap string value) :
  TestPlugin.client RoundTrip extra = inl (TestPlugin.handler RoundTrip) /\
  (TestPlugin.Header req = None ->
     TestPlugin.handler RoundTrip w req = Panic TestPlugin.nil_map) /\
  (forall m, TestPlugin.Header req = Some m ->
     exists m',
       TestPlugin.handler RoundTrip w req =
         Done (w, RoundTrip {| TestPlugin.Header := Some m';
                               TestPlugin.rest := TestPlugin.rest req |}) /\
       m' !! "X-Test-Plugin" = Some ["true"] /\
       forall k, k <> "X-Test-Plugin" -> m' !! k = m !! k).
Proof.
  split; [done|]. unfold TestPlugin.handler, TestPlugin.Header_Set. split.
  - intros ->. done.
  - intros m ->. simpl. exists (<["X-Test-Plugin" := ["true"]]> m).
    split; [done|]. split; [apply lookup_insert_eq|].
    intros k Hk. by apply lookup_insert_ne.
Qed.

(** ** What other requests can and cannot change *)

Section Interference.
Variables (c : cfg) (e : env) (st0 : state) (w0 : ResponseWriter) (req0 : Request).

Lemma lengths_kept_step y z :
  lengths_kept c e req0 y -> transition c e req0 y z -> lengths_kept c e req0 z.
Proof.
  unfold lengths_kept. cbv zeta.
  intros (Hst & Hch & Hwait & Hrecv & Hbuilt & Htr & Hposts) Ht.
  destruct Ht as [s st1 Hpc Hv|s Hpc Hneg Hb|s b err Hpc Hup|s b resp st1 w1 buf Hpc Hup Hsc
                 |s k v Hpc Hch'|s k Hpc Hcl|s k st1 Hpc Hv|s b v Hco Hbuf|s b v Hco|s p Hco
                 |s p err st1 Hco Hv|s w src st1 w1 b Hsc]; simpl.
  - split_and!; try done.
    + intros v Hin. by apply elem_of_nil in Hin.
    + by intros b [= <-].
    + intros q Hq. apply elem_of_app in Hq as [Hq|Hq]; [by apply Htr|].
      apply list_elem_of_singleton in Hq. done.
  - split_and!; done.
  - split_and!; done.
  - split_and!; try done. intros k v [= _ <-].
    destruct (streamAndCapture_reply c (sys_st s) (sys_w s) resp)
      as (st' & buf' & Hrun & Hbytes & _).
    rewrite Hrun in Hsc. injection Hsc as <- _ <-.
    rewrite <- (len_slice_bytes (st_heap st') buf'), Hbytes.
    unfold response_capture. by rewrite Hup.
  - split_and!; try done.
    + intros v' Hin. apply list_elem_of_singleton in Hin as ->. by eapply Hst.
    + intros q Hq. apply elem_of_app in Hq as [Hq|Hq]; [by apply Htr|].
      apply list_elem_of_singleton in Hq. done.
  - split_and!; try done.
    intros q Hq. apply elem_of_app in Hq as [Hq|Hq]; [by apply Htr|].
    apply list_elem_of_singleton in Hq. done.
  - split_and!; done.
  - split_and!; try done.
    + intros v' Hin. by apply elem_of_nil in Hin.
    + intros b' v' [= <- <-]. split; [by eapply Hwait|]. apply Hch. rewrite Hbuf. by left.
    + intros q Hq. apply elem_of_app in Hq as [Hq|Hq]; [by apply Htr|].
      apply list_elem_of_singleton in Hq. done.
  - destruct (Hrecv b v Hco) as [-> Hlen].
    assert (Hp : sized_payload c req0 (length (response_capture c e req0))
                   (build_payload (sys_st s) (req_URL req0) (request_capture c req0) v).2).
    { exists (slice_bytes (st_heap (sys_st s)) v). rewrite build_payload_format.
      split; [done|]. by rewrite len_slice_bytes. }
    split_and!; try done.
    + by intros p [= <-].
    + intros q Hq. apply elem_of_app in Hq as [Hq|Hq]; [by apply Htr|].
      apply list_elem_of_singleton in Hq as [= ->]. done.
  - split_and!; try done.
    + intros q Hq. apply elem_of_app in Hq as [Hq|Hq]; [by apply Htr|].
      apply list_elem_of_singleton in Hq. done.
    + intros p' Hp'. apply elem_of_app in Hp' as [Hp'|Hp']; [by apply Hposts|].
      apply list_elem_of_singleton in Hp' as ->. unfold new_post. simpl. by apply Hbuilt.
  - rewrite app_nil_r. split_and!; done.
  - split_and!; try done.
    intros q Hq. apply elem_of_app in Hq as [Hq|Hq]; [by apply Htr|].
    apply list_elem_of_singleton in Hq. done.
Qed.

Lemma lengths_kept_reachable s :
  rtc (step c e) (init_system st0 w0 req0) s -> lengths_kept c e req0 s.
Proof.
  apply reachable_ind.
  - unfold lengths_kept. simpl. split_and!; try done; intros ? Hin; by apply elem_of_nil in Hin.
  - intros y z _ Hy Ht. by eapply lengths_kept_step.
Qed.

End Interference.

(** X24: what other requests can change of a payload is confined to the
    bytes of its response segment.  In every execution, other requests
    interleaved at will, every payload built and every POST made for a
    request carries the request capture, the raw query and the full URL
    of that request, and a response segment of exactly as many bytes as
    the response capture has; only which bytes those are depends on the
    other requests. *)
Theorem interference_is_confined_to_response_bytes c e st w0 req0 s
    (Hreach : rtc (step c e) (init_system st w0 req0) s) :
  (forall q, EvBuild q ∈ sys_trace s ->
     exists x, q = payload_of x (request_capture c req0) (RawQuery (req_URL req0))
                     (URL_String (req_URL req0)) /\
       length x = length (response_capture c e req0)) /\
  (forall p, p ∈ sys_posts s ->
     exists x, post_body p = payload_of x (request_capture c req0) (RawQuery (req_URL req0))
                               (URL_String (req_URL req0)) /\
       length x = length (response_capture c e req0)).
Proof.
  destruct (lengths_kept_reachable c e st w0 req0 s Hreach)
    as (_ & _ & _ & _ & _ & Htr & Hposts).
  split; [exact Htr|exact Hposts].
Qed.

Lemma interference_is_confined_to_response_bytes_witness :
  let s := serve demo_cfg demo_env logged_state demo_req in
  (forall q, EvBuild q ∈ sys_trace s ->
     exists x, q = payload_of x (request_capture demo_cfg demo_req)
                     (RawQuery (req_URL demo_req)) (URL_String (req_URL demo_req)) /\
       length x = length (response_capture demo_cfg demo_env demo_req)) /\
  (forall p, p ∈ sys_posts s ->
     exists x, post_body p = payload_of x (request_capture demo_cfg demo_req)
                               (RawQuery (req_URL demo_req)) (URL_String (req_URL demo_req)) /\
       length x = length (response_capture demo_cfg demo_env demo_req)).
Proof.
  apply (interference_is_confined_to_response_bytes demo_cfg demo_env logged_state
           new_ResponseWriter demo_req).
  apply run_reachable.
Defined.

(** ** The relay and the capture, byte for byte *)

(** X25: with a positive limit the tee keeps the caller and the capture
    in step: when [streamAndCapture] returns, what the destination has
    received beyond what it held is, byte for byte, what the returned
    slice denotes, for every source, state and limit; the headers of the
    destination are untouched. *)
Theorem relayed_bytes_are_the_captured_bytes
    (st : state) (dst : ResponseWriter) (src : stream) (max : Z) (Hmax : 0 < max) :
  exists st' dst' buf,
    streamAndCapture st dst src max = Done (st', dst', buf) /\
    rw_body dst' = rw_body dst ++ slice_bytes (st_heap st') buf /\
    rw_header dst' = rw_header dst /\
    len buf = Nat.min (length (stream_content src)) (Z.to_nat max).
Proof.
  destruct (streamAndCapture_capture st dst src max Hmax)
    as (st' & dst' & buf & Hrun & Hd & Hbuf & _ & _ & _ & Hh & _).
  exists st', dst', buf. rewrite Hbuf. split; [done|]. split; [done|]. split; [done|].
  rewrite <- (len_slice_bytes (st_heap st') buf), Hbuf, length_take. lia.
Qed.

Lemma relayed_bytes_are_the_captured_bytes_witness :
  exists st' dst' buf,
    streamAndCapture logged_state new_ResponseWriter abcdef 4 = Done (st', dst', buf) /\
    rw_body dst' = rw_body new_ResponseWriter ++ slice_bytes (st_heap st') buf /\
    rw_header dst' = rw_header new_ResponseWriter /\
    len buf = Nat.min (length (stream_content abcdef)) (Z.to_nat 4).
Proof.
  apply (relayed_bytes_are_the_captured_bytes logged_state new_ResponseWriter abcdef 4). lia.
Defined.

(** X26: with the pool empty and a limit of at most 256 KiB, a capturing
    relay allocates exactly one array, the buffer [New] makes, and never
    moves the capture out of it: the slice returned lies in that array,
    the pool afterwards holds that array alone, and every array the heap
    held before is untouched. *)
Theorem streamAndCapture_allocates_once_on_empty_pool
    (st : state) (dst : ResponseWriter) (src : stream) (max : Z)
    (Hpool : slicePool st = []) (Hpos : 0 < max) (Hcap : max <= defMaxCaptureKB * 1024) :
  exists st' dst' k,
    streamAndCapture st dst src max
      = Done (st', dst', Slice (next (st_heap st)) k (defMaxCaptureKB * 1024)) /\
    slicePool st' = [Slice (next (st_heap st)) 0 (defMaxCaptureKB * 1024)] /\
    next (st_heap st') = Datatypes.S (next (st_heap st)) /\
    (forall a', a' <> next (st_heap st) -> cell (st_heap st') a' = cell (st_heap st) a').
Proof.
  unfold streamAndCapture. destruct (Z.leb_spec max 0) as [?|_]; [lia|].
  unfold slicePool_Get. rewrite Hpool. unfold make. cbv zeta.
  set (a := next (st_heap st)). set (cap0 := defMaxCaptureKB * 1024).
  set (h1 := {| cells := <[a := []]> (cells (st_heap st)); next := Datatypes.S a |}).
  set (tee := {| tee_r := {| lr_R := src; lr_N := max |};
                 tee_w := {| sw_heap := st_heap (set_heap h1 st);
                             sw_buf := reslice0 (Slice a 0 cap0) |} |}).
  pose proof (limited_laws _ stream_laws) as Hl.
  pose proof (tee_laws (W:=sliceWriter) _ Hl) as Ht.
  destruct (io_Copy_spec _ Ht rw_body (fun _ => True)
              (fun t : teeReader (LimitedReader stream) sliceWriter =>
                 exists k, sw_buf (tee_w t) = Slice a k cap0 /\
                   Z.of_nat k + lr_N (tee_r t) <= cap0 /\
                   next (sw_heap (tee_w t)) = Datatypes.S a /\
                   forall a', a' <> a -> cell (sw_heap (tee_w t)) a' = cell h1 a')
              dst tee)
    as (dst' & tee' & Hrun & _ & _ & _ & (k & Hbuf & _ & Hnx & Hframe)).
  - done.
  - done.
  - intros s n0 p e0 s' Hn0 HR HQ.
    exact (tee_Read_in_place a cap0 (Datatypes.S a) h1 s s' n0 p e0 Hn0 HR HQ).
  - done.
  - exists 0%nat. subst tee. simpl. split; [done|]. split; [lia|]. done.
  - fold tee. rewrite Hrun. simpl. rewrite Hbuf. simpl.
    eexists _, dst', k. split; [reflexivity|]. simpl. rewrite Hpool.
    split; [done|]. split; [done|].
    intros a' Ha. rewrite (Hframe a' Ha). unfold cell, h1. simpl.
    by rewrite lookup_insert_ne.
Qed.

Lemma streamAndCapture_allocates_once_on_empty_pool_witness :
  exists st' dst' k,
    streamAndCapture logged_state new_ResponseWriter abcdef 4
      = Done (st', dst', Slice (next (st_heap logged_state)) k (defMaxCaptureKB * 1024)) /\
    slicePool st' = [Slice (next (st_heap logged_state)) 0 (defMaxCaptureKB * 1024)] /\
    next (st_heap st') = Datatypes.S (next (st_heap logged_state)) /\
    (forall a', a' <> next (st_heap logged_state) ->
       cell (st_heap st') a' = cell (st_heap logged_state) a').
Proof.
  apply (streamAndCapture_allocates_once_on_empty_pool logged_state new_ResponseWriter abcdef 4);
    [reflexivity | lia | unfold defMaxCaptureKB; lia].
Defined.

(** ** The handoff channel *)

Lemma co_inv_sent c e req0 s v : co_inv c e req0 s v -> EvSend v ∈ sys_trace s.
Proof.
  unfold co_inv. intros Hco.
  assert (Hin : EvSend v ∈ handoff_events (sys_trace s)).
  { destruct (sys_co s); [done|..];
      repeat match goal with
      | H : _ /\ _ |- _ => destruct H
      | H : exists _, _ |- _ => destruct H
      end;
      match goal with H : handoff_events _ = _ |- _ => rewrite H end; by left. }
  unfold handoff_events in Hin. by apply list_elem_of_filter in Hin as [_ Hin].
Qed.

(** X27: the discipline of the handoff channel.  In every execution the
    channel holds at most the one slice its buffer has room for; it is
    closed only after the send; whatever the delivery task receives is
    the slice the handler sent, never the zero value of a closed and
    empty channel; and the events of the handoff occur in the order send,
    receive, build, POST, each at most once. *)
Theorem handoff_channel_discipline c e st w0 req0 s
    (Hreach : rtc (step c e) (init_system st w0 req0) s) :
  (length (ch_buf (sys_ch s)) <= 1)%nat /\
  (ch_closed (sys_ch s) = true -> exists v, EvSend v ∈ sys_trace s) /\
  (forall v, EvRecv v ∈ sys_trace s -> EvSend v ∈ sys_trace s) /\
  (exists v x,
     handoff_events (sys_trace s) `prefix_of`
       [EvSend v; EvRecv v; EvBuild (payload_for c req0 x);
        EvPost (new_post c (payload_for c req0 x))]).
Proof.
  pose proof (inv_reachable c e w0 req0 st s Hreach) as Hinv.
  destruct (inv_handoff _ _ _ _ _ Hinv) as (v & x & Hpre & _).
  split; [|split; [|split; [|eauto]]].
  - destruct (inv_co_cases _ _ _ _ _ Hinv) as [[(Hch & _) _]|[v' Hco]].
    + rewrite Hch. simpl. lia.
    + unfold co_inv in Hco. destruct (sys_co s); [done|..];
        repeat match goal with
        | H : _ /\ _ |- _ => destruct H
        end;
        match goal with H : ch_buf _ = _ |- _ => rewrite H end; simpl; lia.
  - intros Hcl. destruct (inv_co_cases _ _ _ _ _ Hinv) as [[(Hch & _) _]|[v' Hco]].
    + rewrite Hch in Hcl. done.
    + exists v'. by eapply co_inv_sent.
  - intros v' Hrecv.
    assert (Hin : EvRecv v' ∈ handoff_events (sys_trace s)).
    { unfold handoff_events. by apply list_elem_of_filter. }
    destruct Hpre as [k Hk].
    destruct (handoff_events (sys_trace s)) as [|a [|b rest]] eqn:Hhand; simplify_eq/=.
    + by apply elem_of_nil in Hin.
    + apply list_elem_of_singleton in Hin. done.
    + assert (Hv : v' = v).
      { apply elem_of_cons in Hin as [?|Hin]; [done|].
        apply elem_of_cons in Hin as [[= ->]|Hin]; [done|].
        destruct rest as [|r1 [|r2 rest]]; simplify_eq/=.
        - by apply elem_of_nil in Hin.
        - apply list_elem_of_singleton in Hin. done.
        - apply elem_of_cons in Hin as [?|Hin]; [done|].
          apply elem_of_cons in Hin as [?|Hin]; [done|].
          destruct rest; [by apply elem_of_nil in Hin|done]. }
      subst v'.
      assert (Hs : EvSend v ∈ handoff_events (sys_trace s)) by (rewrite Hhand; by left).
      unfold handoff_events in Hs. by apply list_elem_of_filter in Hs as [_ Hs].
Qed.

Lemma handoff_channel_discipline_witness :
  let s := serve demo_cfg demo_env logged_state demo_req in
  (length (ch_buf (sys_ch s)) <= 1)%nat /\
  (ch_closed (sys_ch s) = true -> exists v, EvSend v ∈ sys_trace s) /\
  (forall v, EvRecv v ∈ sys_trace s -> EvSend v ∈ sys_trace s) /\
  (exists v x,
     handoff_events (sys_trace s) `prefix_of`
       [EvSend v; EvRecv v; EvBuild (payload_for demo_cfg demo_req x);
        EvPost (new_post demo_cfg (payload_for demo_cfg demo_req x))]).
Proof.
  apply (handoff_channel_discipline demo_cfg demo_env logged_state new_ResponseWriter demo_req).
  apply run_reachable.
Defined.

(** ** Where an execution can come to rest *)



(** ** The two copies of the delivery task *)

(** X29: the two copies of the plugin build the same payload.  The
    earlier copy fills the buffer in twelve writes, the later one in
    nine; for every state, URL, request capture and slice, both leave the
    same bytes in the buffer they return to the pool and produce the same
    payload. *)
Theorem payload_same_in_both_copies
    (st : state) (u : URL) (reqBody : bytes) (respBody : slice) :
  build_payload_earlier st u reqBody respBody = build_payload st u reqBody respBody.
Proof.
  unfold build_payload_earlier, build_payload.
  destruct (bufPool_Get st) as [st1 buf]. cbv zeta.
  assert (Hbuf :
    Buffer_WriteString (Buffer_WriteString (Buffer_WriteString (Buffer_WriteString
      (Buffer_WriteString (Buffer_WriteString (Buffer_WriteString (Buffer_Write
        (Buffer_WriteString (Buffer_WriteString (Buffer_Write
          (Buffer_WriteString (Buffer_Reset buf) "{$responseBody}")
          (slice_bytes (st_heap st1) respBody)) "{/responseBody},") "{$requestBody}")
        reqBody) "{/requestBody},") "{$requestQuery}") (RawQuery u)) "{/requestQuery},")
      "{$requestUrl}") (URL_String u)) "{/requestUrl}" =
    Buffer_WriteString (Buffer_WriteString (Buffer_WriteString (Buffer_WriteString
      (Buffer_WriteString (Buffer_Write (Buffer_WriteString (Buffer_Write
        (Buffer_WriteString (Buffer_Reset buf) "{$responseBody}")
        (slice_bytes (st_heap st1) respBody)) "{/responseBody},{$requestBody}")
      reqBody) "{/requestBody},{$requestQuery}") (RawQuery u))
      "{/requestQuery},{$requestUrl}") (URL_String u)) "{/requestUrl}").
  { unfold Buffer_WriteString, Buffer_Write, Buffer_Reset.
    rewrite <- !app_assoc. reflexivity. }
  by rewrite Hbuf.
Qed.
